(** * Encrypted linear transforms and matrix products (SEAL python examples)

    A shallow embedding of [python/examples/example_7_matrix_multiplication.py]:
    the diagonal decomposer [diag_repr], the permutation generators
    [sigma_permutation], [tau_permutation], [phi_permutation_k] and
    [psi_permutation_k], the evaluators [lin_trans], [cA_x_cB] and
    [cA_dot_cB], and the packing adapters [encrypt_array] / [decrypt_array].

    numpy arrays are a shape together with a row-major buffer; Python
    exceptions are an explicit result type; calls into the SEAL engine
    (encoder, evaluator, encryptor, decryptor) are threaded through a small
    monad that carries the log of engine calls. *)

From Stdlib Require Import String.
From Stdlib Require Import List Arith ZArith QArith Lia Bool Permutation.
Import ListNotations.
Close Scope Q_scope.
Close Scope Z_scope.
Open Scope nat_scope.

Set Implicit Arguments.

(** ** Python results *)

(** The exceptions the example can raise, by Python class. *)
Inductive PyExc : Type :=
| Exception (msg : string)
| TypeError (msg : string)
| ValueError (msg : string)
| IndexError (msg : string)
| ZeroDivisionError.

Inductive PyResult (A : Type) : Type :=
| Ok (a : A)
| Raise (e : PyExc).

Arguments Ok {A} a.
Arguments Raise {A} e.

Definition pbind {A B} (r : PyResult A) (f : A -> PyResult B) : PyResult B :=
  match r with
  | Ok a => f a
  | Raise e => Raise e
  end.

Declare Scope py_scope.
Delimit Scope py_scope with py.
Notation "x <- r ;; k" := (pbind r (fun x => k))
  (at level 61, r at next level, right associativity) : py_scope.

(** [for x in xs: acc = body(x, acc)] over a pure-but-fallible body. *)
Fixpoint pfor {A S} (xs : list A) (body : A -> S -> PyResult S) (s : S)
  : PyResult S :=
  match xs with
  | [] => Ok s
  | x :: xs' => pbind (body x s) (pfor xs' body)
  end.

(** [[f(x) for x in xs]] for a fallible [f]. *)
Fixpoint pmap {A B} (f : A -> PyResult B) (xs : list A) : PyResult (list B) :=
  match xs with
  | [] => Ok []
  | x :: xs' => pbind (f x) (fun y => pbind (pmap f xs') (fun ys => Ok (y :: ys)))
  end.

(** ** Scalars

    The entries of the arrays and of the slot vectors.  The source computes
    with doubles; the development is over any number system with exact
    addition and multiplication in which a sum of non-negative numbers
    vanishes only when each of them does (the integers, the rationals, the
    reals). *)
Class Scalar (R : Type) : Type := {
  r0 : R;
  r1 : R;
  radd : R -> R -> R;
  rmul : R -> R -> R;
  rabs : R -> R;
  reqb : R -> R -> bool;
  rnonneg : R -> Prop;
  reqb_eq : forall x y, reqb x y = true <-> x = y;
  radd_0_l : forall x, radd r0 x = x;
  radd_comm : forall x y, radd x y = radd y x;
  radd_assoc : forall x y z, radd x (radd y z) = radd (radd x y) z;
  rmul_0_l : forall x, rmul r0 x = r0;
  rmul_0_r : forall x, rmul x r0 = r0;
  rmul_1_l : forall x, rmul r1 x = x;
  r1_neq_0 : r1 <> r0;
  rnonneg_1 : rnonneg r1;
  rnonneg_abs : forall x, rnonneg (rabs x);
  rnonneg_add : forall x y, rnonneg x -> rnonneg y -> rnonneg (radd x y);
  rnonneg_add_0 : forall x y,
      rnonneg x -> rnonneg y -> radd x y = r0 -> x = r0 /\ y = r0;
  rabs_0 : rabs r0 = r0;
  rabs_eq_0 : forall x, rabs x = r0 -> x = r0
}.

#[export] Instance Z_Scalar : Scalar Z.
Proof.
  refine {| r0 := 0%Z; r1 := 1%Z; radd := Z.add; rmul := Z.mul;
            rabs := Z.abs; reqb := Z.eqb; rnonneg := fun x => (0 <= x)%Z |}.
  - intros x y. apply Z.eqb_eq.
  - intros; lia.
  - intros; lia.
  - intros; lia.
  - intros; lia.
  - intros; lia.
  - intros; lia.
  - lia.
  - lia.
  - intros; lia.
  - intros; lia.
  - intros; lia.
  - reflexivity.
  - intros; lia.
Defined.

(** ** Lists as 1-D arrays *)

Fixpoint update_nth {A} (i : nat) (v : A) (l : list A) : list A :=
  match l, i with
  | [], _ => []
  | _ :: t, O => v :: t
  | h :: t, S i' => h :: update_nth i' v t
  end.

Section Numpy.
Context {R : Type} {SR : Scalar R}.

(** [v.sum()] for a 1-D array. *)
Definition np_sum (v : list R) : R := fold_right radd r0 v.

(** [np.abs(v)]. *)
Definition np_abs (v : list R) : list R := map rabs v.

(** [np.zeros(k)]. *)
Definition np_zeros (k : nat) : list R := repeat r0 k.

(** Elementwise [a + b] of 1-D arrays of one length. *)
Definition vadd (a b : list R) : list R :=
  map (fun p => radd (fst p) (snd p)) (combine a b).

(** Elementwise [a * b] of 1-D arrays of one length. *)
Definition vmul (a b : list R) : list R :=
  map (fun p => rmul (fst p) (snd p)) (combine a b).

(** The sum of a list of length-[n] vectors, accumulated from the left
    starting at the zero vector. *)
Definition vsum (n : nat) (vs : list (list R)) : list R :=
  fold_left vadd vs (np_zeros n).

(** Modelled from the spec: [rotate(m, l)], the vector [m] cyclically rotated
    by [l] slots ([np.roll(m, -l)]): slot [i] of the result is slot
    [(i+l) mod n] of [m]. *)
Definition rotate (l : nat) (m : list R) : list R :=
  map (fun i => nth ((i + l) mod (length m)) m r0) (seq 0 (length m)).

(** *** 2-D arrays: a shape and a row-major buffer *)
Record ndarray : Type := mk_ndarray {
  shape : nat * nat;
  data : list R
}.

Definition nrows (U : ndarray) : nat := fst (shape U).
Definition ncols (U : ndarray) : nat := snd (shape U).

(** numpy keeps [len(data) = rows * cols]. *)
Definition wf_ndarray (U : ndarray) : Prop :=
  length (data U) = nrows U * ncols U.

(** [U[r, c]] for an index inside the shape. *)
Definition get (U : ndarray) (r c : nat) : R :=
  nth (r * ncols U + c) (data U) r0.

(** The array of shape [(N, M)] whose entry [(r, c)] is [f r c]. *)
Definition tabulate (N M : nat) (f : nat -> nat -> R) : ndarray :=
  {| shape := (N, M);
     data := flat_map (fun r => map (f r) (seq 0 M)) (seq 0 N) |}.

(** [v.reshape(N, M)] of a 1-D array. *)
Definition np_reshape (v : list R) (N M : nat) : PyResult ndarray :=
  if length v =? N * M then Ok {| shape := (N, M); data := v |}
  else Raise (ValueError "cannot reshape array").

(** [U.flatten()]. *)
Definition flatten (U : ndarray) : list R := data U.

(** [U[r, c] = v]; numpy raises IndexError outside the shape. *)
Definition np_setitem (U : ndarray) (r c : nat) (v : R) : PyResult ndarray :=
  if (r <? nrows U) && (c <? ncols U)
  then Ok {| shape := shape U; data := update_nth (r * ncols U + c) v (data U) |}
  else Raise (IndexError "index is out of bounds").

(** [np.diag(U, k)] of a 2-D array: the [k]-th diagonal, above the main one
    for [k > 0] and below it for [k < 0]; empty when [k] leaves the shape. *)
Definition np_diag (U : ndarray) (k : Z) : list R :=
  if (0 <=? k)%Z then
    let k' := Z.to_nat k in
    map (fun i => get U i (i + k')) (seq 0 (min (nrows U) (ncols U - k')))
  else
    let k' := Z.to_nat (- k) in
    map (fun i => get U (i + k') i) (seq 0 (min (nrows U - k') (ncols U))).

(** [np.eye(n)]. *)
Definition np_eye (n : nat) : ndarray :=
  tabulate n n (fun r c => if r =? c then r1 else r0).

(** [np.kron(A, B)]: block [(a, b)] of the result is [A[a, b] * B]. *)
Definition np_kron (A B : ndarray) : ndarray :=
  tabulate (nrows A * nrows B) (ncols A * ncols B)
    (fun r c => rmul (get A (r / nrows B) (c / ncols B))
                     (get B (r mod nrows B) (c mod ncols B))).

(** [U[0:a, 0:b]]: slicing clips to the shape. *)
Definition np_slice (U : ndarray) (a b : nat) : ndarray :=
  tabulate (min a (nrows U)) (min b (ncols U)) (get U).

(** [U.dot(m)] for a 2-D [U] and a vector [m]. *)
Definition np_dot (U : ndarray) (m : list R) : list R :=
  map (fun i => np_sum (map (fun j => rmul (get U i j) (nth j m r0))
                            (seq 0 (ncols U))))
      (seq 0 (nrows U)).

(** Modelled from the spec: the generalized (cyclic) diagonal of offset [l],
    the length-[N] vector [U[i, (i+l) mod N]]. *)
Definition cyclic_diagonal (U : ndarray) (N l : nat) : list R :=
  map (fun i => get U i ((i + l) mod N)) (seq 0 N).

(** ** The diagonal decomposer (source lines 12-20) *)
Definition diag_repr (U : ndarray) (i : Z) : PyResult (list R) :=
  let '(N, M) := shape U in
  if negb (N =? M) then
    Raise (Exception "diag_repr only works for square matrices")
  else
    let result := np_diag U i ++ np_diag U (- Z.of_nat N + i) in
    if negb (length result =? N) then
      Raise (Exception "diag_repr index is out of bounds")
    else Ok result.

(** Modelled from the spec: the unencrypted diagonal decomposition, the sum
    over the offsets [l] in [0, N) of [diagonal(U, l) .* rotate(m, l)], with
    the diagonals taken by [diag_repr]. *)
Definition diagonal_decomposition (U : ndarray) (m : list R)
  : PyResult (list R) :=
  let N := length m in
  pbind (pmap (fun l => pbind (diag_repr U (Z.of_nat l))
                             (fun u => Ok (vmul u (rotate l m))))
              (seq 0 N))
        (fun terms => Ok (vsum N terms)).

End Numpy.

Arguments ndarray R : clear implicits.

(** ** The engine interface

    The example drives SEAL through its python binding: [CKKSEncoder],
    [Encryptor], [Decryptor], [Evaluator] and the accessors of
    [Ciphertext].  In-place calls return the updated object. *)

(** Key material is opaque to the example. *)
Inductive GaloisKeys : Type := galois_keys.
Inductive RelinKeys : Type := relin_keys.

(** One entry of the log per call into the engine. *)
Inductive Event : Type :=
| EvEncode (len : nat)
| EvDecode
| EvEncrypt
| EvDecrypt
| EvModSwitchPlain (target : nat)
| EvModSwitch (target : nat)
| EvRotate (steps : nat)
| EvMultiplyPlain
| EvMultiply
| EvAdd
| EvAddMany (count : nat)
| EvRelinearize
| EvRescale.

(** Computations that call the engine: the log of calls so far goes in, the
    outcome and the extended log come out. *)
Definition Eng (A : Type) : Type := list Event -> PyResult A * list Event.

Definition ret {A} (a : A) : Eng A := fun t => (Ok a, t).

Definition raise {A} (e : PyExc) : Eng A := fun t => (Raise e, t).

Definition bind {A B} (m : Eng A) (f : A -> Eng B) : Eng B :=
  fun t => match m t with
           | (Ok a, t') => f a t'
           | (Raise e, t') => (Raise e, t')
           end.

(** A pure numpy computation inside an engine computation. *)
Definition lift {A} (r : PyResult A) : Eng A := fun t => (r, t).

(** A call into the engine: logged, then its outcome. *)
Definition call {A} (ev : Event) (r : PyResult A) : Eng A :=
  fun t => (r, t ++ [ev]).

Declare Scope eng_scope.
Delimit Scope eng_scope with eng.
Notation "x <- m ;; k" := (bind m (fun x => k))
  (at level 61, m at next level, right associativity) : eng_scope.
Notation "' p <- m ;; k" := (bind m (fun x => let p := x in k))
  (at level 61, p pattern, m at next level, right associativity) : eng_scope.

(** [for x in xs: s = body(x, s)] with engine calls in the body. *)
Fixpoint efor {A S} (xs : list A) (body : A -> S -> Eng S) (s : S) : Eng S :=
  match xs with
  | [] => ret s
  | x :: xs' => bind (body x s) (efor xs' body)
  end.

Section EngineInterface.
Context {R : Type} {SR : Scalar R}.

Record Engine : Type := {
  Ciphertext : Type;
  Plaintext : Type;
  (* CKKSEncoder *)
  slot_count : nat;
  encode : list R -> Q -> PyResult Plaintext;
  decode : Plaintext -> PyResult (list R);
  (* Encryptor, Decryptor *)
  encrypt : Plaintext -> PyResult Ciphertext;
  decrypt : Ciphertext -> PyResult Plaintext;
  (* Ciphertext accessors *)
  scale : Ciphertext -> Q;
  parms_id : Ciphertext -> nat;
  set_scale : Ciphertext -> Q -> Ciphertext;
  (* Evaluator *)
  mod_switch_to_plain : Plaintext -> nat -> PyResult Plaintext;
  mod_switch_to : Ciphertext -> nat -> PyResult Ciphertext;
  rotate_vector : Ciphertext -> nat -> GaloisKeys -> PyResult Ciphertext;
  multiply_plain : Ciphertext -> Plaintext -> PyResult Ciphertext;
  multiply : Ciphertext -> Ciphertext -> PyResult Ciphertext;
  add : Ciphertext -> Ciphertext -> PyResult Ciphertext;
  add_many : list Ciphertext -> PyResult Ciphertext;
  relinearize : Ciphertext -> RelinKeys -> PyResult Ciphertext;
  rescale_to_next : Ciphertext -> PyResult Ciphertext
}.

(** *** Slot arithmetic shared by the engine models *)

(** Modelled from the spec: the payload of the engine models, a vector of
    [n] slots in which a missing slot reads as zero; slotwise sum and
    product, and the cyclic rotation by [l] slots. *)
Definition slots_pad (n : nat) (v : list R) : list R :=
  map (fun i => nth i v r0) (seq 0 n).
Definition slots_add (n : nat) (a b : list R) : list R :=
  map (fun i => radd (nth i a r0) (nth i b r0)) (seq 0 n).
Definition slots_mul (n : nat) (a b : list R) : list R :=
  map (fun i => rmul (nth i a r0) (nth i b r0)) (seq 0 n).
Definition slots_rot (n : nat) (l : nat) (a : list R) : list R :=
  map (fun i => nth ((i + l) mod n) a r0) (seq 0 n).

(** *** The leveled engine *)

(** Modelled from the spec: the parameters of a context, namely the slot
    capacity, the top of the one-directional modulus chain, and the modulus
    dropped when leaving each level. *)
Record Context : Type := {
  ctx_slot_count : nat;
  ctx_top_level : nat;
  ctx_modulus : nat -> Q
}.

(** Modelled from the spec: a ciphertext is a payload tagged with a scale
    and a level (its position in the chain); its size grows under
    multiplication. *)
Record MCiphertext : Type := {
  ct_slots : list R;
  ct_scale : Q;
  ct_level : nat;
  ct_size : nat
}.

(** Modelled from the spec: a plaintext is an encoded payload that carries
    scale and level for alignment against ciphertexts. *)
Record MPlaintext : Type := {
  pt_slots : list R;
  pt_scale : Q;
  pt_level : nat
}.

(** Modelled from the spec: the failure of an operation whose operands
    differ in level or scale. *)
Definition LevelMismatchError : PyExc :=
  ValueError "operands differ in level or scale".

Section Leveled.
Variable ctx : Context.
Let n := ctx_slot_count ctx.

(** Modelled from the spec: [encode(vector, scale)] gives a plaintext at the
    engine's top level; the vector fills the slots, padded with zeros. *)
Definition m_encode (v : list R) (s : Q) : PyResult MPlaintext :=
  Ok {| pt_slots := slots_pad n v; pt_scale := s;
        pt_level := ctx_top_level ctx |}.

(** Modelled from the spec: [decode(plaintext)] gives back the slot vector. *)
Definition m_decode (p : MPlaintext) : PyResult (list R) :=
  Ok (slots_pad n (pt_slots p)).

(** Modelled from the spec: [encrypt(plaintext)] gives a ciphertext of the
    same payload, scale and level, of minimal size. *)
Definition m_encrypt (p : MPlaintext) : PyResult MCiphertext :=
  Ok {| ct_slots := pt_slots p; ct_scale := pt_scale p;
        ct_level := pt_level p; ct_size := 2 |}.

(** Modelled from the spec: [decrypt(ciphertext)] gives the plaintext of the
    same payload, scale and level. *)
Definition m_decrypt (c : MCiphertext) : PyResult MPlaintext :=
  Ok {| pt_slots := ct_slots c; pt_scale := ct_scale c;
        pt_level := ct_level c |}.

(** Modelled from the spec: [setScale] overrides the scale and nothing
    else. *)
Definition m_set_scale (c : MCiphertext) (s : Q) : MCiphertext :=
  {| ct_slots := ct_slots c; ct_scale := s;
     ct_level := ct_level c; ct_size := ct_size c |}.

(** Modelled from the spec: [modSwitch] on a plaintext lowers the level to
    the target, never raises it, and keeps the scale. *)
Definition m_mod_switch_to_plain (p : MPlaintext) (target : nat)
  : PyResult MPlaintext :=
  if target <=? pt_level p
  then Ok {| pt_slots := pt_slots p; pt_scale := pt_scale p;
             pt_level := target |}
  else Raise (ValueError "cannot switch to higher level modulus").

(** Modelled from the spec: [modSwitch] on a ciphertext lowers the level to
    the target, never raises it, and keeps the scale. *)
Definition m_mod_switch_to (c : MCiphertext) (target : nat)
  : PyResult MCiphertext :=
  if target <=? ct_level c
  then Ok {| ct_slots := ct_slots c; ct_scale := ct_scale c;
             ct_level := target; ct_size := ct_size c |}
  else Raise (ValueError "cannot switch to higher level modulus").

(** Modelled from the spec: [rotate] shifts the slots cyclically by [steps]
    and keeps level and scale. *)
Definition m_rotate_vector (c : MCiphertext) (steps : nat) (_ : GaloisKeys)
  : PyResult MCiphertext :=
  Ok {| ct_slots := slots_rot n steps (ct_slots c); ct_scale := ct_scale c;
        ct_level := ct_level c; ct_size := ct_size c |}.

(** Modelled from the spec: [multiplyPlain] multiplies the scales, keeps the
    level and the size; the plaintext has to sit at the ciphertext's level
    (the reason for the mod-switch of source line 73). *)
Definition m_multiply_plain (c : MCiphertext) (p : MPlaintext)
  : PyResult MCiphertext :=
  if ct_level c =? pt_level p
  then Ok {| ct_slots := slots_mul n (ct_slots c) (pt_slots p);
             ct_scale := Qmult (ct_scale c) (pt_scale p);
             ct_level := ct_level c; ct_size := ct_size c |}
  else Raise LevelMismatchError.

(** Modelled from the spec: [multiply] multiplies the scales, keeps the
    level (the operands share it) and grows the size. *)
Definition m_multiply (a b : MCiphertext) : PyResult MCiphertext :=
  if ct_level a =? ct_level b
  then Ok {| ct_slots := slots_mul n (ct_slots a) (ct_slots b);
             ct_scale := Qmult (ct_scale a) (ct_scale b);
             ct_level := ct_level a;
             ct_size := ct_size a + ct_size b - 1 |}
  else Raise LevelMismatchError.

(** Modelled from the spec: [add] requires equal level and equal scale on
    both operands and fails otherwise. *)
Definition m_add (a b : MCiphertext) : PyResult MCiphertext :=
  if (ct_level a =? ct_level b) && Qeq_bool (ct_scale a) (ct_scale b)
  then Ok {| ct_slots := slots_add n (ct_slots a) (ct_slots b);
             ct_scale := ct_scale a; ct_level := ct_level a;
             ct_size := max (ct_size a) (ct_size b) |}
  else Raise LevelMismatchError.

(** Modelled from the spec: the homomorphic sum of a vector of ciphertexts,
    by [add] from the first one on; there is nothing to return for an empty
    vector. *)
Definition m_add_many (cs : list MCiphertext) : PyResult MCiphertext :=
  match cs with
  | [] => Raise (ValueError "encrypteds cannot be empty")
  | c :: cs' => pfor cs' (fun x acc => m_add acc x) c
  end.

(** Modelled from the spec: [relinearize] restores the minimal size and
    keeps scale and level. *)
Definition m_relinearize (c : MCiphertext) (_ : RelinKeys)
  : PyResult MCiphertext :=
  Ok {| ct_slots := ct_slots c; ct_scale := ct_scale c;
        ct_level := ct_level c; ct_size := 2 |}.

(** Modelled from the spec: [rescale] lowers the level by one and divides
    the scale by the dropped modulus; at the end of the chain it fails. *)
Definition m_rescale_to_next (c : MCiphertext) : PyResult MCiphertext :=
  match ct_level c with
  | O => Raise (ValueError "end of modulus switching chain reached")
  | S l' => Ok {| ct_slots := ct_slots c;
                  ct_scale := Qdiv (ct_scale c) (ctx_modulus ctx (ct_level c));
                  ct_level := l'; ct_size := ct_size c |}
  end.

(** Modelled from the spec: the leveled engine behind the python binding
    (the native evaluator, encoder, encryptor and decryptor are not part
    of the example).  The contracts are those of the external interface:
    [encode] yields a plaintext at the top level; [add] requires equal
    level and equal scale; [multiply] and [multiply_plain] multiply the
    scales and keep the level, [multiply] grows the size;
    [relinearize] restores the minimal size; [rescale] goes down one
    level and divides the scale by the dropped modulus; [mod_switch]
    goes down, never up, to the target level and keeps the scale;
    [rotate] keeps level and scale; [set_scale] overrides the scale
    only.  The payload is the slot vector itself.  A sum needs a
    ciphertext to start from, so [add_many] of no ciphertexts fails, and
    the multiplications expect operands of one level. *)
Definition LeveledEngine : Engine :=
  {| Ciphertext := MCiphertext;
     Plaintext := MPlaintext;
     slot_count := n;
     encode := m_encode;
     decode := m_decode;
     encrypt := m_encrypt;
     decrypt := m_decrypt;
     scale := ct_scale;
     parms_id := ct_level;
     set_scale := m_set_scale;
     mod_switch_to_plain := m_mod_switch_to_plain;
     mod_switch_to := m_mod_switch_to;
     rotate_vector := m_rotate_vector;
     multiply_plain := m_multiply_plain;
     multiply := m_multiply;
     add := m_add;
     add_many := m_add_many;
     relinearize := m_relinearize;
     rescale_to_next := m_rescale_to_next |}.
End Leveled.

(** Modelled from the spec: the unencrypted simulation of the same
    arithmetic.  Ciphertexts and plaintexts are bare slot vectors, there
    is no scale and no level to track, every operation is total, and the
    sum of no vectors is the zero vector. *)
Definition PlainEngine (n : nat) : Engine :=
  {| Ciphertext := list R;
     Plaintext := list R;
     slot_count := n;
     encode := fun v _ => Ok (slots_pad n v);
     decode := fun p => Ok (slots_pad n p);
     encrypt := fun p => Ok p;
     decrypt := fun c => Ok c;
     scale := fun _ => 1%Q;
     parms_id := fun _ => 0;
     set_scale := fun c _ => c;
     mod_switch_to_plain := fun p _ => Ok p;
     mod_switch_to := fun c _ => Ok c;
     rotate_vector := fun c l _ => Ok (slots_rot n l c);
     multiply_plain := fun c p => Ok (slots_mul n c p);
     multiply := fun a b => Ok (slots_mul n a b);
     add := fun a b => Ok (slots_add n a b);
     add_many := fun cs => Ok (fold_left (slots_add n) cs (np_zeros n));
     relinearize := fun c _ => Ok c;
     rescale_to_next := fun c => Ok c |}.

End EngineInterface.

Arguments Engine R : clear implicits.
Arguments Context : clear implicits.
Arguments MCiphertext R : clear implicits.
Arguments MPlaintext R : clear implicits.

(** ** The example's functions *)

Section Example.
Context {R : Type} {SR : Scalar R}.

(** *** Permutation generators (source lines 86-114) *)

(** [itertools.product(range(d), range(d))]. *)
Definition index_pairs (d : nat) : list (nat * nat) :=
  list_prod (seq 0 d) (seq 0 d).

(** [np.zeros(n*n).reshape(n,n)] followed by the loop that sets
    [P[d*i+j, target i j] = 1.0] for every pair [(i, j)]. *)
Definition permutation_base (d : nat) (target : nat -> nat -> nat)
  : PyResult (ndarray R) :=
  let n := d * d in
  pbind (np_reshape (np_zeros (n * n)) n n) (fun P0 =>
  pfor (index_pairs d)
       (fun ij P => np_setitem P (d * fst ij + snd ij) (target (fst ij) (snd ij)) r1)
       P0).

Definition sigma_target (d i j : nat) : nat := d * i + ((i + j) mod d).
Definition tau_target (d i j : nat) : nat := d * ((i + j) mod d) + j.
Definition phi_target (k d i j : nat) : nat := d * i + ((j + k) mod d).
Definition psi_target (k d i j : nat) : nat := d * ((i + k) mod d) + j.

(** Whether the loop iteration for the pair [ij] writes entry [(r, c)]. *)
Definition hits (d : nat) (target : nat -> nat -> nat) (r c : nat)
    (ij : nat * nat) : bool :=
  (r =? d * fst ij + snd ij) && (c =? target (fst ij) (snd ij)).

(** A one at [(d*i+j, target i j)] for every [i, j < d] and a zero
    elsewhere, over the rows and columns below [d*d] and [lim]. *)
Definition permutation_block (P : ndarray R) (d : nat)
    (target : nat -> nat -> nat) (lim : nat) : Prop :=
  forall r c, r < d * d -> c < d * d -> r < lim -> c < lim ->
    (get P r c = r1 \/ get P r c = r0) /\
    (get P r c = r1 <->
     exists i j, i < d /\ j < d /\ r = d * i + j /\ c = target i j).

(** [np.kron(np.eye(2), P)[0:nmax, 0:nmax]]: two copies of [P] on the
    diagonal of a matrix twice the size, cut to at most [nmax] rows and
    columns. *)
Definition duplicated_truncated (P : ndarray R) (nmax : nat) : ndarray R :=
  np_slice (np_kron (np_eye 2) P) nmax nmax.

Definition sigma_permutation (d nmax : nat) : PyResult (ndarray R) :=
  pbind (permutation_base d (sigma_target d)) (fun Usigma =>
  let output := np_kron (np_eye 2) Usigma in
  Ok (np_slice output nmax nmax)).

Definition tau_permutation (d nmax : nat) : PyResult (ndarray R) :=
  pbind (permutation_base d (tau_target d)) (fun Utau =>
  let output := np_kron (np_eye 2) Utau in
  Ok (np_slice output nmax nmax)).

Definition phi_permutation_k (k d nmax : nat) : PyResult (ndarray R) :=
  pbind (permutation_base d (phi_target k d)) (fun Vk => Ok Vk).

Definition psi_permutation_k (k d nmax : nat) : PyResult (ndarray R) :=
  pbind (permutation_base d (psi_target k d)) (fun Wk => Ok Wk).

(** *** The linear-transform evaluator (source lines 23-83) *)
Section Evaluators.
Variable E : Engine R.

(** [np.abs(ul_vec_np).sum() == 0] (line 64). *)
Definition is_zero_diagonal (ul_vec_np : list R) : bool :=
  reqb (np_sum (np_abs ul_vec_np)) r0.

(** Lines 66-77: encode the diagonal at [scale], bring the plaintext to
    [parms_id], rotate [ct] by [l] and multiply. *)
Definition lin_trans_term (ct : Ciphertext E) (gal_keys : GaloisKeys)
    (scale : Q) (parms_id : nat) (l : nat) (ul_vec : list R)
  : Eng (Ciphertext E) :=
  (ul <- call (EvEncode (length ul_vec)) (encode E ul_vec scale) ;;
   ul <- call (EvModSwitchPlain parms_id) (mod_switch_to_plain E ul parms_id) ;;
   ct_l <- call (EvRotate l) (rotate_vector E ct l gal_keys) ;;
   call EvMultiplyPlain (multiply_plain E ct_l ul))%eng.

(** One iteration of the loop of lines 62-77. *)
Definition lin_trans_step (U : ndarray R) (ct : Ciphertext E)
    (gal_keys : GaloisKeys) (scale : Q) (parms_id : nat)
    (l : nat) (acc : list (Ciphertext E)) : Eng (list (Ciphertext E)) :=
  (ul_vec_np <- lift (diag_repr U (Z.of_nat l)) ;;
   if is_zero_diagonal ul_vec_np then ret acc
   else
     ct_l <- lin_trans_term ct gal_keys scale parms_id l ul_vec_np ;;
     ret (acc ++ [ct_l]))%eng.

(** Lines 78-83: sum the terms, then relinearize and rescale when
    relinearization keys were given. *)
Definition lin_trans_finish (acc : list (Ciphertext E))
    (relin_keys : option RelinKeys) : Eng (Ciphertext E) :=
  (out <- call (EvAddMany (length acc)) (add_many E acc) ;;
   match relin_keys with
   | Some rk =>
       out <- call EvRelinearize (relinearize E out rk) ;;
       call EvRescale (rescale_to_next E out)
   | None => ret out
   end)%eng.

Definition lin_trans (U : ndarray R) (ct : Ciphertext E)
    (gal_keys : GaloisKeys) (relin_keys : option RelinKeys)
  : Eng (Ciphertext E) :=
  let '(M, N) := shape U in
  if negb (N =? M) then
    raise (Exception "lin_trans only works for square matrices")
  else
    let scale := scale E ct in
    let parms_id := parms_id E ct in
    (acc <- efor (seq 0 N) (lin_trans_step U ct gal_keys scale parms_id) [] ;;
     lin_trans_finish acc relin_keys)%eng.

(** The full computation, for comparison: the same loop with no offset
    skipped. *)
Definition lin_trans_step_unskipped (U : ndarray R) (ct : Ciphertext E)
    (gal_keys : GaloisKeys) (scale : Q) (parms_id : nat)
    (l : nat) (acc : list (Ciphertext E)) : Eng (list (Ciphertext E)) :=
  (ul_vec_np <- lift (diag_repr U (Z.of_nat l)) ;;
   ct_l <- lin_trans_term ct gal_keys scale parms_id l ul_vec_np ;;
   ret (acc ++ [ct_l]))%eng.

Definition lin_trans_unskipped (U : ndarray R) (ct : Ciphertext E)
    (gal_keys : GaloisKeys) (relin_keys : option RelinKeys)
  : Eng (Ciphertext E) :=
  let '(M, N) := shape U in
  if negb (N =? M) then
    raise (Exception "lin_trans only works for square matrices")
  else
    let scale := scale E ct in
    let parms_id := parms_id E ct in
    (acc <- efor (seq 0 N)
              (lin_trans_step_unskipped U ct gal_keys scale parms_id) [] ;;
     lin_trans_finish acc relin_keys)%eng.

(** *** The matrix-product evaluator (source lines 116-158) *)

Definition cA_x_cB (A B : Ciphertext E) (relin_keys : RelinKeys)
  : Eng (Ciphertext E) :=
  (C <- call EvMultiply (multiply E A B) ;;
   C <- call EvRelinearize (relinearize E C relin_keys) ;;
   call EvRescale (rescale_to_next E C))%eng.

(** Lines 136-139: the first-stage transforms [ct_A0] and [ct_B0]. *)
Definition cA_dot_cB_first_stage (ct_A ct_B : Ciphertext E)
    (gal_keys : GaloisKeys) (relin_keys : RelinKeys) (d nmax : nat)
  : Eng (Ciphertext E * Ciphertext E) :=
  (Usigma <- lift (sigma_permutation d nmax) ;;
   Utau <- lift (tau_permutation d nmax) ;;
   ct_A0 <- lin_trans Usigma ct_A gal_keys (Some relin_keys) ;;
   ct_B0 <- lin_trans Utau ct_B gal_keys (Some relin_keys) ;;
   ret (ct_A0, ct_B0))%eng.

(** [Vk.sum() == 0 or Wk.sum() == 0] (line 145). *)
Definition is_empty_permutation (Vk Wk : ndarray R) : bool :=
  reqb (np_sum (data Vk)) r0 || reqb (np_sum (data Wk)) r0.

(** One iteration of the loop of lines 142-149; the state is the pair
    of vectors [ct_Ak], [ct_Bk]. *)
Definition cA_dot_cB_shift_step (ct_A0 ct_B0 : Ciphertext E)
    (gal_keys : GaloisKeys) (relin_keys : RelinKeys) (d nmax : nat)
    (k : nat) (st : list (Ciphertext E) * list (Ciphertext E))
  : Eng (list (Ciphertext E) * list (Ciphertext E)) :=
  (Vk <- lift (phi_permutation_k k d nmax) ;;
   Wk <- lift (psi_permutation_k k d nmax) ;;
   if is_empty_permutation Vk Wk then ret st
   else
     a <- lin_trans Vk ct_A0 gal_keys (Some relin_keys) ;;
     b <- lin_trans Wk ct_B0 gal_keys (Some relin_keys) ;;
     ret (fst st ++ [a], snd st ++ [b]))%eng.

(** Lines 153-157 for one term: multiply, bring [ct_AB] to the term's
    [parms_id], copy [ct_AB]'s scale onto the term, add. *)
Definition cA_dot_cB_accumulate (relin_keys : RelinKeys)
    (ct_AB ct_Ak_k ct_Bk_k : Ciphertext E) : Eng (Ciphertext E) :=
  (ct_ABk <- cA_x_cB ct_Ak_k ct_Bk_k relin_keys ;;
   let parms_id := parms_id E ct_ABk in
   ct_AB <- call (EvModSwitch parms_id) (mod_switch_to E ct_AB parms_id) ;;
   let ct_ABk := set_scale E ct_ABk (scale E ct_AB) in
   call EvAdd (add E ct_AB ct_ABk))%eng.

(** [v[k]] on a vector of ciphertexts. *)
Definition vector_getitem (v : list (Ciphertext E)) (k : nat)
  : PyResult (Ciphertext E) :=
  match nth_error v k with
  | Some c => Ok c
  | None => Raise (IndexError "vector index out of range")
  end.

(** One iteration of the loop of lines 152-157. *)
Definition cA_dot_cB_accumulate_step (relin_keys : RelinKeys)
    (ct_Ak ct_Bk : list (Ciphertext E)) (k : nat) (ct_AB : Ciphertext E)
  : Eng (Ciphertext E) :=
  (a <- lift (vector_getitem ct_Ak k) ;;
   b <- lift (vector_getitem ct_Bk k) ;;
   cA_dot_cB_accumulate relin_keys ct_AB a b)%eng.

(** [n > nmax/2] (line 134), with [/] the true division of Python 3. *)
Definition exceeds_half_capacity (n nmax : nat) : bool := nmax <? 2 * n.

Definition cA_dot_cB (ct_A ct_B : Ciphertext E) (gal_keys : GaloisKeys)
    (relin_keys : RelinKeys) (d : nat) : Eng (Ciphertext E) :=
  let nmax := slot_count E in
  let n := d * d in
  if exceeds_half_capacity n nmax then
    (* [raise("...")]: a str is not an exception *)
    raise (TypeError "exceptions must derive from BaseException")
  else
    (AB0 <- cA_dot_cB_first_stage ct_A ct_B gal_keys relin_keys d nmax ;;
     let ct_A0 := fst AB0 in
     let ct_B0 := snd AB0 in
     ABk <- efor (seq 1 (d - 1))
              (cA_dot_cB_shift_step ct_A0 ct_B0 gal_keys relin_keys d nmax)
              ([], []) ;;
     let ct_Ak := fst ABk in
     let ct_Bk := snd ABk in
     ct_AB <- cA_x_cB ct_A0 ct_B0 relin_keys ;;
     efor (seq 0 (length ct_Ak))
          (cA_dot_cB_accumulate_step relin_keys ct_Ak ct_Bk) ct_AB)%eng.

(** The full computation, for comparison: no step [k] is skipped. *)
Definition cA_dot_cB_shift_step_unskipped (ct_A0 ct_B0 : Ciphertext E)
    (gal_keys : GaloisKeys) (relin_keys : RelinKeys) (d nmax : nat)
    (k : nat) (st : list (Ciphertext E) * list (Ciphertext E))
  : Eng (list (Ciphertext E) * list (Ciphertext E)) :=
  (Vk <- lift (phi_permutation_k k d nmax) ;;
   Wk <- lift (psi_permutation_k k d nmax) ;;
   a <- lin_trans Vk ct_A0 gal_keys (Some relin_keys) ;;
   b <- lin_trans Wk ct_B0 gal_keys (Some relin_keys) ;;
   ret (fst st ++ [a], snd st ++ [b]))%eng.

Definition cA_dot_cB_unskipped (ct_A ct_B : Ciphertext E)
    (gal_keys : GaloisKeys) (relin_keys : RelinKeys) (d : nat)
  : Eng (Ciphertext E) :=
  let nmax := slot_count E in
  let n := d * d in
  if exceeds_half_capacity n nmax then
    raise (TypeError "exceptions must derive from BaseException")
  else
    (AB0 <- cA_dot_cB_first_stage ct_A ct_B gal_keys relin_keys d nmax ;;
     let ct_A0 := fst AB0 in
     let ct_B0 := snd AB0 in
     ABk <- efor (seq 1 (d - 1))
              (cA_dot_cB_shift_step_unskipped ct_A0 ct_B0 gal_keys
                 relin_keys d nmax)
              ([], []) ;;
     let ct_Ak := fst ABk in
     let ct_Bk := snd ABk in
     ct_AB <- cA_x_cB ct_A0 ct_B0 relin_keys ;;
     efor (seq 0 (length ct_Ak))
          (cA_dot_cB_accumulate_step relin_keys ct_Ak ct_Bk) ct_AB)%eng.

(** *** Packing adapters (source lines 161-177) *)

(** [int(Nmax/N/M)]: true divisions, then truncation. *)
Definition tile_count (Nmax N M : nat) : PyResult nat :=
  if N =? 0 then Raise ZeroDivisionError
  else if M =? 0 then Raise ZeroDivisionError
  else Ok (Nmax / N / M).

(** [l * k] on Python lists. *)
Definition list_times (l : list R) (k : nat) : list R :=
  concat (repeat l k).

Definition encrypt_array (matrix : ndarray R) (scale : Q)
  : Eng (Ciphertext E) :=
  let '(M, N) := shape matrix in
  let Nmax := slot_count E in
  (reps <- lift (tile_count Nmax N M) ;;
   let values := list_times (flatten matrix) reps in
   plain <- call (EvEncode (length values)) (encode E values scale) ;;
   call EvEncrypt (encrypt E plain))%eng.

Definition decrypt_array (cipher : Ciphertext E) (M N : nat)
  : Eng (ndarray R) :=
  (plain <- call EvDecrypt (decrypt E cipher) ;;
   vec <- call EvDecode (decode E plain) ;;
   lift (np_reshape (firstn (M * N) vec) M N))%eng.

(** The engine's own round trip, up to the precision relation [close]:
    a vector that fits the slots comes back from encode, encrypt,
    decrypt, decode as a full slot vector whose leading entries are
    [close] to it. *)
Definition engine_roundtrip (close : R -> R -> Prop) : Prop :=
  forall (v : list R) (s : Q), length v <= slot_count E ->
  exists p c p' w,
    encode E v s = Ok p /\ encrypt E p = Ok c /\
    decrypt E c = Ok p' /\ decode E p' = Ok w /\
    length w = slot_count E /\
    forall i, i < length v -> close (nth i v r0) (nth i w r0).

End Evaluators.
End Example.

(** ** What the linear transform builds on the leveled engine *)

Section LeveledTerms.
Context {R : Type} {SR : Scalar R}.
Variable ctx : Context.
Variable ct : MCiphertext R.

(** What every term of the sum carries: the level and size of [ct] and
    the square of its scale. *)
Definition term_meta (c : MCiphertext R) : Prop :=
  ct_level c = ct_level ct /\
  ct_scale c = Qmult (ct_scale ct) (ct_scale ct) /\
  ct_size c = ct_size ct.

(** The ciphertext of the term of offset [l] for the diagonal [u]. *)
Definition leveled_term (l : nat) (u : list R) : MCiphertext R :=
  {| ct_slots := slots_mul (ctx_slot_count ctx)
                   (slots_rot (ctx_slot_count ctx) l (ct_slots ct))
                   (slots_pad (ctx_slot_count ctx) u);
     ct_scale := Qmult (ct_scale ct) (ct_scale ct);
     ct_level := ct_level ct;
     ct_size := ct_size ct |}.

(** The ciphertext that sums the slot vectors of [acc]. *)
Definition leveled_total (acc : list (MCiphertext R)) : MCiphertext R :=
  {| ct_slots := fold_left (slots_add (ctx_slot_count ctx))
                   (map (@ct_slots R) acc) (np_zeros (ctx_slot_count ctx));
     ct_scale := Qmult (ct_scale ct) (ct_scale ct);
     ct_level := ct_level ct;
     ct_size := ct_size ct |}.

End LeveledTerms.

(** ** Concrete inputs used by the examples below *)

(** The 3-by-3 matrix [[1,2,3],[4,5,6],[7,8,9]] and a 2-by-3 matrix. *)
Definition U3_example : ndarray Z :=
  {| shape := (3, 3); data := [1; 2; 3; 4; 5; 6; 7; 8; 9]%Z |}.
Definition U23_example : ndarray Z :=
  {| shape := (2, 3); data := [1; 2; 3; 4; 5; 6]%Z |}.
Definition m3_example : list Z := [10; 20; 30]%Z.

(** The all-zero 2-by-2 matrix, a context with 8 slots and a modulus chain
    of three 1000-sized moduli, and ciphertexts of the two 2-by-2 matrices
    [[1,2],[3,4]] and [[5,6],[7,8]], tiled, at scale 1024. *)
Definition zero2_example : ndarray Z :=
  {| shape := (2, 2); data := [0; 0; 0; 0]%Z |}.
Definition ctx_example : Context :=
  {| ctx_slot_count := 8; ctx_top_level := 3;
     ctx_modulus := fun _ => (1000 # 1)%Q |}.
Definition ctA_example : MCiphertext Z :=
  {| ct_slots := [1; 2; 3; 4; 1; 2; 3; 4]%Z; ct_scale := (1024 # 1)%Q;
     ct_level := 3; ct_size := 2 |}.
Definition ctB_example : MCiphertext Z :=
  {| ct_slots := [5; 6; 7; 8; 5; 6; 7; 8]%Z; ct_scale := (1024 # 1)%Q;
     ct_level := 3; ct_size := 2 |}.

(** An accumulator at level 2 and a pair of shifted operands at level 2,
    all at scale 1024, as they meet in the accumulation loop. *)
Definition ctAB_example : MCiphertext Z :=
  {| ct_slots := [5; 12; 21; 32; 5; 12; 21; 32]%Z; ct_scale := (1024 # 1)%Q;
     ct_level := 2; ct_size := 2 |}.
Definition ctAk_example : MCiphertext Z :=
  {| ct_slots := [2; 1; 4; 3; 2; 1; 4; 3]%Z; ct_scale := (1024 # 1)%Q;
     ct_level := 2; ct_size := 2 |}.
Definition ctBk_example : MCiphertext Z :=
  {| ct_slots := [7; 8; 5; 6; 7; 8; 5; 6]%Z; ct_scale := (1024 # 1)%Q;
     ct_level := 2; ct_size := 2 |}.

(** The 2-by-2 matrix [[1,2],[3,4]] and the empty 0-by-0 matrix. *)
Definition M22_example : ndarray Z :=
  {| shape := (2, 2); data := [1; 2; 3; 4]%Z |}.
Definition empty_example : ndarray Z :=
  {| shape := (0, 0); data := [] |}.

(** ** Values the evaluators compute *)

Section Values.
Context {R : Type} {SR : Scalar R}.

(** [A.dot(B)] for two 2-D arrays (source lines 219 and 259 compute the
    expected results with it). *)
Definition np_matmul (A B : ndarray R) : ndarray R :=
  tabulate (nrows A) (ncols B)
    (fun i j => np_sum (map (fun t => rmul (get A i t) (get B t j))
                            (seq 0 (ncols A)))).

(** The slot vector [lin_trans] builds from the slots [m] of its input on
    an engine with [n] slots: the sum over all offsets [l] of the rotated
    slots times the padded diagonal of offset [l]. *)
Definition lin_trans_slots (n : nat) (U : ndarray R) (m : list R) : list R :=
  fold_left (slots_add n)
    (map (fun l => slots_mul n (slots_rot n l m)
                     (slots_pad n (cyclic_diagonal U (nrows U) l)))
         (seq 0 (nrows U)))
    (np_zeros n).

(** The [n] slots [m], read cyclically, repeat the vector [a] over four
    windows of its length: as far as the rotations of the first stage of
    the matrix product reach. *)
Definition tiled (n : nat) (a m : list R) : Prop :=
  forall y, y < 4 * length a ->
    nth (y mod n) m r0 = nth (y mod (length a)) a r0.

(** What [lin_trans] with relinearization keys returns for the matrix [U]
    and the ciphertext [c] on the leveled engine: the transformed slots,
    one level down, at the squared scale divided by the dropped modulus. *)
Definition transformed (ctx : Context) (U : ndarray R) (c : MCiphertext R)
  : MCiphertext R :=
  {| ct_slots := lin_trans_slots (ctx_slot_count ctx) U (ct_slots c);
     ct_scale := Qdiv (Qmult (ct_scale c) (ct_scale c))
                      (ctx_modulus ctx (ct_level c));
     ct_level := pred (ct_level c);
     ct_size := 2 |}.

(** What [cA_x_cB] returns for [a] and [b] on the leveled engine: the
    slotwise product, one level down, at the product of the scales divided
    by the dropped modulus. *)
Definition multiplied (ctx : Context) (a b : MCiphertext R) : MCiphertext R :=
  {| ct_slots := slots_mul (ctx_slot_count ctx) (ct_slots a) (ct_slots b);
     ct_scale := Qdiv (Qmult (ct_scale a) (ct_scale b))
                      (ctx_modulus ctx (ct_level a));
     ct_level := pred (ct_level a);
     ct_size := 2 |}.

(** The base matrix a generator builds (the generators never raise). *)
Definition base_matrix (d : nat) (target : nat -> nat -> nat) : ndarray R :=
  match permutation_base d target with
  | Ok P => P
  | Raise _ => {| shape := (0, 0); data := [] |}
  end.

(** The map on flat indices [d*i+j] that a generator's closed form gives. *)
Definition flat_target (d : nat) (target : nat -> nat -> nat) (r : nat) : nat :=
  target (r / d) (r mod d).

(** [p] maps the indices below [N] one-to-one onto themselves. *)
Definition bijective_below (N : nat) (p : nat -> nat) : Prop :=
  (forall r, r < N -> p r < N) /\
  (forall r r', r < N -> r' < N -> p r = p r' -> r = r') /\
  (forall c, c < N -> exists r, r < N /\ p r = c).

(** [U] is an [N]-by-[N] permutation matrix: entries 0 or 1, exactly one 1
    in every row and in every column. *)
Definition permutation_matrix (U : ndarray R) (N : nat) : Prop :=
  shape U = (N, N) /\
  (forall r c, r < N -> c < N -> get U r c = r0 \/ get U r c = r1) /\
  (forall r, r < N ->
     exists c, c < N /\ get U r c = r1 /\
               forall c', c' < N -> get U r c' = r1 -> c' = c) /\
  (forall c, c < N ->
     exists r, r < N /\ get U r c = r1 /\
               forall r', r' < N -> get U r' c = r1 -> r' = r).

(** What [cA_dot_cB] returns for [ct_A], [ct_B] and size [d] on the leveled
    engine: the product of the two first-stage ciphertexts plus, for every
    [k] in [range(1, d)], the product of their [k]-th shifts; the scale is
    the one of the first product, the level the one of the last term. *)
Definition accumulated (ctx : Context) (d : nat) (ct_A ct_B : MCiphertext R)
  : MCiphertext R :=
  let n := ctx_slot_count ctx in
  let ct_A0 :=
    transformed ctx (duplicated_truncated (base_matrix d (sigma_target d)) n)
      ct_A in
  let ct_B0 :=
    transformed ctx (duplicated_truncated (base_matrix d (tau_target d)) n)
      ct_B in
  let ct_AB := multiplied ctx ct_A0 ct_B0 in
  {| ct_slots :=
       fold_left
         (fun s k =>
            slots_add n s
              (slots_mul n
                 (ct_slots (transformed ctx (base_matrix d (phi_target k d))
                              ct_A0))
                 (ct_slots (transformed ctx (base_matrix d (psi_target k d))
                              ct_B0))))
         (seq 1 (d - 1)) (ct_slots ct_AB);
     ct_scale := ct_scale ct_AB;
     ct_level := if d =? 1 then ct_level ct_AB else pred (ct_level ct_AB);
     ct_size := 2 |}.

End Values.

(** ** The pipelines of the two examples *)

Section Pipelines.
Context {R : Type} {SR : Scalar R}.
Variable E : Engine R.

(** Source lines 218, 221 and 222 of
    [example_plain_square_matrix_cipher_vector_multiplication], for any
    matrix [U], column vector [m] and size [N] in place of the ones the
    example fixes: pack and encrypt [m], apply [U], decrypt and unpack
    [N] rows of one column. *)
Definition example_matvec (U m : ndarray R) (scale : Q) (gal_keys : GaloisKeys)
    (relin_keys : RelinKeys) (N : nat) : Eng (ndarray R) :=
  (cm <- encrypt_array E m scale ;;
   Um_enc <- lin_trans E U cm gal_keys (Some relin_keys) ;;
   decrypt_array E Um_enc N 1)%eng.

(** Source lines 261-264 of [example_cipher_square_matrices_multiplication],
    for any matrices [A], [B] and size [N]: pack and encrypt both, multiply,
    decrypt and unpack an N-by-N matrix. *)
Definition example_matmul (A B : ndarray R) (scale : Q) (gal_keys : GaloisKeys)
    (relin_keys : RelinKeys) (N : nat) : Eng (ndarray R) :=
  (A_enc <- encrypt_array E A scale ;;
   B_enc <- encrypt_array E B scale ;;
   C_enc <- cA_dot_cB E A_enc B_enc gal_keys relin_keys N ;;
   decrypt_array E C_enc N N)%eng.

End Pipelines.

(** Small inputs for the two pipelines: the column vector [[10],[20],[30]]
    and the 2-by-2 matrices [[1,2],[3,4]] and [[5,6],[7,8]]. *)
Definition m31_example : ndarray Z :=
  {| shape := (3, 1); data := [10; 20; 30]%Z |}.
Definition A22_example : ndarray Z :=
  {| shape := (2, 2); data := [1; 2; 3; 4]%Z |}.
Definition B22_example : ndarray Z :=
  {| shape := (2, 2); data := [5; 6; 7; 8]%Z |}.

(** * Properties *)

(** ** Lists and sums *)

Lemma map_seq_ext {A} (f g : nat -> A) (a n : nat) :
  (forall i, a <= i < a + n -> f i = g i) ->
  map f (seq a n) = map g (seq a n).
Proof.
  intros H. apply map_ext_in. intros i Hi. apply in_seq in Hi. apply H. lia.
Qed.

Lemma map_seq_shift {A} (f : nat -> A) (a n : nat) :
  map f (seq a n) = map (fun i => f (i + a)) (seq 0 n).
Proof.
  revert a. induction n as [|n IH]; intros a; simpl; [reflexivity|].
  f_equal. rewrite IH. rewrite <- seq_shift, map_map.
  apply map_ext. intros i. f_equal. lia.
Qed.

Lemma nth_map_seq {A} (f : nat -> A) (n i : nat) (d : A) :
  i < n -> nth i (map f (seq 0 n)) d = f i.
Proof.
  intros Hi. rewrite nth_indep with (d' := f 0) by (rewrite length_map, length_seq; lia).
  rewrite map_nth, seq_nth by lia. reflexivity.
Qed.

Lemma map_nth_seq {A} (l : list A) (d : A) :
  map (fun i => nth i l d) (seq 0 (length l)) = l.
Proof.
  apply nth_ext with (d := d) (d' := d).
  - rewrite length_map, length_seq. reflexivity.
  - intros i Hi. rewrite length_map, length_seq in Hi.
    apply (nth_map_seq (fun j => nth j l d)). exact Hi.
Qed.

Section NumpyFacts.
Context {R : Type} {SR : Scalar R}.

Lemma radd_0_r (x : R) : radd x r0 = x.
Proof. rewrite radd_comm. apply radd_0_l. Qed.

(** *** The diagonal decomposer *)

Lemma np_diag_upper (U : ndarray R) (N l : nat) :
  shape U = (N, N) -> l <= N ->
  np_diag U (Z.of_nat l) = map (fun i => get U i (i + l)) (seq 0 (N - l)).
Proof.
  intros HS Hl. unfold np_diag, nrows, ncols. rewrite HS. simpl.
  destruct (Z.leb_spec 0 (Z.of_nat l)); [|lia].
  rewrite Nat2Z.id. f_equal. f_equal. lia.
Qed.

Lemma np_diag_lower (U : ndarray R) (N l : nat) :
  shape U = (N, N) -> l < N ->
  np_diag U (- Z.of_nat N + Z.of_nat l) =
  map (fun i => get U (i + (N - l)) i) (seq 0 l).
Proof.
  intros HS Hl. unfold np_diag, nrows, ncols. rewrite HS. simpl.
  destruct (Z.leb_spec 0 (- Z.of_nat N + Z.of_nat l)); [lia|].
  replace (Z.to_nat (- (- Z.of_nat N + Z.of_nat l))) with (N - l) by lia.
  f_equal. f_equal. lia.
Qed.

Lemma diag_concat_cyclic (U : ndarray R) (N l : nat) :
  shape U = (N, N) -> l < N ->
  np_diag U (Z.of_nat l) ++ np_diag U (- Z.of_nat N + Z.of_nat l) =
  cyclic_diagonal U N l.
Proof.
  intros HS Hl.
  rewrite (np_diag_upper U HS) by lia. rewrite (np_diag_lower U HS Hl).
  unfold cyclic_diagonal.
  assert (Hseq : seq 0 N = seq 0 (N - l) ++ seq (N - l) l).
  { rewrite <- seq_app. f_equal. lia. }
  rewrite Hseq, map_app. f_equal.
  - apply map_seq_ext. intros i Hi. f_equal.
    symmetry. apply Nat.mod_small. lia.
  - rewrite (map_seq_shift _ (N - l) l).
    apply map_seq_ext. intros i Hi. f_equal.
    replace (i + (N - l) + l) with (i + 1 * N) by lia.
    rewrite Nat.Div0.mod_add. symmetry. apply Nat.mod_small. lia.
Qed.

Lemma diag_repr_square (U : ndarray R) (N l : nat) :
  shape U = (N, N) -> l < N ->
  diag_repr U (Z.of_nat l) = Ok (cyclic_diagonal U N l).
Proof.
  intros HS Hl. unfold diag_repr. rewrite HS.
  rewrite Nat.eqb_refl. simpl negb. cbv iota.
  rewrite (diag_concat_cyclic U HS Hl).
  unfold cyclic_diagonal. rewrite length_map, length_seq, Nat.eqb_refl.
  reflexivity.
Qed.

Lemma diag_repr_not_square (U : ndarray R) (N M : nat) (i : Z) :
  shape U = (N, M) -> N <> M ->
  diag_repr U i = Raise (Exception "diag_repr only works for square matrices").
Proof.
  intros HS Hne. unfold diag_repr. rewrite HS.
  apply Nat.eqb_neq in Hne. rewrite Hne. reflexivity.
Qed.

End NumpyFacts.

Section DiagonalDecomposer.
Context {R : Type} {SR : Scalar R}.

(** C4. For a square N-by-N matrix [U] and an offset [0 <= l < N],
    [diag_repr U l] returns the concatenation of [diag(U, l)] and
    [diag(U, l - N)]; that list is the length-N cyclic diagonal
    [U[i, (i+l) mod N]], so the length check does not fire.  For a matrix
    that is not square the call raises the shape exception, whatever the
    offset. *)
Theorem diag_repr_cyclic (U : ndarray R) (N M : nat) (l : Z) :
  shape U = (N, M) ->
  (N = M -> (0 <= l < Z.of_nat N)%Z ->
     diag_repr U l = Ok (np_diag U l ++ np_diag U (l - Z.of_nat N)) /\
     np_diag U l ++ np_diag U (l - Z.of_nat N) =
       cyclic_diagonal U N (Z.to_nat l) /\
     length (np_diag U l ++ np_diag U (l - Z.of_nat N)) = N /\
     diag_repr U l <> Raise (Exception "diag_repr index is out of bounds")) /\
  (N <> M ->
     diag_repr U l = Raise (Exception "diag_repr only works for square matrices")).
Proof.
  intros HS. split.
  - intros -> Hl.
    assert (Hl' : Z.to_nat l < M) by lia.
    replace (l - Z.of_nat M)%Z with (- Z.of_nat M + l)%Z by lia.
    pose proof (diag_concat_cyclic U HS Hl') as Hc.
    pose proof (diag_repr_square U HS Hl') as Hd.
    rewrite Z2Nat.id in Hc, Hd by lia.
    rewrite Hc. repeat split.
    + exact Hd.
    + unfold cyclic_diagonal. rewrite length_map, length_seq. reflexivity.
    + rewrite Hd. discriminate.
  - intros Hne. apply (diag_repr_not_square U l HS Hne).
Qed.

End DiagonalDecomposer.

Lemma diag_repr_cyclic_witness :
  shape U3_example = (3, 3) /\
  diag_repr U3_example 1 = Ok [2; 6; 7]%Z /\
  shape U23_example = (2, 3) /\
  diag_repr U23_example 1 =
    Raise (Exception "diag_repr only works for square matrices").
Proof.
  split; [reflexivity|]. split.
  - destruct (diag_repr_cyclic U3_example 1 (N := 3) (M := 3) eq_refl) as [H _].
    destruct (H eq_refl ltac:(lia)) as [H1 _]. rewrite H1. reflexivity.
  - split; [reflexivity|].
    destruct (diag_repr_cyclic U23_example 1 (N := 2) (M := 3) eq_refl) as [_ H].
    apply H. lia.
Defined.

(** ** The diagonal decomposition of a matrix-vector product *)

Lemma pmap_ok {A B} (f : A -> PyResult B) (g : A -> B) (xs : list A) :
  (forall x, In x xs -> f x = Ok (g x)) -> pmap f xs = Ok (map g xs).
Proof.
  induction xs as [|x xs IH]; intros H; simpl; [reflexivity|].
  rewrite (H x) by (left; reflexivity). simpl.
  rewrite IH by (intros y Hy; apply H; right; exact Hy). reflexivity.
Qed.

Lemma combine_map_same {A B C} (f : A -> B) (g : A -> C) (l : list A) :
  combine (map f l) (map g l) = map (fun x => (f x, g x)) l.
Proof. induction l as [|x l IH]; simpl; [reflexivity|]. now rewrite IH. Qed.

Lemma cyclic_shift_perm (N i : nat) :
  i < N -> Permutation (map (fun l => (i + l) mod N) (seq 0 N)) (seq 0 N).
Proof.
  intros Hi.
  assert (H1 : seq 0 N = seq 0 (N - i) ++ seq (N - i) i).
  { rewrite <- seq_app. f_equal. lia. }
  assert (H2 : seq 0 N = seq 0 i ++ seq i (N - i)).
  { rewrite <- seq_app. f_equal. lia. }
  rewrite H1 at 1. rewrite H2. rewrite map_app.
  replace (map (fun l => (i + l) mod N) (seq 0 (N - i))) with (seq i (N - i)).
  2:{ transitivity (map (fun x => x) (seq i (N - i))); [symmetry; apply map_id|].
      rewrite (map_seq_shift (fun x => x) i (N - i)).
      apply map_seq_ext. intros l Hl.
      rewrite Nat.mod_small by lia. lia. }
  replace (map (fun l => (i + l) mod N) (seq (N - i) i)) with (seq 0 i).
  2:{ rewrite (map_seq_shift _ (N - i) i).
      transitivity (map (fun x => x) (seq 0 i)); [symmetry; apply map_id|].
      apply map_seq_ext. intros l Hl.
      replace (i + (l + (N - i))) with (l + 1 * N) by lia.
      rewrite Nat.Div0.mod_add, Nat.mod_small by lia. reflexivity. }
  apply Permutation_app_comm.
Qed.

Section DiagonalDecomposition.
Context {R : Type} {SR : Scalar R}.

Lemma np_sum_perm (xs ys : list R) :
  Permutation xs ys -> np_sum xs = np_sum ys.
Proof.
  induction 1 as [|x xs ys _ IH|x y xs|xs ys zs _ IH1 _ IH2]; simpl.
  - reflexivity.
  - now rewrite IH.
  - rewrite !radd_assoc. f_equal. apply radd_comm.
  - now rewrite IH1.
Qed.

Lemma fold_left_radd_sum (xs : list R) :
  fold_left radd xs r0 = np_sum xs.
Proof.
  unfold np_sum. apply fold_symmetric.
  - apply radd_assoc.
  - intros y. rewrite radd_0_l, radd_0_r. reflexivity.
Qed.

Lemma np_zeros_map (n : nat) : np_zeros n = map (fun _ => r0) (seq 0 n).
Proof.
  unfold np_zeros. generalize 0 as a.
  induction n as [|n IH]; intros a; simpl; [reflexivity|].
  f_equal. apply IH.
Qed.

Lemma vmul_map_seq (f g : nat -> R) (n : nat) :
  vmul (map f (seq 0 n)) (map g (seq 0 n)) =
  map (fun i => rmul (f i) (g i)) (seq 0 n).
Proof. unfold vmul. rewrite combine_map_same, map_map. reflexivity. Qed.

Lemma vadd_map_seq (f g : nat -> R) (n : nat) :
  vadd (map f (seq 0 n)) (map g (seq 0 n)) =
  map (fun i => radd (f i) (g i)) (seq 0 n).
Proof. unfold vadd. rewrite combine_map_same, map_map. reflexivity. Qed.

Lemma fold_left_vadd_map_seq (F : nat -> nat -> R) (ls : list nat) (n : nat) :
  forall a : nat -> R,
  fold_left vadd (map (fun l => map (F l) (seq 0 n)) ls) (map a (seq 0 n)) =
  map (fun i => fold_left radd (map (fun l => F l i) ls) (a i)) (seq 0 n).
Proof.
  induction ls as [|l ls IH]; intros a; simpl; [reflexivity|].
  rewrite vadd_map_seq. rewrite IH. reflexivity.
Qed.

(** C5. For a square N-by-N matrix [U] and a length-N vector [m], the sum
    over the offsets [l] in [0, N) of the elementwise product of
    [diag_repr U l] with [m] rotated by [l] slots is the matrix-vector
    product [U.dot(m)]. *)
Theorem diagonal_decomposition_exact (U : ndarray R) (N : nat) (m : list R) :
  shape U = (N, N) -> length m = N ->
  diagonal_decomposition U m = Ok (np_dot U m).
Proof.
  intros HS Hm. unfold diagonal_decomposition. rewrite Hm.
  rewrite (pmap_ok _ (fun l => vmul (cyclic_diagonal U N l) (rotate l m))).
  2:{ intros l Hl. apply in_seq in Hl.
      rewrite (diag_repr_square U HS) by lia. reflexivity. }
  simpl. f_equal. unfold vsum, np_dot, nrows, ncols. rewrite HS. simpl.
  rewrite np_zeros_map.
  rewrite (map_ext _ (fun l => map (fun i =>
             rmul (get U i ((i + l) mod N)) (nth ((i + l) mod N) m r0))
             (seq 0 N))).
  2:{ intros l. unfold cyclic_diagonal, rotate. rewrite Hm.
      apply vmul_map_seq. }
  rewrite (fold_left_vadd_map_seq
             (fun l i => rmul (get U i ((i + l) mod N))
                              (nth ((i + l) mod N) m r0))).
  apply map_seq_ext. intros i Hi.
  rewrite fold_left_radd_sum.
  rewrite <- (map_map (fun l => (i + l) mod N)
                (fun j => rmul (get U i j) (nth j m r0))).
  apply np_sum_perm. apply Permutation_map. apply cyclic_shift_perm. lia.
Qed.

End DiagonalDecomposition.

Lemma diagonal_decomposition_exact_witness :
  shape U3_example = (3, 3) /\ length m3_example = 3 /\
  diagonal_decomposition U3_example m3_example = Ok [140; 320; 500]%Z.
Proof.
  split; [reflexivity|]. split; [reflexivity|].
  rewrite (diagonal_decomposition_exact U3_example m3_example (N := 3)
             eq_refl eq_refl).
  reflexivity.
Defined.

(** ** Array construction and update *)

Lemma update_nth_length {A} (i : nat) (v : A) (l : list A) :
  length (update_nth i v l) = length l.
Proof.
  revert i. induction l as [|h t IH]; intros [|i]; simpl; auto.
Qed.

Lemma nth_update_nth_eq {A} (i : nat) (v d : A) (l : list A) :
  i < length l -> nth i (update_nth i v l) d = v.
Proof.
  revert i. induction l as [|h t IH]; intros [|i] Hi; simpl in *; try lia.
  - reflexivity.
  - apply IH. lia.
Qed.

Lemma nth_update_nth_neq {A} (i j : nat) (v d : A) (l : list A) :
  i <> j -> nth j (update_nth i v l) d = nth j l d.
Proof.
  revert i j. induction l as [|h t IH]; intros [|i] [|j] Hij; simpl;
    try reflexivity; try lia.
  apply IH. lia.
Qed.

Lemma index_injective (n r c r' c' : nat) :
  c < n -> c' < n -> r * n + c = r' * n + c' -> r = r' /\ c = c'.
Proof.
  intros Hc Hc' H.
  assert (Hr : r = r').
  { assert (H1 : (r * n + c) / n = r).
    { rewrite Nat.div_add_l by lia. rewrite Nat.div_small by lia. lia. }
    assert (H2 : (r' * n + c') / n = r').
    { rewrite Nat.div_add_l by lia. rewrite Nat.div_small by lia. lia. }
    congruence. }
  subst r'. split; [reflexivity|lia].
Qed.

Section ArrayFacts.
Context {R : Type} {SR : Scalar R}.

Lemma nth_rows (f : nat -> nat -> R) (M N : nat) :
  forall a r c, r < N -> c < M ->
  nth (r * M + c) (flat_map (fun r => map (f r) (seq 0 M)) (seq a N)) r0 =
  f (a + r) c.
Proof.
  induction N as [|N IH]; intros a r c Hr Hc; [lia|].
  simpl. destruct r as [|r].
  - simpl. rewrite app_nth1 by (rewrite length_map, length_seq; lia).
    rewrite (nth_map_seq (f a)) by lia. f_equal. lia.
  - rewrite app_nth2 by (rewrite length_map, length_seq; simpl; lia).
    rewrite length_map, length_seq.
    replace (S r * M + c - M) with (r * M + c) by (simpl; lia).
    rewrite IH by lia. f_equal. lia.
Qed.

Lemma length_rows (f : nat -> nat -> R) (M N a : nat) :
  length (flat_map (fun r => map (f r) (seq 0 M)) (seq a N)) = N * M.
Proof.
  revert a. induction N as [|N IH]; intros a; simpl; [reflexivity|].
  rewrite length_app, length_map, length_seq, IH. reflexivity.
Qed.

Lemma shape_tabulate (N M : nat) (f : nat -> nat -> R) :
  shape (tabulate N M f) = (N, M).
Proof. reflexivity. Qed.

Lemma wf_tabulate (N M : nat) (f : nat -> nat -> R) :
  wf_ndarray (tabulate N M f).
Proof. unfold wf_ndarray, tabulate, nrows, ncols. simpl. apply length_rows. Qed.

Lemma get_tabulate (N M : nat) (f : nat -> nat -> R) (r c : nat) :
  r < N -> c < M -> get (tabulate N M f) r c = f r c.
Proof.
  intros Hr Hc. unfold get, tabulate, ncols. simpl.
  rewrite nth_rows by assumption. reflexivity.
Qed.

Lemma np_setitem_ok (U : ndarray R) (r c : nat) (v : R) :
  r < nrows U -> c < ncols U ->
  np_setitem U r c v =
  Ok {| shape := shape U;
        data := update_nth (r * ncols U + c) v (data U) |}.
Proof.
  intros Hr Hc. unfold np_setitem.
  apply Nat.ltb_lt in Hr, Hc. rewrite Hr, Hc. reflexivity.
Qed.

Lemma get_setitem (U : ndarray R) (r c r' c' : nat) (v : R) :
  wf_ndarray U -> r < nrows U -> c < ncols U -> c' < ncols U ->
  get {| shape := shape U;
         data := update_nth (r * ncols U + c) v (data U) |} r' c' =
  if (r' =? r) && (c' =? c) then v else get U r' c'.
Proof.
  intros Hwf Hr Hc Hc'. unfold get, ncols. simpl.
  destruct (Nat.eqb_spec r' r) as [->|Hne]; simpl.
  - destruct (Nat.eqb_spec c' c) as [->|Hne].
    + apply nth_update_nth_eq. unfold wf_ndarray, nrows, ncols in *. nia.
    + apply nth_update_nth_neq. unfold ncols in *. lia.
  - apply nth_update_nth_neq. intros He.
    apply index_injective in He; unfold ncols in *; try assumption. lia.
Qed.

End ArrayFacts.

(** ** The permutation generators *)

Lemma block_index_bound (d i x : nat) : i < d -> x < d -> d * i + x < d * d.
Proof.
  intros Hi Hx.
  assert (H : d * i + d <= d * d).
  { replace (d * i + d) with (d * S i) by lia. apply Nat.mul_le_mono_l. lia. }
  lia.
Qed.

Lemma block_index_unique (d r i j : nat) :
  j < d -> r = d * i + j -> i = r / d /\ j = r mod d.
Proof.
  intros Hj ->. split.
  - rewrite Nat.mul_comm, Nat.div_add_l by lia.
    rewrite Nat.div_small by lia. lia.
  - rewrite Nat.add_comm, Nat.mul_comm, Nat.Div0.mod_add.
    symmetry. apply Nat.mod_small. exact Hj.
Qed.

Lemma block_index_split (d r : nat) :
  r < d * d -> r / d < d /\ r mod d < d /\ r = d * (r / d) + r mod d.
Proof.
  intros Hr. assert (Hd : d <> 0) by (intros ->; simpl in Hr; lia).
  repeat split.
  - apply Nat.Div0.div_lt_upper_bound. exact Hr.
  - apply Nat.mod_upper_bound. exact Hd.
  - apply Nat.div_mod_eq.
Qed.

Section Generators.
Context {R : Type} {SR : Scalar R}.

Lemma pfor_setitem (d : nat) (target : nat -> nat -> nat) (n : nat) :
  forall (ps : list (nat * nat)) (P : ndarray R),
  wf_ndarray P -> shape P = (n, n) ->
  (forall ij, In ij ps ->
     d * fst ij + snd ij < n /\ target (fst ij) (snd ij) < n) ->
  exists P',
    pfor ps (fun ij P => np_setitem P (d * fst ij + snd ij)
                           (target (fst ij) (snd ij)) r1) P = Ok P' /\
    wf_ndarray P' /\ shape P' = (n, n) /\
    forall r c, c < n ->
      get P' r c = if existsb (hits d target r c) ps then r1 else get P r c.
Proof.
  induction ps as [|ij ps IH]; intros P Hwf HS Hin.
  - exists P. simpl. auto.
  - destruct (Hin ij (or_introl eq_refl)) as [Hr Hc].
    assert (HrU : d * fst ij + snd ij < nrows P) by (unfold nrows; rewrite HS; exact Hr).
    assert (HcU : target (fst ij) (snd ij) < ncols P) by (unfold ncols; rewrite HS; exact Hc).
    simpl. rewrite (np_setitem_ok P r1 HrU HcU). simpl.
    set (P1 := {| shape := shape P; data := _ |}).
    assert (Hwf1 : wf_ndarray P1).
    { unfold wf_ndarray, nrows, ncols, P1. simpl.
      rewrite update_nth_length. exact Hwf. }
    destruct (IH P1 Hwf1 HS) as (P' & HP' & Hwf' & HS' & Hget).
    { intros x Hx. apply Hin. right. exact Hx. }
    exists P'. repeat split; try assumption.
    intros r c Hcn. rewrite (Hget r c Hcn).
    destruct (existsb (hits d target r c) ps); [rewrite orb_true_r; reflexivity|].
    rewrite orb_false_r. unfold P1.
    rewrite get_setitem; try assumption.
    + reflexivity.
    + unfold ncols. rewrite HS. exact Hcn.
Qed.

Lemma existsb_hits (d : nat) (target : nat -> nat -> nat) (r c : nat) :
  r < d * d ->
  existsb (hits d target r c) (index_pairs d) =
  (c =? target (r / d) (r mod d)).
Proof.
  intros Hr. destruct (block_index_split d Hr) as (Hi & Hj & Heq).
  apply eq_true_iff_eq. rewrite existsb_exists. split.
  - intros ((i, j) & Hin & Hh). unfold hits in Hh. simpl in Hh.
    apply andb_true_iff in Hh. destruct Hh as [H1 H2].
    apply Nat.eqb_eq in H1, H2.
    unfold index_pairs in Hin. apply in_prod_iff in Hin.
    destruct Hin as [Hii Hjj]. apply in_seq in Hii, Hjj.
    destruct (@block_index_unique d r i j ltac:(lia) H1) as [Ei Ej].
    apply Nat.eqb_eq. rewrite <- Ei, <- Ej. exact H2.
  - intros Hc. apply Nat.eqb_eq in Hc.
    exists (r / d, r mod d). split.
    + unfold index_pairs. apply in_prod_iff. split; apply in_seq; lia.
    + unfold hits. simpl. apply andb_true_iff.
      split; apply Nat.eqb_eq; assumption.
Qed.

(** The base matrix of a generator: shape [(d*d, d*d)], a one in row
    [d*i+j] at column [target i j], zero elsewhere. *)
Lemma permutation_base_entries (d : nat) (target : nat -> nat -> nat) :
  (forall i j, i < d -> j < d -> target i j < d * d) ->
  exists P,
    permutation_base d target = Ok P /\
    wf_ndarray P /\ shape P = (d * d, d * d) /\
    forall r c, r < d * d -> c < d * d ->
      get P r c = if c =? target (r / d) (r mod d) then r1 else r0.
Proof.
  intros Ht. unfold permutation_base, np_reshape, np_zeros.
  rewrite repeat_length, Nat.eqb_refl. simpl pbind.
  set (P0 := {| shape := (d * d, d * d); data := repeat r0 (d * d * (d * d)) |}).
  assert (Hwf0 : wf_ndarray P0).
  { unfold wf_ndarray, nrows, ncols, P0. simpl. apply repeat_length. }
  destruct (pfor_setitem d target (index_pairs d) Hwf0 (n := d * d) eq_refl)
    as (P & HP & Hwf & HS & Hget).
  { intros (i, j) Hin. unfold index_pairs in Hin. apply in_prod_iff in Hin.
    destruct Hin as [Hi Hj]. apply in_seq in Hi, Hj. simpl.
    split; [apply block_index_bound; lia | apply Ht; lia]. }
  exists P. repeat split; try assumption.
  intros r c Hr Hc. rewrite (Hget r c Hc), (@existsb_hits d target r c Hr).
  destruct (c =? target (r / d) (r mod d)); [reflexivity|].
  unfold get, P0. simpl. apply nth_repeat.
Qed.

Lemma sigma_target_bound (d i j : nat) :
  i < d -> j < d -> sigma_target d i j < d * d.
Proof.
  intros Hi Hj. unfold sigma_target. apply block_index_bound; [exact Hi|].
  apply Nat.mod_upper_bound. lia.
Qed.

Lemma tau_target_bound (d i j : nat) :
  i < d -> j < d -> tau_target d i j < d * d.
Proof.
  intros Hi Hj. unfold tau_target. apply block_index_bound; [|exact Hj].
  apply Nat.mod_upper_bound. lia.
Qed.

Lemma phi_target_bound (k d i j : nat) :
  i < d -> j < d -> phi_target k d i j < d * d.
Proof.
  intros Hi Hj. unfold phi_target. apply block_index_bound; [exact Hi|].
  apply Nat.mod_upper_bound. lia.
Qed.

Lemma psi_target_bound (k d i j : nat) :
  i < d -> j < d -> psi_target k d i j < d * d.
Proof.
  intros Hi Hj. unfold psi_target. apply block_index_bound; [|exact Hj].
  apply Nat.mod_upper_bound. lia.
Qed.

End Generators.

Unset Implicit Arguments.

Section GeneratorLayout.
Context {R : Type} {SR : Scalar R}.

Lemma permutation_block_of_entries (P : ndarray R) (d : nat)
    (target : nat -> nat -> nat) (lim : nat) :
  (forall r c, r < d * d -> c < d * d -> r < lim -> c < lim ->
     get P r c = if c =? target (r / d) (r mod d) then r1 else r0) ->
  permutation_block P d target lim.
Proof.
  intros H r c Hr Hc Hrl Hcl. rewrite (H r c Hr Hc Hrl Hcl).
  destruct (block_index_split d Hr) as (Hi & Hj & Heq).
  destruct (Nat.eqb_spec c (target (r / d) (r mod d))) as [He|Hne].
  - split; [left; reflexivity|]. split; [|reflexivity].
    intros _. exists (r / d), (r mod d). auto.
  - split; [right; reflexivity|]. split.
    + intros H0. symmetry in H0. exfalso. exact (r1_neq_0 H0).
    + intros (i & j & Hid & Hjd & Hrij & Hcij). exfalso. apply Hne.
      destruct (@block_index_unique d r i j Hjd Hrij) as [Ei Ej].
      rewrite <- Ei, <- Ej. exact Hcij.
Qed.

Lemma shape_duplicated_truncated (P : ndarray R) (n nmax : nat) :
  shape P = (n, n) ->
  shape (duplicated_truncated P nmax) = (min nmax (2 * n), min nmax (2 * n)).
Proof.
  intros HS. unfold duplicated_truncated, np_slice, np_kron, nrows, ncols.
  simpl. rewrite HS. reflexivity.
Qed.

Lemma get_duplicated_truncated (P : ndarray R) (n nmax r c : nat) :
  shape P = (n, n) -> r < min nmax (2 * n) -> c < min nmax (2 * n) ->
  get (duplicated_truncated P nmax) r c =
  if r / n =? c / n then get P (r mod n) (c mod n) else r0.
Proof.
  intros HS Hr Hc.
  assert (Hn : n <> 0) by lia.
  unfold duplicated_truncated, np_slice.
  rewrite get_tabulate.
  2:{ unfold np_kron, nrows. simpl. rewrite HS. simpl. lia. }
  2:{ unfold np_kron, ncols. simpl. rewrite HS. simpl. lia. }
  unfold np_kron. unfold nrows at 1 2, ncols at 1 2. simpl fst. simpl snd.
  rewrite get_tabulate.
  2:{ unfold nrows. rewrite HS. simpl. lia. }
  2:{ unfold ncols. rewrite HS. simpl. lia. }
  unfold nrows, ncols. rewrite HS. simpl fst. simpl snd.
  assert (Hrn : r / n < 2) by (apply Nat.Div0.div_lt_upper_bound; lia).
  assert (Hcn : c / n < 2) by (apply Nat.Div0.div_lt_upper_bound; lia).
  unfold np_eye. rewrite get_tabulate by assumption.
  destruct (r / n =? c / n).
  - apply rmul_1_l.
  - apply rmul_0_l.
Qed.

(** C6. For every block size [d], slot capacity [nmax] and step [k], the
    four generators return 0/1 matrices that follow their closed forms:
    in the base d*d-by-d*d block there is a one at
    [(d*i+j, d*i + (i+j) mod d)] for [sigma_permutation], at
    [(d*i+j, d*((i+j) mod d) + j)] for [tau_permutation], at
    [(d*i+j, d*i + (j+k) mod d)] for [phi_permutation_k] and at
    [(d*i+j, d*((i+k) mod d) + j)] for [psi_permutation_k], for all
    [i, j < d], and a zero everywhere else. *)
Theorem generators_closed_form (d nmax k : nat) :
  exists S T V W : ndarray R,
    sigma_permutation d nmax = Ok S /\
    tau_permutation d nmax = Ok T /\
    phi_permutation_k k d nmax = Ok V /\
    psi_permutation_k k d nmax = Ok W /\
    permutation_block S d (fun i j => d * i + (i + j) mod d) nmax /\
    permutation_block T d (fun i j => d * ((i + j) mod d) + j) nmax /\
    permutation_block V d (fun i j => d * i + (j + k) mod d) (d * d) /\
    permutation_block W d (fun i j => d * ((i + k) mod d) + j) (d * d).
Proof.
  destruct (@permutation_base_entries R SR d (sigma_target d) (@sigma_target_bound d))
    as (Ps & HPs & _ & HSs & Hgs).
  destruct (@permutation_base_entries R SR d (tau_target d) (@tau_target_bound d))
    as (Pt & HPt & _ & HSt & Hgt).
  destruct (@permutation_base_entries R SR d (phi_target k d) (@phi_target_bound k d))
    as (Pv & HPv & _ & HSv & Hgv).
  destruct (@permutation_base_entries R SR d (psi_target k d) (@psi_target_bound k d))
    as (Pw & HPw & _ & HSw & Hgw).
  exists (duplicated_truncated Ps nmax), (duplicated_truncated Pt nmax), Pv, Pw.
  unfold sigma_permutation, tau_permutation, phi_permutation_k,
    psi_permutation_k.
  rewrite HPs, HPt, HPv, HPw. simpl.
  do 4 (split; [reflexivity|]).
  split; [|split; [|split]].
  - apply permutation_block_of_entries. intros r c Hr Hc Hrl Hcl.
    rewrite (get_duplicated_truncated Ps (d * d) nmax r c HSs) by lia.
    rewrite !Nat.div_small, !Nat.mod_small by assumption. simpl.
    apply Hgs; assumption.
  - apply permutation_block_of_entries. intros r c Hr Hc Hrl Hcl.
    rewrite (get_duplicated_truncated Pt (d * d) nmax r c HSt) by lia.
    rewrite !Nat.div_small, !Nat.mod_small by assumption. simpl.
    apply Hgt; assumption.
  - apply permutation_block_of_entries. intros r c Hr Hc _ _.
    apply Hgv; assumption.
  - apply permutation_block_of_entries. intros r c Hr Hc _ _.
    apply Hgw; assumption.
Qed.

(** C3, as the code has it.  [sigma_permutation] and [tau_permutation]
    return their base matrix duplicated by the Kronecker product with the
    2-by-2 identity and cut to at most [nmax] rows and columns: the result
    has [min nmax (2*d*d)] rows and columns and entry [(r, c)] is the base
    entry [(r mod d*d, c mod d*d)] inside the two diagonal blocks and zero
    outside them.  [phi_permutation_k] and [psi_permutation_k] return
    their d*d-by-d*d base matrix as it is, neither duplicated nor cut,
    whatever [nmax] is. *)
Theorem generators_layout (d nmax k : nat) :
  exists Ps Pt Pv Pw : ndarray R,
    permutation_base d (sigma_target d) = Ok Ps /\
    permutation_base d (tau_target d) = Ok Pt /\
    permutation_base d (phi_target k d) = Ok Pv /\
    permutation_base d (psi_target k d) = Ok Pw /\
    shape Ps = (d * d, d * d) /\ shape Pt = (d * d, d * d) /\
    sigma_permutation d nmax = Ok (duplicated_truncated Ps nmax) /\
    tau_permutation d nmax = Ok (duplicated_truncated Pt nmax) /\
    shape (duplicated_truncated Ps nmax) =
      (min nmax (2 * (d * d)), min nmax (2 * (d * d))) /\
    shape (duplicated_truncated Pt nmax) =
      (min nmax (2 * (d * d)), min nmax (2 * (d * d))) /\
    (forall r c, r < min nmax (2 * (d * d)) -> c < min nmax (2 * (d * d)) ->
       get (duplicated_truncated Ps nmax) r c =
         (if r / (d * d) =? c / (d * d)
          then get Ps (r mod (d * d)) (c mod (d * d)) else r0) /\
       get (duplicated_truncated Pt nmax) r c =
         (if r / (d * d) =? c / (d * d)
          then get Pt (r mod (d * d)) (c mod (d * d)) else r0)) /\
    phi_permutation_k k d nmax = Ok Pv /\ shape Pv = (d * d, d * d) /\
    psi_permutation_k k d nmax = Ok Pw /\ shape Pw = (d * d, d * d).
Proof.
  destruct (@permutation_base_entries R SR d (sigma_target d) (@sigma_target_bound d))
    as (Ps & HPs & _ & HSs & _).
  destruct (@permutation_base_entries R SR d (tau_target d) (@tau_target_bound d))
    as (Pt & HPt & _ & HSt & _).
  destruct (@permutation_base_entries R SR d (phi_target k d) (@phi_target_bound k d))
    as (Pv & HPv & _ & HSv & _).
  destruct (@permutation_base_entries R SR d (psi_target k d) (@psi_target_bound k d))
    as (Pw & HPw & _ & HSw & _).
  exists Ps, Pt, Pv, Pw.
  unfold sigma_permutation, tau_permutation, phi_permutation_k,
    psi_permutation_k.
  rewrite HPs, HPt, HPv, HPw. simpl pbind. unfold duplicated_truncated at 1 2.
  repeat split; try assumption; try reflexivity.
  - apply shape_duplicated_truncated. exact HSs.
  - apply shape_duplicated_truncated. exact HSt.
  - apply get_duplicated_truncated; assumption.
  - apply get_duplicated_truncated; assumption.
Qed.

End GeneratorLayout.

(** C3 as stated fails: [phi_permutation_k 1 2 8] is the bare 4-by-4 base
    matrix, not its duplicated copy cut to the 8 slots, which is 8-by-8. *)
Lemma phi_not_duplicated :
  exists V : ndarray Z,
    phi_permutation_k 1 2 8 = Ok V /\
    shape V = (4, 4) /\
    shape (duplicated_truncated V 8) = (8, 8) /\
    V <> duplicated_truncated V 8.
Proof.
  eexists. split; [vm_compute; reflexivity|].
  split; [reflexivity|]. split; [reflexivity|].
  vm_compute. discriminate.
Qed.

(** ** Engine computations *)

Lemma efor_ext {A S} (f g : A -> S -> Eng S) (xs : list A) :
  (forall x, In x xs -> forall s t, f x s t = g x s t) ->
  forall s t, efor xs f s t = efor xs g s t.
Proof.
  induction xs as [|x xs IH]; intros H s t; simpl; [reflexivity|].
  unfold bind. rewrite (H x (or_introl eq_refl)).
  destruct (g x s t) as [[s'|e] t']; [|reflexivity].
  apply IH. intros y Hy. apply H. right. exact Hy.
Qed.

Lemma efor_skip {A S} (f : A -> S -> Eng S) (xs : list A) :
  (forall x, In x xs -> forall s t, f x s t = (Ok s, t)) ->
  forall s t, efor xs f s t = (Ok s, t).
Proof.
  induction xs as [|x xs IH]; intros H s t; simpl; [reflexivity|].
  unfold bind. rewrite (H x (or_introl eq_refl)).
  apply IH. intros y Hy. apply H. right. exact Hy.
Qed.

Section ZeroTest.
Context {R : Type} {SR : Scalar R}.

Lemma rnonneg_0 : rnonneg r0.
Proof. rewrite <- rabs_0. apply rnonneg_abs. Qed.

Lemma np_sum_nonneg (v : list R) :
  (forall x, In x v -> rnonneg x) -> rnonneg (np_sum v).
Proof.
  induction v as [|x v IH]; intros H; simpl.
  - apply rnonneg_0.
  - apply rnonneg_add; [apply H; left; reflexivity|].
    apply IH. intros y Hy. apply H. right. exact Hy.
Qed.

Lemma np_sum_eq_0 (v : list R) :
  (forall x, In x v -> rnonneg x) -> np_sum v = r0 ->
  forall x, In x v -> x = r0.
Proof.
  induction v as [|y v IH]; intros Hnn Hs x Hx; [destruct Hx|].
  simpl in Hs.
  destruct (rnonneg_add_0 y (np_sum v)) as [Hy Hv]; try assumption.
  - apply Hnn. left. reflexivity.
  - apply np_sum_nonneg. intros z Hz. apply Hnn. right. exact Hz.
  - destruct Hx as [<-|Hx]; [exact Hy|].
    apply IH; try assumption. intros z Hz. apply Hnn. right. exact Hz.
Qed.

Lemma np_sum_zeros (v : list R) :
  (forall x, In x v -> x = r0) -> np_sum v = r0.
Proof.
  induction v as [|y v IH]; intros H; simpl; [reflexivity|].
  rewrite (H y (or_introl eq_refl)), radd_0_l.
  apply IH. intros z Hz. apply H. right. exact Hz.
Qed.

(** The test of line 64 holds exactly for the zero vectors. *)
Lemma is_zero_diagonal_spec (v : list R) :
  is_zero_diagonal v = true <-> forall x, In x v -> x = r0.
Proof.
  unfold is_zero_diagonal, np_abs. rewrite reqb_eq. split.
  - intros Hs x Hx. apply rabs_eq_0.
    apply (np_sum_eq_0 (map rabs v)).
    + intros y Hy. apply in_map_iff in Hy. destruct Hy as (z & <- & _).
      apply rnonneg_abs.
    + exact Hs.
    + apply in_map. exact Hx.
  - intros H. apply np_sum_zeros. intros y Hy.
    apply in_map_iff in Hy. destruct Hy as (z & <- & Hz).
    rewrite (H z Hz). apply rabs_0.
Qed.

End ZeroTest.

(** ** The linear-transform evaluator on a matrix without a non-zero
    diagonal *)

Section ZeroMatrix.
Context {R : Type} {SR : Scalar R}.
Variable E : Engine R.

Lemma lin_trans_step_skips (U : ndarray R) (N l : nat) (ct : Ciphertext E)
    (gk : GaloisKeys) (s : Q) (p : nat) (acc : list (Ciphertext E))
    (t : list Event) :
  shape U = (N, N) -> l < N ->
  (forall x, In x (cyclic_diagonal U N l) -> x = r0) ->
  lin_trans_step E U ct gk s p l acc t = (Ok acc, t).
Proof.
  intros HS Hl Hz. unfold lin_trans_step, bind, lift.
  rewrite (diag_repr_square U HS Hl).
  apply is_zero_diagonal_spec in Hz. rewrite Hz. reflexivity.
Qed.

(** C10. For a square matrix [U] all of whose generalized diagonals are
    zero, [lin_trans] skips every iteration of its loop: the loop leaves
    the vector of terms empty and calls nothing in the engine, so no
    diagonal is encoded and nothing is rotated or multiplied; the next
    call is [add_many] on the empty vector, and whatever follows is the
    relinearize/rescale tail of that sum. *)
Theorem lin_trans_all_zero_diagonals (U : ndarray R) (N : nat)
    (ct : Ciphertext E) (gk : GaloisKeys) (rk : option RelinKeys)
    (t : list Event) :
  shape U = (N, N) ->
  (forall l, l < N -> forall x, In x (cyclic_diagonal U N l) -> x = r0) ->
  efor (seq 0 N) (lin_trans_step E U ct gk (scale E ct) (parms_id E ct)) [] t
    = (Ok [], t) /\
  lin_trans E U ct gk rk t = lin_trans_finish E [] rk t /\
  exists t', snd (lin_trans E U ct gk rk t) = t ++ EvAddMany 0 :: t' /\
             forall ev, In ev t' -> ev = EvRelinearize \/ ev = EvRescale.
Proof.
  intros HS Hz.
  assert (Hloop : efor (seq 0 N)
            (lin_trans_step E U ct gk (scale E ct) (parms_id E ct)) [] t
            = (Ok [], t)).
  { apply efor_skip. intros l Hl s t0. apply in_seq in Hl.
    apply (lin_trans_step_skips U N l ct gk _ _ s t0 HS); [lia|].
    apply Hz. lia. }
  assert (Hlt : lin_trans E U ct gk rk t = lin_trans_finish E [] rk t).
  { unfold lin_trans. rewrite HS, Nat.eqb_refl. simpl negb. cbv beta iota zeta.
    unfold bind at 1. cbn [negb]. cbv beta iota. rewrite Hloop. reflexivity. }
  split; [exact Hloop|]. split; [exact Hlt|].
  rewrite Hlt. unfold lin_trans_finish, bind, call. simpl length.
  destruct (add_many E []) as [out|e].
  - destruct rk as [rk|].
    + destruct (relinearize E out rk) as [out'|e].
      * exists [EvRelinearize; EvRescale]. simpl. split.
        -- rewrite <- !app_assoc. reflexivity.
        -- intros ev [<-|[<-|[]]]; auto.
      * exists [EvRelinearize]. simpl. split.
        -- rewrite <- !app_assoc. reflexivity.
        -- intros ev [<-|[]]; auto.
    + exists []. simpl. split; [reflexivity|]. intros ev [].
  - exists []. simpl. split; [reflexivity|]. intros ev [].
Qed.

End ZeroMatrix.

Lemma lin_trans_all_zero_diagonals_witness :
  shape zero2_example = (2, 2) /\
  (forall l, l < 2 ->
     forall x, In x (cyclic_diagonal zero2_example 2 l) -> x = 0%Z) /\
  lin_trans (LeveledEngine ctx_example) zero2_example ctA_example galois_keys
    (Some relin_keys) [] =
  (Raise (ValueError "encrypteds cannot be empty"), [EvAddMany 0]).
Proof.
  assert (Hz : forall l, l < 2 ->
     forall x, In x (cyclic_diagonal zero2_example 2 l) -> x = 0%Z).
  { intros l Hl x Hx. destruct l as [|[|l]]; [| |lia];
      vm_compute in Hx; destruct Hx as [<-|[<-|[]]]; reflexivity. }
  split; [reflexivity|]. split; [exact Hz|].
  destruct (lin_trans_all_zero_diagonals (LeveledEngine ctx_example)
              zero2_example 2 ctA_example galois_keys (Some relin_keys) []
              eq_refl Hz) as (_ & H & _).
  rewrite H. reflexivity.
Defined.

(** ** The capacity check of the matrix-product evaluator *)

Section Capacity.
Context {R : Type} {SR : Scalar R}.
Variable E : Engine R.

(** When [d*d] exceeds half the slot count, [cA_dot_cB] stops at line 135
    with the log untouched; the exception is the TypeError of raising a
    str. *)
Lemma cA_dot_cB_over_capacity (ct_A ct_B : Ciphertext E) (gk : GaloisKeys)
    (rk : RelinKeys) (d : nat) (t : list Event) :
  slot_count E < 2 * (d * d) ->
  cA_dot_cB E ct_A ct_B gk rk d t =
  (Raise (TypeError "exceptions must derive from BaseException"), t).
Proof.
  intros H. unfold cA_dot_cB, exceeds_half_capacity.
  apply Nat.ltb_lt in H. rewrite H. reflexivity.
Qed.

(** Within capacity the check lets the computation through. *)
Lemma cA_dot_cB_within_capacity (d : nat) :
  2 * (d * d) <= slot_count E ->
  exceeds_half_capacity (d * d) (slot_count E) = false.
Proof. intros H. unfold exceeds_half_capacity. apply Nat.ltb_ge. exact H. Qed.

End Capacity.

(** C7, at a 3-by-3 product on 8 slots (9 > 8/2): the call stops before
    any engine call, and what is raised is a TypeError, not an exception
    carrying the capacity message. *)
Theorem cA_dot_cB_capacity_raises_type_error :
  cA_dot_cB (LeveledEngine ctx_example) ctA_example ctB_example
    galois_keys relin_keys 3 [] =
  (Raise (TypeError "exceptions must derive from BaseException"), []).
Proof. reflexivity. Qed.

(** ** The accumulation step of the matrix-product evaluator *)

Section Accumulate.
Context {R : Type} {SR : Scalar R}.
Variable ctx : Context.
Local Abbreviation E := (LeveledEngine (R := R) ctx).
Local Abbreviation n := (ctx_slot_count ctx).

(** The elementwise product: one level down, scale divided by the
    dropped modulus, size back to 2. *)
Lemma cA_x_cB_leveled (A B : MCiphertext R) (rk : RelinKeys) (l : nat)
    (t : list Event) :
  ct_level A = ct_level B -> ct_level A = S l ->
  cA_x_cB E A B rk t =
  (Ok {| ct_slots := slots_mul n (ct_slots A) (ct_slots B);
         ct_scale := Qdiv (Qmult (ct_scale A) (ct_scale B))
                          (ctx_modulus ctx (ct_level A));
         ct_level := l; ct_size := 2 |},
   t ++ [EvMultiply; EvRelinearize; EvRescale]).
Proof.
  intros HAB HA. unfold cA_x_cB, bind, call. simpl.
  unfold m_multiply. rewrite <- HAB, Nat.eqb_refl.
  unfold m_relinearize, m_rescale_to_next. simpl. rewrite HA.
  rewrite <- !app_assoc. reflexivity.
Qed.

(** C2, as the code has it.  In one pass of the accumulation loop the
    term is the elementwise product of [ct_Ak[k]] and [ct_Bk[k]], one
    level [l] below its operands; the accumulator [ct_AB] is mod-switched
    down to that level [l] (which must not lie above its own); the
    term's scale is then overwritten with the accumulator's scale, and
    the term is added into the accumulator.  The new accumulator sits at
    the term's level and keeps the accumulator's own scale. *)
Theorem cA_dot_cB_accumulate_leveled (rk : RelinKeys)
    (ct_AB A B : MCiphertext R) (l : nat) (t : list Event) :
  ct_level A = ct_level B -> ct_level A = S l -> l <= ct_level ct_AB ->
  cA_dot_cB_accumulate E rk ct_AB A B t =
  (Ok {| ct_slots := slots_add n (ct_slots ct_AB)
                       (slots_mul n (ct_slots A) (ct_slots B));
         ct_scale := ct_scale ct_AB;
         ct_level := l;
         ct_size := max (ct_size ct_AB) 2 |},
   t ++ [EvMultiply; EvRelinearize; EvRescale; EvModSwitch l; EvAdd]).
Proof.
  intros HAB HA Hl. unfold cA_dot_cB_accumulate. unfold bind at 1.
  rewrite (cA_x_cB_leveled A B rk l t HAB HA).
  unfold bind, call. simpl. unfold m_mod_switch_to.
  apply Nat.leb_le in Hl. rewrite Hl. simpl.
  unfold m_add. simpl. rewrite Nat.eqb_refl, Qeq_bool_refl. simpl.
  rewrite <- !app_assoc. reflexivity.
Qed.

(** The step fails when the accumulator lies below the term. *)
Lemma cA_dot_cB_accumulate_no_upward_switch (rk : RelinKeys)
    (ct_AB A B : MCiphertext R) (l : nat) (t : list Event) :
  ct_level A = ct_level B -> ct_level A = S l -> ct_level ct_AB < l ->
  fst (cA_dot_cB_accumulate E rk ct_AB A B t) =
  Raise (ValueError "cannot switch to higher level modulus").
Proof.
  intros HAB HA Hl. unfold cA_dot_cB_accumulate. unfold bind at 1.
  rewrite (cA_x_cB_leveled A B rk l t HAB HA).
  unfold bind, call. simpl. unfold m_mod_switch_to.
  apply Nat.leb_gt in Hl. rewrite Hl. reflexivity.
Qed.

End Accumulate.

Lemma cA_dot_cB_accumulate_leveled_witness :
  ct_level ctAk_example = ct_level ctBk_example /\
  ct_level ctAk_example = 2 /\ 1 <= ct_level ctAB_example /\
  cA_dot_cB_accumulate (LeveledEngine ctx_example) relin_keys
    ctAB_example ctAk_example ctBk_example [] =
  (Ok {| ct_slots := [19; 20; 41; 50; 19; 20; 41; 50]%Z;
         ct_scale := (1024 # 1)%Q; ct_level := 1; ct_size := 2 |},
   [EvMultiply; EvRelinearize; EvRescale; EvModSwitch 1; EvAdd]).
Proof.
  split; [reflexivity|]. split; [reflexivity|]. split; [simpl; lia|].
  rewrite (cA_dot_cB_accumulate_leveled ctx_example relin_keys ctAB_example
             ctAk_example ctBk_example 1 [] eq_refl eq_refl);
    [reflexivity | simpl; lia].
Defined.

(** C2 as stated fails: the term of the example leaves the elementwise
    product at scale 1024*1024/1000, the accumulator is at scale 1024, and
    after the step the accumulator is still at its own scale 1024, not at
    the term's. *)
Lemma accumulator_keeps_its_scale :
  exists term acc' : MCiphertext Z,
    fst (cA_x_cB (LeveledEngine ctx_example) ctAk_example ctBk_example
           relin_keys []) = Ok term /\
    fst (cA_dot_cB_accumulate (LeveledEngine ctx_example) relin_keys
           ctAB_example ctAk_example ctBk_example []) = Ok acc' /\
    ct_scale acc' = ct_scale ctAB_example /\
    ~ (ct_scale acc' == ct_scale term)%Q.
Proof.
  eexists. eexists. split; [vm_compute; reflexivity|].
  split; [vm_compute; reflexivity|]. split; [reflexivity|].
  simpl. intros H. vm_compute in H. discriminate H.
Qed.

(** ** The linear-transform evaluator on the leveled engine *)

Lemma bind_ok {A B} (m : Eng A) (f : A -> Eng B) (t t' : list Event) (a : A) :
  m t = (Ok a, t') -> bind m f t = f a t'.
Proof. intros H. unfold bind. rewrite H. reflexivity. Qed.

Lemma bind_raise {A B} (m : Eng A) (f : A -> Eng B) (t t' : list Event)
    (e : PyExc) :
  m t = (Raise e, t') -> bind m f t = (Raise e, t').
Proof. intros H. unfold bind. rewrite H. reflexivity. Qed.

Section LinTransLeveled.
Context {R : Type} {SR : Scalar R}.
Variable ctx : Context.
Local Abbreviation E := (LeveledEngine (R := R) ctx).
Local Abbreviation n := (ctx_slot_count ctx).

Variable ct : MCiphertext R.
Hypothesis ct_below_top : ct_level ct <= ctx_top_level ctx.


Lemma lin_trans_term_leveled (gk : GaloisKeys) (l : nat) (u : list R)
    (t : list Event) :
  exists c,
    lin_trans_term E ct gk (ct_scale ct) (ct_level ct) l u t =
    (Ok c, t ++ [EvEncode (length u); EvModSwitchPlain (ct_level ct);
                 EvRotate l; EvMultiplyPlain]) /\
    term_meta ct c.
Proof.
  unfold lin_trans_term, bind, call. simpl.
  unfold m_mod_switch_to_plain. simpl.
  pose proof ct_below_top as Hle. apply Nat.leb_le in Hle. rewrite Hle.
  simpl. unfold m_multiply_plain. simpl. rewrite Nat.eqb_refl.
  eexists. split.
  - rewrite <- !app_assoc. reflexivity.
  - unfold term_meta. simpl. auto.
Qed.

Lemma lin_trans_loop_leveled (U : ndarray R) (N : nat) (gk : GaloisKeys) :
  shape U = (N, N) ->
  forall (ls : list nat) (acc : list (MCiphertext R)) (t : list Event),
  (forall l, In l ls -> l < N) ->
  Forall (term_meta ct) acc ->
  exists acc' tl,
    efor ls (lin_trans_step E U ct gk (ct_scale ct) (ct_level ct)) acc t
      = (Ok acc', t ++ tl) /\
    Forall (term_meta ct) acc' /\
    (acc <> [] -> acc' <> []) /\
    (forall l, In l ls ->
       is_zero_diagonal (cyclic_diagonal U N l) = false -> acc' <> []).
Proof.
  intros HS. induction ls as [|l ls IH]; intros acc t Hls Hacc.
  - exists acc, []. simpl. rewrite app_nil_r.
    repeat split; auto; intros l [].
  - assert (Hl : l < N) by (apply Hls; left; reflexivity).
    assert (Hls' : forall x, In x ls -> x < N)
      by (intros x Hx; apply Hls; right; exact Hx).
    simpl. unfold bind at 1. unfold lin_trans_step at 1.
    unfold bind at 1, lift. rewrite (diag_repr_square U HS Hl).
    destruct (is_zero_diagonal (cyclic_diagonal U N l)) eqn:Hz.
    + unfold ret at 1.
      destruct (IH acc t Hls' Hacc) as (acc' & tl & Hrun & Hm & Hne & Hnz).
      exists acc', tl. repeat split; auto.
      intros x [<-|Hx] Hx0; [congruence|]. apply (Hnz x Hx Hx0).
    + unfold bind at 1.
      destruct (lin_trans_term_leveled gk l (cyclic_diagonal U N l) t)
        as (c & Hc & Hmc).
      fold E. rewrite Hc. unfold ret at 1.
      destruct (IH (acc ++ [c])
                  (t ++ [EvEncode (length (cyclic_diagonal U N l));
                         EvModSwitchPlain (ct_level ct);
                         EvRotate l; EvMultiplyPlain]) Hls')
        as (acc' & tl & Hrun & Hm & Hne & Hnz).
      { apply Forall_app. split; [exact Hacc|]. constructor; auto. }
      assert (Hne' : acc' <> []).
      { apply Hne. destruct acc; discriminate. }
      eexists acc', _. repeat split; auto.
      etransitivity; [exact Hrun|].
      rewrite <- app_assoc. reflexivity.
Qed.

Lemma m_add_many_leveled (acc : list (MCiphertext R)) :
  acc <> [] -> Forall (term_meta ct) acc ->
  exists c, m_add_many ctx acc = Ok c /\ term_meta ct c.
Proof.
  destruct acc as [|c0 cs]; [congruence|]. intros _ Hall.
  inversion Hall as [|x xs Hc0 Hcs]; subst. simpl. clear Hall.
  revert c0 Hc0. induction cs as [|c cs IH]; intros c0 Hc0.
  - exists c0. simpl. auto.
  - inversion Hcs as [|x xs Hc Hcs']; subst. simpl.
    destruct Hc0 as (L0 & S0 & Z0). destruct Hc as (L1 & S1 & Z1).
    unfold m_add. rewrite L0, L1, Nat.eqb_refl, S0, S1, Qeq_bool_refl.
    simpl. apply IH; [exact Hcs'|].
    unfold term_meta. simpl. rewrite Z0, Z1, Nat.max_id. auto.
Qed.

(** With relinearization keys, [lin_trans] returns one level below [ct],
    at the squared scale divided by the dropped modulus; the last two
    engine calls are relinearize and rescale. *)
Lemma lin_trans_leveled_relin (U : ndarray R) (N l0 l : nat)
    (gk : GaloisKeys) (rk : RelinKeys) (t : list Event) :
  shape U = (N, N) -> l0 < N ->
  is_zero_diagonal (cyclic_diagonal U N l0) = false ->
  ct_level ct = S l ->
  exists out tl k,
    lin_trans E U ct gk (Some rk) t =
      (Ok out, t ++ tl ++ [EvAddMany k; EvRelinearize; EvRescale]) /\
    ct_level out = l /\
    ct_scale out = Qdiv (Qmult (ct_scale ct) (ct_scale ct))
                        (ctx_modulus ctx (S l)) /\
    ct_size out = 2.
Proof.
  intros HS Hl0 Hnz Hlvl.
  destruct (lin_trans_loop_leveled U N gk HS (seq 0 N) [] t)
    as (acc & tl & Hrun & Hm & _ & Hne).
  { intros x Hx. apply in_seq in Hx. lia. }
  { constructor. }
  assert (Hacc : acc <> []).
  { apply (Hne l0); [apply in_seq; lia | exact Hnz]. }
  destruct (m_add_many_leveled acc Hacc Hm) as (c & Hc & (L & S & Z)).
  exists {| ct_slots := ct_slots c;
            ct_scale := Qdiv (ct_scale c) (ctx_modulus ctx (ct_level c));
            ct_level := l; ct_size := 2 |}, tl, (length acc).
  split.
  - unfold lin_trans. rewrite HS, Nat.eqb_refl. cbn [negb].
    cbv beta iota zeta. erewrite bind_ok; [|exact Hrun].
    unfold lin_trans_finish, bind, call.
    change (add_many E acc) with (m_add_many ctx acc). rewrite Hc.
    simpl. unfold m_rescale_to_next. simpl. rewrite L, Hlvl.
    rewrite <- !app_assoc. reflexivity.
  - simpl. rewrite L, S, Hlvl. auto.
Qed.

(** Without relinearization keys it returns at the level of [ct] and at
    the squared scale. *)
Lemma lin_trans_leveled_raw (U : ndarray R) (N l0 : nat)
    (gk : GaloisKeys) (t : list Event) :
  shape U = (N, N) -> l0 < N ->
  is_zero_diagonal (cyclic_diagonal U N l0) = false ->
  exists out tl k,
    lin_trans E U ct gk None t = (Ok out, t ++ tl ++ [EvAddMany k]) /\
    ct_level out = ct_level ct /\
    ct_scale out = Qmult (ct_scale ct) (ct_scale ct) /\
    ct_size out = ct_size ct.
Proof.
  intros HS Hl0 Hnz.
  destruct (lin_trans_loop_leveled U N gk HS (seq 0 N) [] t)
    as (acc & tl & Hrun & Hm & _ & Hne).
  { intros x Hx. apply in_seq in Hx. lia. }
  { constructor. }
  assert (Hacc : acc <> []).
  { apply (Hne l0); [apply in_seq; lia | exact Hnz]. }
  destruct (m_add_many_leveled acc Hacc Hm) as (c & Hc & (L & S & Z)).
  exists c, tl, (length acc). split; [|auto].
  unfold lin_trans. rewrite HS, Nat.eqb_refl. cbn [negb].
  cbv beta iota zeta. erewrite bind_ok; [|exact Hrun].
  unfold lin_trans_finish, bind, call, ret.
  change (add_many E acc) with (m_add_many ctx acc). rewrite Hc.
  rewrite <- !app_assoc. reflexivity.
Qed.

End LinTransLeveled.

(** ** The first stage of the matrix product *)

Section FirstStage.
Context {R : Type} {SR : Scalar R}.

(** A duplicated generator matrix whose base has a one at [(0, 0)] has a
    non-zero main diagonal. *)
Lemma duplicated_main_diagonal (P : ndarray R) (d nmax : nat)
    (target : nat -> nat -> nat) :
  1 <= d -> 1 <= nmax -> target 0 0 = 0 ->
  shape P = (d * d, d * d) ->
  (forall r c, r < d * d -> c < d * d ->
     get P r c = if c =? target (r / d) (r mod d) then r1 else r0) ->
  0 < min nmax (2 * (d * d)) /\
  is_zero_diagonal
    (cyclic_diagonal (duplicated_truncated P nmax)
       (min nmax (2 * (d * d))) 0) = false.
Proof.
  intros Hd Hn Ht HS Hg.
  assert (Hdd : 0 < d * d) by (destruct d; simpl; lia).
  assert (Hm : 0 < min nmax (2 * (d * d))) by lia.
  split; [exact Hm|].
  destruct (is_zero_diagonal _) eqn:Hz; [|reflexivity].
  exfalso. apply (@r1_neq_0 R SR).
  rewrite is_zero_diagonal_spec in Hz. apply Hz.
  unfold cyclic_diagonal. apply in_map_iff. exists 0. split.
  - simpl Nat.add. rewrite Nat.Div0.mod_0_l.
    rewrite (get_duplicated_truncated P (d * d) nmax 0 0 HS Hm Hm).
    rewrite Nat.eqb_refl, Nat.Div0.mod_0_l.
    rewrite (Hg 0 0 Hdd Hdd).
    rewrite Nat.Div0.div_0_l, Nat.Div0.mod_0_l, Ht. reflexivity.
  - apply in_seq. lia.
Qed.

Variable ctx : Context.

(** C1, as the code has it.  The first-stage transforms are computed by
    [lin_trans] with the relinearization keys passed on, so each result
    is relinearized and rescaled: for input ciphertexts at levels
    [S la] and [S lb] (not above the top of the chain), a block size
    [d >= 1] and [nmax >= 1], the first stage returns [ct_A0] at level
    [la] and [ct_B0] at level [lb], each at the square of its input's
    scale divided by the modulus dropped on leaving the input's level,
    and the log of each transform ends with relinearize, rescale. *)
Theorem first_stage_relinearizes_and_rescales
    (ct_A ct_B : MCiphertext R) (gk : GaloisKeys) (rk : RelinKeys)
    (d nmax la lb : nat) (t : list Event) :
  1 <= d -> 1 <= nmax ->
  ct_level ct_A = S la -> S la <= ctx_top_level ctx ->
  ct_level ct_B = S lb -> S lb <= ctx_top_level ctx ->
  exists ct_A0 ct_B0 tA tB kA kB,
    cA_dot_cB_first_stage (LeveledEngine ctx) ct_A ct_B gk rk d nmax t =
      (Ok (ct_A0, ct_B0),
       (t ++ tA ++ [EvAddMany kA; EvRelinearize; EvRescale])
         ++ tB ++ [EvAddMany kB; EvRelinearize; EvRescale]) /\
    ct_level ct_A0 = la /\
    ct_scale ct_A0 = Qdiv (Qmult (ct_scale ct_A) (ct_scale ct_A))
                          (ctx_modulus ctx (S la)) /\
    ct_size ct_A0 = 2 /\
    ct_level ct_B0 = lb /\
    ct_scale ct_B0 = Qdiv (Qmult (ct_scale ct_B) (ct_scale ct_B))
                          (ctx_modulus ctx (S lb)) /\
    ct_size ct_B0 = 2.
Proof.
  intros Hd Hn HA HAt HB HBt.
  destruct (@permutation_base_entries R SR d (sigma_target d)
              (@sigma_target_bound d)) as (Ps & HPs & _ & HSs & Hgs).
  destruct (@permutation_base_entries R SR d (tau_target d)
              (@tau_target_bound d)) as (Pt & HPt & _ & HSt & Hgt).
  assert (Hs0 : sigma_target d 0 0 = 0).
  { unfold sigma_target. rewrite Nat.mul_0_r. simpl Nat.add.
    apply Nat.Div0.mod_0_l. }
  assert (Ht0 : tau_target d 0 0 = 0).
  { unfold tau_target. simpl Nat.add. rewrite Nat.Div0.mod_0_l. lia. }
  destruct (duplicated_main_diagonal Ps d nmax _ Hd Hn Hs0 HSs Hgs)
    as [Hm HzA].
  destruct (duplicated_main_diagonal Pt d nmax _ Hd Hn Ht0 HSt Hgt)
    as [_ HzB].
  assert (HAle : ct_level ct_A <= ctx_top_level ctx) by lia.
  assert (HBle : ct_level ct_B <= ctx_top_level ctx) by lia.
  destruct (lin_trans_leveled_relin ctx ct_A HAle
              (duplicated_truncated Ps nmax) _ 0 la gk rk t
              (shape_duplicated_truncated Ps (d * d) nmax HSs) Hm HzA HA)
    as (A0 & tA & kA & HrunA & HA1 & HA2 & HA3).
  destruct (lin_trans_leveled_relin ctx ct_B HBle
              (duplicated_truncated Pt nmax) _ 0 lb gk rk
              (t ++ tA ++ [EvAddMany kA; EvRelinearize; EvRescale])
              (shape_duplicated_truncated Pt (d * d) nmax HSt) Hm HzB HB)
    as (B0 & tB & kB & HrunB & HB1 & HB2 & HB3).
  exists A0, B0, tA, tB, kA, kB.
  split; [|repeat split; assumption].
  unfold cA_dot_cB_first_stage, sigma_permutation, tau_permutation.
  rewrite HPs, HPt. simpl pbind.
  unfold bind at 1, lift at 1. unfold bind at 1, lift at 1.
  fold (duplicated_truncated Ps nmax). fold (duplicated_truncated Pt nmax).
  erewrite bind_ok; [|exact HrunA].
  erewrite bind_ok; [|exact HrunB].
  reflexivity.
Qed.

End FirstStage.

Lemma first_stage_relinearizes_and_rescales_witness :
  1 <= 2 /\ 1 <= 8 /\
  ct_level ctA_example = 3 /\ 3 <= ctx_top_level ctx_example /\
  ct_level ctB_example = 3 /\ 3 <= ctx_top_level ctx_example /\
  exists ct_A0 ct_B0 tA tB kA kB,
    cA_dot_cB_first_stage (LeveledEngine ctx_example) ctA_example ctB_example
      galois_keys relin_keys 2 8 [] =
      (Ok (ct_A0, ct_B0),
       ([] ++ tA ++ [EvAddMany kA; EvRelinearize; EvRescale])
         ++ tB ++ [EvAddMany kB; EvRelinearize; EvRescale]) /\
    ct_level ct_A0 = 2 /\
    ct_scale ct_A0 = Qdiv (Qmult (ct_scale ctA_example) (ct_scale ctA_example))
                          (ctx_modulus ctx_example 3) /\
    ct_size ct_A0 = 2 /\
    ct_level ct_B0 = 2 /\
    ct_scale ct_B0 = Qdiv (Qmult (ct_scale ctB_example) (ct_scale ctB_example))
                          (ctx_modulus ctx_example 3) /\
    ct_size ct_B0 = 2.
Proof.
  assert (H3 : 3 <= ctx_top_level ctx_example) by (simpl; lia).
  repeat (split; [first [reflexivity | simpl; lia]|]).
  apply (first_stage_relinearizes_and_rescales ctx_example ctA_example
           ctB_example galois_keys relin_keys 2 8 2 2 []);
    first [reflexivity | simpl; lia].
Defined.

(** C1 as stated fails: on the example inputs at level 3 and scale 1024 the
    first stage relinearizes and rescales both transforms, and returns them
    at level 2, at a scale other than the product 1024*1024. *)
Lemma first_stage_changes_level :
  exists (ct_A0 ct_B0 : MCiphertext Z) (t : list Event),
    cA_dot_cB_first_stage (LeveledEngine ctx_example) ctA_example ctB_example
      galois_keys relin_keys 2 8 [] = (Ok (ct_A0, ct_B0), t) /\
    ct_level ct_A0 <> ct_level ctA_example /\
    ct_level ct_B0 <> ct_level ctB_example /\
    ~ (ct_scale ct_A0 == ct_scale ctA_example * ct_scale ctA_example)%Q /\
    ~ (ct_scale ct_B0 == ct_scale ctB_example * ct_scale ctB_example)%Q /\
    In EvRelinearize t /\ In EvRescale t.
Proof.
  eexists. eexists. eexists. split; [vm_compute; reflexivity|].
  simpl. repeat split; try (intros H; vm_compute in H; discriminate H).
  - do 13 right. left. reflexivity.
  - do 14 right. left. reflexivity.
Qed.

(** ** The skips in the unencrypted simulation *)

Section PlainSimulation.
Context {R : Type} {SR : Scalar R}.
Variable n : nat.
Local Abbreviation E := (PlainEngine (R := R) n).

Lemma length_slots_add (a b : list R) : length (slots_add n a b) = n.
Proof. unfold slots_add. rewrite length_map, length_seq. reflexivity. Qed.

Lemma length_np_zeros (k : nat) : length (np_zeros (R := R) k) = k.
Proof. apply repeat_length. Qed.

Lemma nth_all_zero (u : list R) (i : nat) :
  (forall x, In x u -> x = r0) -> nth i u r0 = r0.
Proof.
  intros H. destruct (nth_in_or_default i u r0) as [Hin|Hd]; auto.
Qed.

Lemma slots_mul_zero_diagonal (a u : list R) :
  (forall x, In x u -> x = r0) ->
  slots_mul n a (slots_pad n u) = np_zeros n.
Proof.
  intros H. rewrite np_zeros_map. unfold slots_mul, slots_pad.
  apply map_seq_ext. intros i Hi.
  rewrite (nth_map_seq (fun j => nth j u r0)) by lia.
  rewrite (nth_all_zero u i H). apply rmul_0_r.
Qed.

Lemma slots_add_zeros (a : list R) :
  length a = n -> slots_add n a (np_zeros n) = a.
Proof.
  intros Ha. unfold slots_add.
  transitivity (map (fun i => nth i a r0) (seq 0 n)).
  - apply map_seq_ext. intros i Hi.
    unfold np_zeros. rewrite nth_repeat. apply radd_0_r.
  - rewrite <- Ha. apply map_nth_seq.
Qed.

Lemma length_plain_sum (acc : list (list R)) :
  length (fold_left (slots_add n) acc (np_zeros n)) = n.
Proof.
  destruct acc as [|c acc] using rev_ind.
  - apply length_np_zeros.
  - rewrite fold_left_app. simpl. apply length_slots_add.
Qed.

(** The term of offset [l] in the simulation. *)
Lemma lin_trans_term_plain (m : list R) (gk : GaloisKeys) (s : Q)
    (p l : nat) (u : list R) (t : list Event) :
  lin_trans_term E m gk s p l u t =
  (Ok (slots_mul n (slots_rot n l m) (slots_pad n u)),
   t ++ [EvEncode (length u); EvModSwitchPlain p; EvRotate l;
         EvMultiplyPlain]).
Proof.
  unfold lin_trans_term, bind, call. simpl.
  rewrite <- !app_assoc. reflexivity.
Qed.

Lemma lin_trans_step_plain (U : ndarray R) (m : list R) (gk : GaloisKeys)
    (s : Q) (p l : nat) (acc : list (list R)) (t : list Event) :
  fst (lin_trans_step E U m gk s p l acc t) =
  match diag_repr U (Z.of_nat l) with
  | Raise e => Raise e
  | Ok u =>
      if is_zero_diagonal u then Ok acc
      else Ok (acc ++ [slots_mul n (slots_rot n l m) (slots_pad n u)])
  end.
Proof.
  unfold lin_trans_step. unfold bind at 1, lift.
  destruct (diag_repr U (Z.of_nat l)) as [u|e]; [|reflexivity].
  destruct (is_zero_diagonal u); [reflexivity|].
  unfold bind. rewrite lin_trans_term_plain. reflexivity.
Qed.

Lemma lin_trans_step_unskipped_plain (U : ndarray R) (m : list R)
    (gk : GaloisKeys) (s : Q) (p l : nat) (acc : list (list R))
    (t : list Event) :
  fst (lin_trans_step_unskipped E U m gk s p l acc t) =
  match diag_repr U (Z.of_nat l) with
  | Raise e => Raise e
  | Ok u => Ok (acc ++ [slots_mul n (slots_rot n l m) (slots_pad n u)])
  end.
Proof.
  unfold lin_trans_step_unskipped. unfold bind at 1, lift.
  destruct (diag_repr U (Z.of_nat l)) as [u|e]; [|reflexivity].
  unfold bind. rewrite lin_trans_term_plain. reflexivity.
Qed.

(** The two loops keep the sums of their term vectors equal. *)
Lemma lin_trans_loops_plain (U : ndarray R) (m : list R) (gk : GaloisKeys)
    (s : Q) (p : nat) :
  forall (ls : list nat) (accS accF : list (Ciphertext E))
         (tS tF : list Event),
  fold_left (slots_add n) accS (np_zeros n) =
  fold_left (slots_add n) accF (np_zeros n) ->
  match fst (efor ls (lin_trans_step E U m gk s p) accS tS),
        fst (efor ls (lin_trans_step_unskipped E U m gk s p) accF tF) with
  | Ok a, Ok b =>
      fold_left (slots_add n) a (np_zeros n) =
      fold_left (slots_add n) b (np_zeros n)
  | Raise e, Raise e' => e = e'
  | _, _ => False
  end.
Proof.
  induction ls as [|l ls IH]; intros accS accF tS tF Hsum.
  - simpl. exact Hsum.
  - simpl. unfold bind.
    pose proof (lin_trans_step_plain U m gk s p l accS tS) as HS.
    pose proof (lin_trans_step_unskipped_plain U m gk s p l accF tF) as HF.
    destruct (lin_trans_step E U m gk s p l accS tS) as [rS tS'].
    destruct (lin_trans_step_unskipped E U m gk s p l accF tF) as [rF tF'].
    simpl in HS, HF. subst rS rF.
    destruct (diag_repr U (Z.of_nat l)) as [u|e]; [|reflexivity].
    destruct (is_zero_diagonal u) eqn:Hz.
    + apply IH. rewrite fold_left_app. simpl.
      rewrite is_zero_diagonal_spec in Hz.
      rewrite (slots_mul_zero_diagonal _ u Hz).
      rewrite slots_add_zeros by apply length_plain_sum. exact Hsum.
    + apply IH. rewrite !fold_left_app. simpl. rewrite Hsum. reflexivity.
Qed.

Lemma lin_trans_finish_plain (acc : list (list R)) (rk : option RelinKeys)
    (t : list Event) :
  fst (lin_trans_finish E acc rk t) =
  Ok (fold_left (slots_add n) acc (np_zeros n)).
Proof.
  unfold lin_trans_finish, bind, call. simpl.
  destruct rk; reflexivity.
Qed.

(** In the simulation the optimized and the full linear transform return
    the same vector, or raise the same exception. *)
Lemma lin_trans_skip_pure (U : ndarray R) (m : list R) (gk : GaloisKeys)
    (rk : option RelinKeys) (t t' : list Event) :
  fst (lin_trans E U m gk rk t) = fst (lin_trans_unskipped E U m gk rk t').
Proof.
  unfold lin_trans, lin_trans_unskipped.
  destruct (shape U) as [M N].
  destruct (negb (N =? M)); [reflexivity|].
  cbv beta zeta. unfold bind.
  generalize (scale E m) (parms_id E m). intros s p.
  pose proof (lin_trans_loops_plain U m gk s p
                (seq 0 N) [] [] t t' eq_refl) as H.
  cbv beta in H.
  destruct (efor (seq 0 N) (lin_trans_step E U m gk s p) [] t) as [rS tS].
  destruct (efor (seq 0 N) (lin_trans_step_unskipped E U m gk s p) [] t')
    as [rF tF].
  simpl in H. destruct rS as [a|e], rF as [b|e']; try contradiction.
  - rewrite !lin_trans_finish_plain. f_equal. exact H.
  - simpl. f_equal. exact H.
Qed.

End PlainSimulation.

Lemma bind_ext {A B} (m : Eng A) (f g : A -> Eng B) (t : list Event) :
  (forall a t', f a t' = g a t') -> bind m f t = bind m g t.
Proof.
  intros H. unfold bind. destruct (m t) as [[a|e] t']; [apply H|reflexivity].
Qed.

Lemma bind_cong {A B} (m m' : Eng A) (f : A -> Eng B) (t : list Event) :
  m t = m' t -> bind m f t = bind m' f t.
Proof. intros H. unfold bind. rewrite H. reflexivity. Qed.

Section MatmulSkip.
Context {R : Type} {SR : Scalar R}.

Lemma np_sum_nonzero (v : list R) :
  (forall x, In x v -> x = r0 \/ x = r1) -> In r1 v ->
  reqb (np_sum v) r0 = false.
Proof.
  intros H01 H1. destruct (reqb (np_sum v) r0) eqn:Hs; [|reflexivity].
  exfalso. apply (@r1_neq_0 R SR). apply reqb_eq in Hs.
  apply (np_sum_eq_0 v); try assumption.
  intros x Hx. destruct (H01 x Hx) as [->| ->];
    [apply rnonneg_0 | apply rnonneg_1].
Qed.

(** The entries of a generator's base matrix never sum to zero. *)
Lemma permutation_base_sum (d : nat) (target : nat -> nat -> nat)
    (P : ndarray R) :
  1 <= d ->
  (forall i j, i < d -> j < d -> target i j < d * d) ->
  permutation_base d target = Ok P ->
  reqb (np_sum (data P)) r0 = false.
Proof.
  intros Hd Ht HP.
  destruct (@permutation_base_entries R SR d target Ht)
    as (P' & HP' & Hwf & HS & Hg).
  rewrite HP in HP'. injection HP' as <-.
  assert (Hdd : 0 < d * d) by (destruct d; simpl; lia).
  unfold wf_ndarray, nrows, ncols in Hwf. rewrite HS in Hwf. simpl in Hwf.
  apply np_sum_nonzero.
  - intros x Hx. destruct (In_nth _ _ r0 Hx) as (idx & Hidx & <-).
    rewrite Hwf in Hidx.
    assert (Hr : idx / (d * d) < d * d)
      by (apply Nat.Div0.div_lt_upper_bound; lia).
    assert (Hc : idx mod (d * d) < d * d)
      by (apply Nat.mod_upper_bound; lia).
    pose proof (Hg _ _ Hr Hc) as Hget. unfold get, ncols in Hget.
    rewrite HS in Hget. simpl snd in Hget.
    replace (idx / (d * d) * (d * d) + idx mod (d * d)) with idx in Hget
      by (rewrite (Nat.div_mod_eq idx (d * d)) at 1; lia).
    rewrite Hget. destruct (_ =? _); auto.
  - assert (Hc : target 0 0 < d * d) by (apply Ht; lia).
    pose proof (Hg 0 (target 0 0) Hdd Hc) as Hget.
    rewrite Nat.Div0.div_0_l, Nat.Div0.mod_0_l, Nat.eqb_refl in Hget.
    rewrite <- Hget. unfold get, ncols. rewrite HS. simpl snd.
    apply nth_In. rewrite Hwf. simpl. nia.
Qed.

Variable E : Engine R.

(** The test of line 145 never holds: each step of the loop goes through
    to the two transforms. *)
Lemma shift_step_never_skips (ct_A0 ct_B0 : Ciphertext E)
    (gk : GaloisKeys) (rk : RelinKeys) (d nmax k : nat)
    (st : list (Ciphertext E) * list (Ciphertext E)) (t : list Event) :
  1 <= d ->
  cA_dot_cB_shift_step E ct_A0 ct_B0 gk rk d nmax k st t =
  cA_dot_cB_shift_step_unskipped E ct_A0 ct_B0 gk rk d nmax k st t.
Proof.
  intros Hd.
  unfold cA_dot_cB_shift_step, cA_dot_cB_shift_step_unskipped,
    phi_permutation_k, psi_permutation_k.
  destruct (permutation_base d (phi_target k d)) as [Vk|e] eqn:HV;
    [|reflexivity].
  destruct (permutation_base d (psi_target k d)) as [Wk|e] eqn:HW;
    [|reflexivity].
  simpl pbind. unfold bind at 1, lift at 1. unfold bind at 1, lift at 1.
  unfold bind at 3, lift at 1. unfold bind at 3, lift at 1.
  unfold is_empty_permutation.
  rewrite (permutation_base_sum d _ Vk Hd (@phi_target_bound k d) HV).
  rewrite (permutation_base_sum d _ Wk Hd (@psi_target_bound k d) HW).
  reflexivity.
Qed.

Lemma cA_dot_cB_skip_pure (ct_A ct_B : Ciphertext E) (gk : GaloisKeys)
    (rk : RelinKeys) (d : nat) (t : list Event) :
  cA_dot_cB E ct_A ct_B gk rk d t =
  cA_dot_cB_unskipped E ct_A ct_B gk rk d t.
Proof.
  unfold cA_dot_cB, cA_dot_cB_unskipped.
  destruct (exceeds_half_capacity (d * d) (slot_count E)); [reflexivity|].
  apply bind_ext. intros AB0 t0. cbv zeta.
  apply bind_cong. apply efor_ext.
  intros k Hk s t1. apply in_seq in Hk.
  apply shift_step_never_skips. lia.
Qed.

End MatmulSkip.


(** ** The packing adapters *)

Lemma nth_concat_repeat {A} (l : list A) (k i : nat) (d : A) :
  1 <= k -> i < length l -> nth i (concat (repeat l k)) d = nth i l d.
Proof.
  intros Hk Hi. destruct k as [|k]; [lia|]. simpl.
  apply app_nth1. exact Hi.
Qed.

Lemma length_concat_repeat {A} (l : list A) (k : nat) :
  length (concat (repeat l k)) = k * length l.
Proof.
  induction k as [|k IH]; simpl; [reflexivity|].
  rewrite length_app, IH. reflexivity.
Qed.

Section Packing.
Context {R : Type} {SR : Scalar R}.

Lemma length_slots_pad (n : nat) (v : list R) : length (slots_pad n v) = n.
Proof. unfold slots_pad. rewrite length_map, length_seq. reflexivity. Qed.

Lemma nth_slots_pad (n i : nat) (v : list R) :
  i < n -> nth i (slots_pad n v) r0 = nth i v r0.
Proof.
  intros Hi. unfold slots_pad.
  apply (nth_map_seq (fun j => nth j v r0)). exact Hi.
Qed.

(** The round trip of the leveled engine is exact. *)
Lemma leveled_engine_roundtrip (ctx : Context) :
  engine_roundtrip (LeveledEngine (R := R) ctx) eq.
Proof.
  intros v s Hv. change (length v <= ctx_slot_count ctx) in Hv.
  set (n := ctx_slot_count ctx) in *.
  exists {| pt_slots := slots_pad n v; pt_scale := s;
            pt_level := ctx_top_level ctx |},
         {| ct_slots := slots_pad n v; ct_scale := s;
            ct_level := ctx_top_level ctx; ct_size := 2 |},
         {| pt_slots := slots_pad n v; pt_scale := s;
            pt_level := ctx_top_level ctx |},
         (slots_pad n (slots_pad n v)).
  split; [reflexivity|]. split; [reflexivity|]. split; [reflexivity|].
  split; [reflexivity|]. split.
  - apply length_slots_pad.
  - intros i Hi. rewrite !nth_slots_pad by lia. reflexivity.
Qed.

Variable E : Engine R.
Variable close : R -> R -> Prop.

(** C9, as the code has it.  For a matrix with at least one row and one
    column whose [rows * cols] entries fit the slots, on an engine whose
    own round trip is within the precision [close]: [encrypt_array]
    returns a ciphertext, [decrypt_array] on it returns a matrix of the
    same shape, and every entry of that matrix is [close] to the entry of
    the original. *)
Theorem pack_unpack_roundtrip (matrix : ndarray R) (M N : nat) (s : Q)
    (t : list Event) :
  engine_roundtrip E close ->
  shape matrix = (M, N) -> wf_ndarray matrix ->
  1 <= M -> 1 <= N -> M * N <= slot_count E ->
  exists cipher t1 out t2,
    encrypt_array E matrix s t = (Ok cipher, t1) /\
    decrypt_array E cipher M N t1 = (Ok out, t2) /\
    shape out = (M, N) /\ wf_ndarray out /\
    forall r c, r < M -> c < N -> close (get matrix r c) (get out r c).
Proof.
  intros Hrt HS Hwf HM HN Hfit.
  unfold wf_ndarray, nrows, ncols in Hwf. rewrite HS in Hwf. simpl in Hwf.
  set (k := slot_count E / N / M).
  assert (Hk : 1 <= k).
  { unfold k. rewrite Nat.Div0.div_div.
    apply Nat.div_le_lower_bound; lia. }
  assert (Hlen : length (list_times (flatten matrix) k) = k * (M * N)).
  { unfold list_times, flatten. rewrite length_concat_repeat, Hwf.
    reflexivity. }
  assert (Hkfit : k * (M * N) <= slot_count E).
  { unfold k. rewrite Nat.Div0.div_div.
    rewrite (Nat.mul_comm M N), Nat.mul_comm.
    apply Nat.Div0.mul_div_le. }
  destruct (Hrt (list_times (flatten matrix) k) s) as
    (p & c & p' & w & Henc & Hcr & Hdc & Hdd & Hw & Hclose); [lia|].
  exists c. eexists.
  exists {| shape := (M, N); data := firstn (M * N) w |}. eexists.
  split; [|split; [|split; [|split]]].
  - unfold encrypt_array. rewrite HS. unfold tile_count.
    destruct (Nat.eqb_spec N 0) as [?|_]; [lia|].
    destruct (Nat.eqb_spec M 0) as [?|_]; [lia|].
    unfold bind, lift, call. fold k. rewrite Henc, Hcr. reflexivity.
  - unfold decrypt_array, bind, call, lift. rewrite Hdc, Hdd.
    unfold np_reshape. rewrite length_firstn, Hw.
    rewrite Nat.min_l by lia. rewrite Nat.eqb_refl. reflexivity.
  - reflexivity.
  - unfold wf_ndarray, nrows, ncols. simpl.
    rewrite length_firstn, Hw. lia.
  - intros r c0 Hr Hc.
    assert (Hidx : r * N + c0 < M * N) by nia.
    unfold get, ncols. rewrite HS. simpl snd. simpl data.
    rewrite nth_firstn. apply Nat.ltb_lt in Hidx as Hidx'. rewrite Hidx'.
    rewrite <- (nth_concat_repeat (data matrix) k (r * N + c0) r0 Hk)
      by lia.
    apply Hclose. rewrite Hlen. nia.
Qed.

End Packing.

Lemma pack_unpack_roundtrip_witness :
  engine_roundtrip (LeveledEngine (R := Z) ctx_example) eq /\
  shape M22_example = (2, 2) /\ wf_ndarray M22_example /\
  1 <= 2 /\ 1 <= 2 /\ 2 * 2 <= slot_count (LeveledEngine (R := Z) ctx_example) /\
  exists cipher t1 out t2,
    encrypt_array (LeveledEngine ctx_example) M22_example (1024 # 1)%Q [] =
      (Ok cipher, t1) /\
    decrypt_array (LeveledEngine ctx_example) cipher 2 2 t1 = (Ok out, t2) /\
    shape out = (2, 2) /\ wf_ndarray out /\
    forall r c, r < 2 -> c < 2 -> get M22_example r c = get out r c.
Proof.
  assert (Hfit : 2 * 2 <= slot_count (LeveledEngine (R := Z) ctx_example))
    by (simpl; lia).
  split; [apply leveled_engine_roundtrip|].
  split; [reflexivity|]. split; [reflexivity|].
  split; [lia|]. split; [lia|]. split; [exact Hfit|].
  apply (pack_unpack_roundtrip (LeveledEngine ctx_example) eq M22_example
           2 2 (1024 # 1)%Q [] (leveled_engine_roundtrip ctx_example)
           eq_refl eq_refl); [lia | lia | exact Hfit].
Defined.

(** C9 as stated fails at a matrix without entries: it fits any capacity,
    and [encrypt_array] raises ZeroDivisionError on computing the number of
    tiles, before any engine call. *)
Lemma encrypt_array_empty_matrix :
  wf_ndarray empty_example /\
  nrows empty_example * ncols empty_example
    <= slot_count (LeveledEngine (R := Z) ctx_example) /\
  encrypt_array (LeveledEngine ctx_example) empty_example (1024 # 1)%Q [] =
  (Raise ZeroDivisionError, []).
Proof.
  split; [reflexivity|]. split; [simpl; lia|]. reflexivity.
Qed.

(** ** The skip of zero diagonals on the leveled engine *)

Section LeveledSkip.
Context {R : Type} {SR : Scalar R}.
Variable ctx : Context.
Local Abbreviation E := (LeveledEngine (R := R) ctx).
Local Abbreviation n := (ctx_slot_count ctx).

Variable ct : MCiphertext R.
Hypothesis ct_below_top : ct_level ct <= ctx_top_level ctx.

Local Abbreviation term := (leveled_term ctx ct).
Local Abbreviation total := (leveled_total ctx ct).

Lemma lin_trans_term_leveled_eq (gk : GaloisKeys) (l : nat) (u : list R)
    (t : list Event) :
  lin_trans_term E ct gk (ct_scale ct) (ct_level ct) l u t =
  (Ok (term l u),
   t ++ [EvEncode (length u); EvModSwitchPlain (ct_level ct); EvRotate l;
         EvMultiplyPlain]).
Proof.
  unfold lin_trans_term, bind, call. simpl.
  unfold m_mod_switch_to_plain. simpl.
  pose proof ct_below_top as Hle. apply Nat.leb_le in Hle. rewrite Hle.
  simpl. unfold m_multiply_plain. simpl. rewrite Nat.eqb_refl.
  rewrite <- !app_assoc. reflexivity.
Qed.

Lemma lin_trans_step_leveled (U : ndarray R) (N : nat) (gk : GaloisKeys)
    (l : nat) (acc : list (MCiphertext R)) (t : list Event) :
  shape U = (N, N) -> l < N ->
  exists t',
    lin_trans_step E U ct gk (ct_scale ct) (ct_level ct) l acc t =
    (Ok (if is_zero_diagonal (cyclic_diagonal U N l) then acc
         else acc ++ [term l (cyclic_diagonal U N l)]), t').
Proof.
  intros HS Hl. unfold lin_trans_step. unfold bind at 1, lift.
  rewrite (diag_repr_square U HS Hl).
  destruct (is_zero_diagonal (cyclic_diagonal U N l)).
  - exists t. reflexivity.
  - eexists. erewrite bind_ok; [|apply lin_trans_term_leveled_eq].
    reflexivity.
Qed.

Lemma lin_trans_step_unskipped_leveled (U : ndarray R) (N : nat)
    (gk : GaloisKeys) (l : nat) (acc : list (MCiphertext R))
    (t : list Event) :
  shape U = (N, N) -> l < N ->
  exists t',
    lin_trans_step_unskipped E U ct gk (ct_scale ct) (ct_level ct) l acc t =
    (Ok (acc ++ [term l (cyclic_diagonal U N l)]), t').
Proof.
  intros HS Hl. unfold lin_trans_step_unskipped. unfold bind at 1, lift.
  rewrite (diag_repr_square U HS Hl).
  eexists. erewrite bind_ok; [|apply lin_trans_term_leveled_eq].
  reflexivity.
Qed.

Lemma slots_add_zeros_l (a : list R) :
  length a = n -> slots_add n (np_zeros n) a = a.
Proof.
  intros Ha. unfold slots_add.
  transitivity (map (fun i => nth i a r0) (seq 0 n)).
  - apply map_seq_ext. intros i Hi.
    unfold np_zeros. rewrite nth_repeat. apply radd_0_l.
  - rewrite <- Ha. apply map_nth_seq.
Qed.

Lemma pfor_m_add_total (cs : list (MCiphertext R)) :
  Forall (fun c => exists l u, c = term l u) cs ->
  forall s0 : list R,
  pfor cs (fun x acc => m_add ctx acc x)
    {| ct_slots := s0; ct_scale := Qmult (ct_scale ct) (ct_scale ct);
       ct_level := ct_level ct; ct_size := ct_size ct |} =
  Ok {| ct_slots := fold_left (slots_add n) (map (@ct_slots R) cs) s0;
        ct_scale := Qmult (ct_scale ct) (ct_scale ct);
        ct_level := ct_level ct; ct_size := ct_size ct |}.
Proof.
  induction 1 as [|c cs (l1 & u1 & ->) _ IH]; intros s0; [reflexivity|].
  simpl. unfold m_add. simpl. rewrite Nat.eqb_refl, Qeq_bool_refl. simpl.
  rewrite Nat.max_id. apply IH.
Qed.

Lemma m_add_many_total (acc : list (MCiphertext R)) :
  acc <> [] ->
  Forall (fun c => exists l u, c = term l u) acc ->
  m_add_many ctx acc = Ok (total acc).
Proof.
  destruct acc as [|c0 cs]; [congruence|]. intros _ Hall.
  inversion Hall as [|x xs (l0 & u0 & Hc0) Hcs]; subst. clear Hall.
  unfold leveled_total. simpl map. simpl fold_left.
  rewrite slots_add_zeros_l
    by (unfold slots_mul; rewrite length_map, length_seq; reflexivity).
  simpl m_add_many. unfold leveled_term at 1.
  apply (pfor_m_add_total cs Hcs).
Qed.

Lemma lin_trans_loops_leveled (U : ndarray R) (N : nat) (gk : GaloisKeys) :
  shape U = (N, N) ->
  forall (ls : list nat) (accS accF : list (Ciphertext E))
         (tS tF : list Event),
  (forall l, In l ls -> l < N) ->
  Forall (fun c => exists l u, c = term l u) accS ->
  Forall (fun c => exists l u, c = term l u) accF ->
  ct_slots (total accS) = ct_slots (total accF) ->
  (accS <> [] -> accF <> []) ->
  exists accS' accF',
    fst (efor ls (lin_trans_step E U ct gk (ct_scale ct) (ct_level ct))
           accS tS) = Ok accS' /\
    fst (efor ls (lin_trans_step_unskipped E U ct gk (ct_scale ct)
                    (ct_level ct)) accF tF) = Ok accF' /\
    Forall (fun c => exists l u, c = term l u) accS' /\
    Forall (fun c => exists l u, c = term l u) accF' /\
    ct_slots (total accS') = ct_slots (total accF') /\
    (accS <> [] -> accS' <> []) /\
    (accS' <> [] -> accF' <> []) /\
    (forall l, In l ls ->
       is_zero_diagonal (cyclic_diagonal U N l) = false -> accS' <> []).
Proof.
  intros HS. induction ls as [|l ls IH];
    intros accS accF tS tF Hls HaS HaF Hsum Hne.
  - exists accS, accF. simpl. repeat split; auto; intros l [].
  - assert (Hl : l < N) by (apply Hls; left; reflexivity).
    assert (Hls' : forall x, In x ls -> x < N)
      by (intros x Hx; apply Hls; right; exact Hx).
    set (u := cyclic_diagonal U N l).
    destruct (lin_trans_step_leveled U N gk l accS tS HS Hl) as [tS' HrS].
    destruct (lin_trans_step_unskipped_leveled U N gk l accF tF HS Hl)
      as [tF' HrF].
    fold u in HrS, HrF. simpl efor.
    erewrite (bind_ok _ _ _ _ _ HrS). erewrite (bind_ok _ _ _ _ _ HrF).
    assert (HaF' : Forall (fun c => exists l u, c = term l u)
                     (accF ++ [term l u])).
    { apply Forall_app. split; [exact HaF|]. constructor; eauto. }
    destruct (is_zero_diagonal u) eqn:Hz.
    + destruct (IH accS (accF ++ [term l u]) tS' tF' Hls' HaS HaF')
        as (aS & aF & H1 & H2 & H3 & H4 & H5 & H6 & H7 & H8).
      { unfold leveled_total. simpl. rewrite map_app, fold_left_app. simpl.
        rewrite is_zero_diagonal_spec in Hz.
        rewrite (slots_mul_zero_diagonal n _ u Hz).
        rewrite slots_add_zeros by apply length_plain_sum. exact Hsum. }
      { intros _. destruct accF; discriminate. }
      exists aS, aF. repeat split; auto.
      intros x [<-|Hx] Hx0; [fold u in Hx0; congruence|]. apply (H8 x Hx Hx0).
    + destruct (IH (accS ++ [term l u]) (accF ++ [term l u]) tS' tF' Hls')
        as (aS & aF & H1 & H2 & H3 & H4 & H5 & H6 & H7 & H8); auto.
      { apply Forall_app. split; [exact HaS|]. constructor; eauto. }
      { unfold leveled_total in *. simpl in *. rewrite !map_app, !fold_left_app.
        simpl. rewrite Hsum. reflexivity. }
      { intros _. destruct accF; discriminate. }
      assert (HaS' : aS <> []).
      { apply H6. destruct accS; discriminate. }
      exists aS, aF. repeat split; auto.
Qed.

Lemma lin_trans_finish_leveled (acc : list (MCiphertext R))
    (rk : option RelinKeys) (t : list Event) :
  acc <> [] ->
  Forall (fun c => exists l u, c = term l u) acc ->
  fst (lin_trans_finish E acc rk t) =
  match rk with
  | Some k => pbind (m_relinearize (total acc) k) (m_rescale_to_next ctx)
  | None => Ok (total acc)
  end.
Proof.
  intros Hne Hall. unfold lin_trans_finish, bind, call.
  change (add_many E acc) with (m_add_many ctx acc).
  rewrite (m_add_many_total acc Hne Hall).
  destruct rk as [k|]; [|reflexivity].
  simpl. destruct (m_rescale_to_next ctx _); reflexivity.
Qed.

(** On the leveled engine, for a square matrix with a non-zero diagonal,
    the optimized and the full linear transform return the same
    ciphertext: slots, scale, level and size. *)
Lemma lin_trans_skip_pure_leveled (U : ndarray R) (N l0 : nat)
    (gk : GaloisKeys) (rk : option RelinKeys) (t t' : list Event) :
  shape U = (N, N) -> l0 < N ->
  is_zero_diagonal (cyclic_diagonal U N l0) = false ->
  fst (lin_trans E U ct gk rk t) = fst (lin_trans_unskipped E U ct gk rk t').
Proof.
  intros HS Hl0 Hnz.
  destruct (lin_trans_loops_leveled U N gk HS (seq 0 N) [] [] t t')
    as (aS & aF & H1 & H2 & H3 & H4 & H5 & _ & H7 & H8); auto.
  { intros x Hx. apply in_seq in Hx. lia. }
  assert (HaS : aS <> []) by (apply (H8 l0); [apply in_seq; lia|exact Hnz]).
  assert (HaF : aF <> []) by (apply H7; exact HaS).
  unfold lin_trans, lin_trans_unskipped. rewrite HS, Nat.eqb_refl.
  cbn [negb]. cbv beta iota zeta.
  change (scale E ct) with (ct_scale ct).
  change (parms_id E ct) with (ct_level ct).
  destruct (efor (seq 0 N)
              (lin_trans_step E U ct gk (ct_scale ct) (ct_level ct)) [] t)
    as [rS tS] eqn:ES.
  destruct (efor (seq 0 N)
              (lin_trans_step_unskipped E U ct gk (ct_scale ct)
                 (ct_level ct)) [] t')
    as [rF tF] eqn:EF.
  simpl in H1, H2. subst rS rF.
  erewrite (bind_ok _ _ _ _ _ ES). erewrite (bind_ok _ _ _ _ _ EF).
  rewrite (lin_trans_finish_leveled aS rk tS HaS H3).
  rewrite (lin_trans_finish_leveled aF rk tF HaF H4).
  assert (Ht : total aS = total aF).
  { unfold leveled_total in *. simpl in H5. rewrite H5. reflexivity. }
  rewrite Ht. reflexivity.
Qed.

End LeveledSkip.

Section SkipPurity.
Context {R : Type} {SR : Scalar R}.

(** C8. In the unencrypted simulation of the same arithmetic, for every
    input, [lin_trans] with its skip of the offsets whose diagonal is the
    zero vector returns exactly what the full computation returns (or
    raises the same exception); and the skip of [cA_dot_cB] for steps
    whose permutation matrix sums to zero never fires, so on every engine
    the evaluator and its full version are the same computation, log
    included.  On the leveled engine too the optimized and the full
    linear transform return the same ciphertext, as soon as the square
    matrix has a non-zero diagonal to start the sum from. *)
Theorem skips_are_pure :
  (forall (n : nat) (U : ndarray R) (m : list R) (gk : GaloisKeys)
          (rk : option RelinKeys) (t t' : list Event),
     fst (lin_trans (PlainEngine n) U m gk rk t) =
     fst (lin_trans_unskipped (PlainEngine n) U m gk rk t')) /\
  (forall (E : Engine R) (ct_A ct_B : Ciphertext E) (gk : GaloisKeys)
          (rk : RelinKeys) (d : nat) (t : list Event),
     cA_dot_cB E ct_A ct_B gk rk d t =
     cA_dot_cB_unskipped E ct_A ct_B gk rk d t) /\
  (forall (ctx : Context) (ct : MCiphertext R) (U : ndarray R) (N l0 : nat)
          (gk : GaloisKeys) (rk : option RelinKeys) (t t' : list Event),
     ct_level ct <= ctx_top_level ctx ->
     shape U = (N, N) -> l0 < N ->
     is_zero_diagonal (cyclic_diagonal U N l0) = false ->
     fst (lin_trans (LeveledEngine ctx) U ct gk rk t) =
     fst (lin_trans_unskipped (LeveledEngine ctx) U ct gk rk t')).
Proof.
  split; [|split].
  - intros. apply lin_trans_skip_pure.
  - intros. apply cA_dot_cB_skip_pure.
  - intros ctx ct U N l0 gk rk t t' Hle HS Hl0 Hnz.
    apply (lin_trans_skip_pure_leveled ctx ct Hle U N l0 gk rk t t' HS Hl0 Hnz).
Qed.

End SkipPurity.

Lemma skips_are_pure_witness :
  fst (lin_trans (PlainEngine 8) zero2_example [1; 2; 3; 4; 1; 2; 3; 4]%Z
         galois_keys None []) =
  fst (lin_trans_unskipped (PlainEngine 8) zero2_example
         [1; 2; 3; 4; 1; 2; 3; 4]%Z galois_keys None []) /\
  cA_dot_cB (LeveledEngine ctx_example) ctA_example ctB_example galois_keys
    relin_keys 2 [] =
  cA_dot_cB_unskipped (LeveledEngine ctx_example) ctA_example ctB_example
    galois_keys relin_keys 2 [] /\
  ct_level ctA_example <= ctx_top_level ctx_example /\
  shape U3_example = (3, 3) /\ 0 < 3 /\
  is_zero_diagonal (cyclic_diagonal U3_example 3 0) = false /\
  fst (lin_trans (LeveledEngine ctx_example) U3_example ctA_example
         galois_keys (Some relin_keys) []) =
  fst (lin_trans_unskipped (LeveledEngine ctx_example) U3_example ctA_example
         galois_keys (Some relin_keys) []).
Proof.
  assert (Hle : ct_level ctA_example <= ctx_top_level ctx_example)
    by (simpl; lia).
  destruct (@skips_are_pure Z Z_Scalar) as (H1 & H2 & H3).
  split; [apply H1|]. split; [apply H2|]. split; [exact Hle|].
  split; [reflexivity|]. split; [lia|]. split; [reflexivity|].
  apply (H3 ctx_example ctA_example U3_example 3 0 galois_keys
           (Some relin_keys) [] [] Hle eq_refl); [lia | reflexivity].
Defined.

(** * Further properties of the example's functions *)

(** ** The window of offsets [diag_repr] accepts *)

Section DiagonalWindow.
Context {R : Type} {SR : Scalar R}.

Lemma length_np_diag_square (U : ndarray R) (N : nat) (k : Z) :
  shape U = (N, N) ->
  length (np_diag U k) = N - Z.to_nat (Z.abs k).
Proof.
  intros HS. unfold np_diag, nrows, ncols. rewrite HS. simpl.
  destruct (Z.leb_spec 0 k); rewrite length_map, length_seq; lia.
Qed.

(** X1. For a square N-by-N matrix with [N >= 1], [diag_repr] accepts the
    offsets [0 <= l <= N] and no other: at [l = N] it returns the main
    diagonal, as at [l = 0]; below 0 and above [N] it raises the
    out-of-bounds exception. *)
Theorem diag_repr_offset_window (U : ndarray R) (N : nat) (l : Z) :
  shape U = (N, N) -> 1 <= N ->
  ((0 <= l <= Z.of_nat N)%Z ->
     diag_repr U l = Ok (cyclic_diagonal U N (Z.to_nat l mod N))) /\
  ((l < 0 \/ Z.of_nat N < l)%Z ->
     diag_repr U l = Raise (Exception "diag_repr index is out of bounds")).
Proof.
  intros HS HN. split.
  - intros Hl. destruct (Z.eq_dec l (Z.of_nat N)) as [->|Hne].
    + rewrite Nat2Z.id, Nat.Div0.mod_same.
      unfold diag_repr. rewrite HS, Nat.eqb_refl. cbn [negb]. cbv iota zeta.
      replace (- Z.of_nat N + Z.of_nat N)%Z with (Z.of_nat 0) by lia.
      rewrite (@np_diag_upper R SR U N N HS (le_n N)).
      rewrite (@np_diag_upper R SR U N 0 HS (Nat.le_0_l N)).
      rewrite Nat.sub_diag, Nat.sub_0_r. simpl app.
      rewrite length_map, length_seq, Nat.eqb_refl. cbn [negb].
      f_equal. unfold cyclic_diagonal. apply map_seq_ext. intros i Hi.
      rewrite Nat.mod_small by lia. reflexivity.
    + assert (Hlt : Z.to_nat l < N) by lia.
      rewrite Nat.mod_small by exact Hlt.
      rewrite <- (@diag_repr_square R SR U N (Z.to_nat l) HS Hlt).
      rewrite Z2Nat.id by lia. reflexivity.
  - intros Hl. unfold diag_repr. rewrite HS, Nat.eqb_refl. cbn [negb].
    cbv iota zeta. rewrite length_app.
    rewrite !(length_np_diag_square U N _ HS).
    destruct (Nat.eqb_spec (N - Z.to_nat (Z.abs l) +
                            (N - Z.to_nat (Z.abs (- Z.of_nat N + l)))) N)
      as [He|Hne]; [exfalso; lia | reflexivity].
Qed.

End DiagonalWindow.

Lemma diag_repr_offset_window_witness :
  shape U3_example = (3, 3) /\ 1 <= 3 /\
  diag_repr U3_example 3 = Ok [1; 5; 9]%Z /\
  diag_repr U3_example 4 =
    Raise (Exception "diag_repr index is out of bounds") /\
  diag_repr U3_example (-1) =
    Raise (Exception "diag_repr index is out of bounds").
Proof.
  split; [reflexivity|]. split; [lia|].
  split; [|split].
  - destruct (diag_repr_offset_window U3_example 3 3 eq_refl ltac:(lia))
      as [H _]. rewrite H by lia. reflexivity.
  - destruct (diag_repr_offset_window U3_example 3 4 eq_refl ltac:(lia))
      as [_ H]. apply H. lia.
  - destruct (diag_repr_offset_window U3_example 3 (-1) eq_refl ltac:(lia))
      as [_ H]. apply H. lia.
Defined.

(** ** What [lin_trans] returns on the leveled engine *)

Lemma fst_ok {A} (m : Eng A) (t : list Event) (a : A) :
  fst (m t) = Ok a -> m t = (Ok a, snd (m t)).
Proof. destruct (m t) as [r t']. simpl. intros ->. reflexivity. Qed.

Section LeveledValue.
Context {R : Type} {SR : Scalar R}.
Variable ctx : Context.
Local Abbreviation E := (LeveledEngine (R := R) ctx).
Local Abbreviation n := (ctx_slot_count ctx).

Variable ct : MCiphertext R.
Hypothesis ct_below_top : ct_level ct <= ctx_top_level ctx.

Lemma efor_unskipped_leveled (U : ndarray R) (N : nat) (gk : GaloisKeys) :
  shape U = (N, N) ->
  forall (ls : list nat) (acc : list (Ciphertext E)) (t : list Event),
  (forall l, In l ls -> l < N) ->
  fst (efor ls (lin_trans_step_unskipped E U ct gk (ct_scale ct)
                  (ct_level ct)) acc t) =
  Ok (acc ++ map (fun l => leveled_term ctx ct l (cyclic_diagonal U N l)) ls).
Proof.
  intros HS. induction ls as [|l ls IH]; intros acc t Hls.
  - simpl. rewrite app_nil_r. reflexivity.
  - assert (Hl : l < N) by (apply Hls; left; reflexivity).
    destruct (lin_trans_step_unskipped_leveled ctx ct ct_below_top U N gk l
                acc t HS Hl) as [t' Hstep].
    simpl efor. erewrite (bind_ok _ _ _ _ _ Hstep).
    rewrite IH by (intros x Hx; apply Hls; right; exact Hx).
    simpl. rewrite <- app_assoc. reflexivity.
Qed.

Lemma lin_trans_sum_leveled (U : ndarray R) (N l0 : nat) (gk : GaloisKeys)
    (t : list Event) :
  shape U = (N, N) -> l0 < N ->
  is_zero_diagonal (cyclic_diagonal U N l0) = false ->
  exists (acc : list (Ciphertext E)) (t' : list Event),
    efor (seq 0 N) (lin_trans_step E U ct gk (ct_scale ct) (ct_level ct))
      [] t = (Ok acc, t') /\
    acc <> [] /\
    Forall (fun c => exists l u, c = leveled_term ctx ct l u) acc /\
    ct_slots (leveled_total ctx ct acc) = lin_trans_slots n U (ct_slots ct).
Proof.
  intros HS Hl0 Hnz.
  assert (Hseq : forall x, In x (seq 0 N) -> x < N)
    by (intros x Hx; apply in_seq in Hx; lia).
  destruct (lin_trans_loops_leveled ctx ct ct_below_top U N gk HS (seq 0 N)
              [] [] t t Hseq (Forall_nil _) (Forall_nil _) eq_refl
              (fun H => H))
    as (aS & aF & H1 & H2 & H3 & H4 & H5 & _ & _ & H8).
  rewrite (efor_unskipped_leveled U N gk HS (seq 0 N) [] t Hseq) in H2.
  injection H2 as H2. simpl in H2. subst aF.
  exists aS. eexists. split; [apply fst_ok; exact H1|].
  split; [apply (H8 l0); [apply in_seq; lia | exact Hnz]|].
  split; [exact H3|]. rewrite H5.
  unfold leveled_total, lin_trans_slots, nrows. rewrite HS. simpl.
  rewrite map_map. reflexivity.
Qed.

(** With relinearization keys: the sum of the terms, one level down, at
    the squared scale divided by the dropped modulus. *)
Lemma lin_trans_leveled_value (U : ndarray R) (N l0 l : nat)
    (gk : GaloisKeys) (rk : RelinKeys) (t : list Event) :
  shape U = (N, N) -> l0 < N ->
  is_zero_diagonal (cyclic_diagonal U N l0) = false ->
  ct_level ct = S l ->
  exists t',
    lin_trans E U ct gk (Some rk) t =
    (Ok {| ct_slots := lin_trans_slots n U (ct_slots ct);
           ct_scale := Qdiv (Qmult (ct_scale ct) (ct_scale ct))
                            (ctx_modulus ctx (S l));
           ct_level := l; ct_size := 2 |}, t').
Proof.
  intros HS Hl0 Hnz Hlvl.
  destruct (lin_trans_sum_leveled U N l0 gk t HS Hl0 Hnz)
    as (acc & t1 & Hrun & Hne & Hall & Hslots).
  pose proof (lin_trans_finish_leveled ctx ct acc (Some rk) t1 Hne Hall)
    as Hfin.
  assert (Hval :
    pbind (m_relinearize (leveled_total ctx ct acc) rk)
          (m_rescale_to_next ctx) =
    Ok {| ct_slots := lin_trans_slots n U (ct_slots ct);
          ct_scale := Qdiv (Qmult (ct_scale ct) (ct_scale ct))
                           (ctx_modulus ctx (S l));
          ct_level := l; ct_size := 2 |}).
  { rewrite <- Hslots. unfold m_relinearize, m_rescale_to_next, pbind.
    simpl. rewrite Hlvl. reflexivity. }
  pose proof (eq_trans Hfin Hval) as Hfin'.
  eexists. unfold lin_trans. rewrite HS, Nat.eqb_refl. cbn [negb].
  cbv beta iota zeta. erewrite bind_ok; [|exact Hrun].
  apply (fst_ok _ _ _ Hfin').
Qed.

End LeveledValue.

(** ** The slots of a linear transform *)

Lemma shift_mod_back (d s x : nat) :
  x < d -> ((x + s) mod d + (d - s mod d)) mod d = x.
Proof.
  intros Hx. rewrite Nat.Div0.add_mod_idemp_l.
  assert (Hs : s mod d < d) by (apply Nat.mod_upper_bound; lia).
  replace (x + s + (d - s mod d)) with (x + (s / d + 1) * d).
  - rewrite Nat.Div0.mod_add. apply Nat.mod_small. exact Hx.
  - pose proof (Nat.div_mod_eq s d) as Hdm.
    set (q := s / d) in *. set (r := s mod d) in *. nia.
Qed.

Lemma shift_mod_forth (d s z : nat) :
  z < d -> ((z + (d - s mod d)) mod d + s) mod d = z.
Proof.
  intros Hz. rewrite Nat.Div0.add_mod_idemp_l.
  assert (Hs : s mod d < d) by (apply Nat.mod_upper_bound; lia).
  replace (z + (d - s mod d) + s) with (z + (s / d + 1) * d).
  - rewrite Nat.Div0.mod_add. apply Nat.mod_small. exact Hz.
  - pose proof (Nat.div_mod_eq s d) as Hdm.
    set (q := s / d) in *. set (r := s mod d) in *. nia.
Qed.

Lemma shift_mod_inj (d s x y : nat) :
  x < d -> y < d -> (x + s) mod d = (y + s) mod d -> x = y.
Proof.
  intros Hx Hy H.
  rewrite <- (shift_mod_back d s x Hx), <- (shift_mod_back d s y Hy), H.
  reflexivity.
Qed.

(** The offset at which row [i] of a cyclic diagonal meets column [c]. *)
Lemma diagonal_offset (N i c : nat) :
  i < N -> c < N ->
  let l := (c + (N - i)) mod N in
  l < N /\ (i + l) mod N = c /\
  (i + l = c \/ i + l = c + N) /\
  forall l', l' < N -> (i + l') mod N = c -> l' = l.
Proof.
  intros Hi Hc l.
  assert (Hl : l < N) by (apply Nat.mod_upper_bound; lia).
  assert (Hval : l = c - i /\ i <= c \/ l = c + N - i /\ c < i).
  { unfold l. destruct (Nat.le_gt_cases i c) as [Hle|Hgt].
    - left. split; [|exact Hle].
      replace (c + (N - i)) with ((c - i) + 1 * N) by lia.
      rewrite Nat.Div0.mod_add. apply Nat.mod_small. lia.
    - right. split; [|exact Hgt]. rewrite Nat.mod_small by lia. lia. }
  assert (Hmeet : (i + l) mod N = c).
  { destruct Hval as [[-> Hle]|[-> Hgt]].
    - replace (i + (c - i)) with c by lia. apply Nat.mod_small. exact Hc.
    - replace (i + (c + N - i)) with (c + 1 * N) by lia.
      rewrite Nat.Div0.mod_add. apply Nat.mod_small. exact Hc. }
  split; [exact Hl|]. split; [exact Hmeet|]. split; [lia|].
  intros l' Hl' H'. apply (shift_mod_inj N i l' l Hl' Hl).
  rewrite (Nat.add_comm l' i), (Nat.add_comm l i). congruence.
Qed.

Section SlotsFormula.
Context {R : Type} {SR : Scalar R}.
Variable n : nat.

Lemma np_sum_app (xs ys : list R) :
  np_sum (xs ++ ys) = radd (np_sum xs) (np_sum ys).
Proof.
  induction xs as [|x xs IH]; simpl.
  - rewrite radd_0_l. reflexivity.
  - rewrite IH. apply radd_assoc.
Qed.

(** A sum with at most one non-zero term is that term. *)
Lemma np_sum_single (f : nat -> R) (N l : nat) :
  l < N -> (forall l', l' < N -> l' <> l -> f l' = r0) ->
  np_sum (map f (seq 0 N)) = f l.
Proof.
  intros Hl Hz.
  assert (Hseq : seq 0 N = seq 0 l ++ l :: seq (S l) (N - S l)).
  { replace N with (l + S (N - S l)) at 1 by lia.
    rewrite seq_app. reflexivity. }
  rewrite Hseq, map_app, np_sum_app. simpl.
  rewrite (np_sum_zeros (map f (seq 0 l))).
  2:{ intros x Hx. apply in_map_iff in Hx. destruct Hx as (l' & <- & Hl').
      apply in_seq in Hl'. apply Hz; lia. }
  rewrite (np_sum_zeros (map f (seq (S l) (N - S l)))).
  2:{ intros x Hx. apply in_map_iff in Hx. destruct Hx as (l' & <- & Hl').
      apply in_seq in Hl'. apply Hz; lia. }
  rewrite radd_0_l, radd_0_r. reflexivity.
Qed.

Lemma slots_add_map_seq (f g : nat -> R) :
  slots_add n (map f (seq 0 n)) (map g (seq 0 n)) =
  map (fun i => radd (f i) (g i)) (seq 0 n).
Proof.
  unfold slots_add. apply map_seq_ext. intros i Hi.
  rewrite (nth_map_seq f), (nth_map_seq g) by lia. reflexivity.
Qed.

Lemma fold_left_slots_add_map_seq (F : nat -> nat -> R) (ls : list nat) :
  forall a : nat -> R,
  fold_left (slots_add n) (map (fun l => map (F l) (seq 0 n)) ls)
    (map a (seq 0 n)) =
  map (fun i => fold_left radd (map (fun l => F l i) ls) (a i)) (seq 0 n).
Proof.
  induction ls as [|l ls IH]; intros a; simpl; [reflexivity|].
  rewrite slots_add_map_seq. rewrite IH. reflexivity.
Qed.

Lemma nth_slots_rot (l i : nat) (m : list R) :
  i < n -> nth i (slots_rot n l m) r0 = nth ((i + l) mod n) m r0.
Proof.
  intros Hi. unfold slots_rot.
  apply (nth_map_seq (fun j => nth ((j + l) mod n) m r0)). exact Hi.
Qed.

Lemma nth_slots_mul (a b : list R) (i : nat) :
  i < n -> nth i (slots_mul n a b) r0 = rmul (nth i a r0) (nth i b r0).
Proof.
  intros Hi. unfold slots_mul.
  apply (nth_map_seq (fun j => rmul (nth j a r0) (nth j b r0))). exact Hi.
Qed.

Lemma nth_slots_add (a b : list R) (i : nat) :
  i < n -> nth i (slots_add n a b) r0 = radd (nth i a r0) (nth i b r0).
Proof.
  intros Hi. unfold slots_add.
  apply (nth_map_seq (fun j => radd (nth j a r0) (nth j b r0))). exact Hi.
Qed.

Lemma length_lin_trans_slots (U : ndarray R) (m : list R) :
  length (lin_trans_slots n U m) = n.
Proof. unfold lin_trans_slots. apply length_plain_sum. Qed.

(** Slot [i] of a linear transform: the sum over the offsets of the
    rotated slot times the diagonal's entry. *)
Lemma nth_lin_trans_slots (U : ndarray R) (m : list R) (i : nat) :
  i < n ->
  nth i (lin_trans_slots n U m) r0 =
  np_sum (map (fun l => rmul (nth ((i + l) mod n) m r0)
                             (nth i (cyclic_diagonal U (nrows U) l) r0))
              (seq 0 (nrows U))).
Proof.
  intros Hi. unfold lin_trans_slots.
  rewrite (map_ext_in _
             (fun l => map (fun j => rmul (nth ((j + l) mod n) m r0)
                                       (nth j (cyclic_diagonal U (nrows U) l) r0))
                           (seq 0 n))).
  2:{ intros l _. unfold slots_mul. apply map_seq_ext. intros j Hj.
      rewrite nth_slots_rot, nth_slots_pad by lia. reflexivity. }
  rewrite np_zeros_map.
  rewrite (fold_left_slots_add_map_seq
             (fun l j => rmul (nth ((j + l) mod n) m r0)
                           (nth j (cyclic_diagonal U (nrows U) l) r0))).
  rewrite (@nth_map_seq _ _ n i r0 Hi).
  apply fold_left_radd_sum.
Qed.

Lemma nth_cyclic_diagonal (U : ndarray R) (N l i : nat) :
  i < N -> nth i (cyclic_diagonal U N l) r0 = get U i ((i + l) mod N).
Proof.
  intros Hi. unfold cyclic_diagonal.
  apply (nth_map_seq (fun j => get U j ((j + l) mod N))). exact Hi.
Qed.

(** Beyond the size of the matrix the slots are zero. *)
Lemma lin_trans_slots_beyond (U : ndarray R) (m : list R) (i : nat) :
  nrows U <= i -> i < n -> nth i (lin_trans_slots n U m) r0 = r0.
Proof.
  intros HN Hi. rewrite nth_lin_trans_slots by exact Hi.
  apply np_sum_zeros. intros x Hx. apply in_map_iff in Hx.
  destruct Hx as (l & <- & _).
  rewrite (nth_overflow (cyclic_diagonal U (nrows U) l)).
  - apply rmul_0_r.
  - unfold cyclic_diagonal. rewrite length_map, length_seq. exact HN.
Qed.

Hypothesis rmul_comm : forall x y : R, rmul x y = rmul y x.

(** A 0/1 matrix with its one of row [i] in column [p i] moves slot [p i]
    to slot [i], provided the slots repeat after [N] places. *)
Lemma lin_trans_slots_permutation (U : ndarray R) (N : nat) (p : nat -> nat)
    (m : list R) :
  shape U = (N, N) -> N <= n ->
  (forall i, i < N -> p i < N) ->
  (forall i c, i < N -> c < N ->
     get U i c = if c =? p i then r1 else r0) ->
  (forall x, x < N -> nth ((x + N) mod n) m r0 = nth x m r0) ->
  forall i, i < N -> nth i (lin_trans_slots n U m) r0 = nth (p i) m r0.
Proof.
  intros HS HNn Hp HU Hper i Hi.
  rewrite nth_lin_trans_slots by lia.
  unfold nrows. rewrite HS. simpl fst.
  destruct (diagonal_offset N i (p i) Hi (Hp i Hi)) as (Hl & Hmeet & Hsum & Huniq).
  set (l := (p i + (N - i)) mod N) in *.
  rewrite (np_sum_single _ N l Hl).
  - rewrite nth_cyclic_diagonal by exact Hi.
    rewrite Hmeet, (HU i (p i) Hi (Hp i Hi)), Nat.eqb_refl.
    rewrite rmul_comm, rmul_1_l.
    destruct Hsum as [->| ->].
    + rewrite Nat.mod_small by (specialize (Hp i Hi); lia). reflexivity.
    + apply Hper. apply Hp. exact Hi.
  - intros l' Hl' Hne. rewrite nth_cyclic_diagonal by exact Hi.
    rewrite (HU i _ Hi) by (apply Nat.mod_upper_bound; lia).
    destruct (Nat.eqb_spec ((i + l') mod N) (p i)) as [He|_].
    + exfalso. apply Hne. apply Huniq; assumption.
    + apply rmul_0_r.
Qed.

(** On slots that repeat the vector [v] along every diagonal, the first
    [N] slots of the transform are the matrix-vector product. *)
Lemma lin_trans_slots_dot (U : ndarray R) (N : nat) (m v : list R) :
  shape U = (N, N) -> N <= n ->
  (forall i l, i < N -> l < N ->
     nth ((i + l) mod n) m r0 = nth ((i + l) mod N) v r0) ->
  forall i, i < N ->
  nth i (lin_trans_slots n U m) r0 = nth i (np_dot U v) r0.
Proof.
  intros HS HNn Hm i Hi.
  rewrite nth_lin_trans_slots by lia.
  unfold np_dot, nrows, ncols. rewrite HS. simpl fst. simpl snd.
  rewrite (@nth_map_seq _ _ N i r0 Hi).
  rewrite (map_ext_in _
             (fun l => rmul (get U i ((i + l) mod N))
                            (nth ((i + l) mod N) v r0))).
  2:{ intros l Hl. apply in_seq in Hl.
      rewrite nth_cyclic_diagonal by exact Hi.
      rewrite (Hm i l Hi) by lia. apply rmul_comm. }
  rewrite <- (map_map (fun l => (i + l) mod N)
                (fun j => rmul (get U i j) (nth j v r0))).
  apply np_sum_perm. apply Permutation_map. apply cyclic_shift_perm. exact Hi.
Qed.

End SlotsFormula.

(** ** Tiled slot vectors *)

Lemma mod_mod_mul (z N q : nat) : (z mod (N * q)) mod N = z mod N.
Proof.
  rewrite Nat.Div0.mod_mul_r.
  rewrite (Nat.mul_comm N), Nat.Div0.mod_add. apply Nat.Div0.mod_mod.
Qed.

Lemma nth_list_repeat {A} (a : list A) (d : A) :
  forall k y, y < k * length a ->
  nth y (concat (repeat a k)) d = nth (y mod length a) a d.
Proof.
  induction k as [|k IH]; intros y Hy; [simpl in Hy; lia|].
  simpl. destruct (Nat.lt_ge_cases y (length a)) as [Hlt|Hge].
  - rewrite app_nth1 by exact Hlt. rewrite Nat.mod_small by exact Hlt.
    reflexivity.
  - rewrite app_nth2 by exact Hge. rewrite IH by (simpl in Hy; lia).
    f_equal. replace y with ((y - length a) + 1 * length a) at 2 by lia.
    rewrite Nat.Div0.mod_add. reflexivity.
Qed.

Section Tiling.
Context {R : Type} {SR : Scalar R}.

(** The slots [encrypt_array] fills: the flattened matrix repeated
    [n / len] times, zeros after. *)
Lemma nth_packed (n : nat) (a : list R) (y : nat) :
  y < (n / length a) * length a ->
  nth y (slots_pad n (list_times a (n / length a))) r0 =
  nth (y mod length a) a r0.
Proof.
  intros Hy.
  assert (Hyn : y < n).
  { pose proof (Nat.Div0.mul_div_le n (length a)). lia. }
  rewrite nth_slots_pad by exact Hyn.
  unfold list_times. apply nth_list_repeat. exact Hy.
Qed.

Lemma packed_tiled (n : nat) (a : list R) :
  1 <= length a -> length a <= n ->
  n mod length a = 0 \/ 4 * length a <= n ->
  tiled n a (slots_pad n (list_times a (n / length a))).
Proof.
  intros Ha Hn [Hdiv|H4] y Hy.
  - assert (Hn' : n = length a * (n / length a)).
    { pose proof (Nat.div_mod_eq n (length a)) as Hdm.
      rewrite Hdiv in Hdm. lia. }
    rewrite nth_packed.
    + f_equal. rewrite Hn' at 1. apply mod_mod_mul.
    + rewrite Nat.mul_comm, <- Hn'. apply Nat.mod_upper_bound. lia.
  - rewrite (Nat.mod_small y n) by lia.
    apply nth_packed.
    assert (H4' : 4 <= n / length a)
      by (apply Nat.div_le_lower_bound; lia).
    apply Nat.lt_le_trans with (4 * length a); [exact Hy|].
    apply Nat.mul_le_mono_r. exact H4'.
Qed.

(** Along every diagonal of an N-by-N matrix the packed slots repeat the
    vector, when the vector divides the slots or fits them twice. *)
Lemma packed_diagonals (n : nat) (a : list R) (i l : nat) :
  1 <= length a -> length a <= n ->
  n mod length a = 0 \/ 2 * length a <= n ->
  i < length a -> l < length a ->
  nth ((i + l) mod n) (slots_pad n (list_times a (n / length a))) r0 =
  nth ((i + l) mod length a) a r0.
Proof.
  intros Ha Hn Hcase Hi Hl.
  destruct Hcase as [Hdiv|H2].
  - assert (Hn' : n = length a * (n / length a)).
    { pose proof (Nat.div_mod_eq n (length a)) as Hdm.
      rewrite Hdiv in Hdm. lia. }
    rewrite nth_packed.
    + f_equal. rewrite Hn' at 1. apply mod_mod_mul.
    + rewrite Nat.mul_comm, <- Hn'. apply Nat.mod_upper_bound. lia.
  - rewrite (Nat.mod_small (i + l) n) by lia.
    apply nth_packed.
    assert (H2' : 2 <= n / length a)
      by (apply Nat.div_le_lower_bound; lia).
    apply Nat.lt_le_trans with (2 * length a); [lia|].
    apply Nat.mul_le_mono_r. exact H2'.
Qed.

End Tiling.

(** ** The matrix-vector pipeline on the leveled engine *)

Section MatvecLeveled.
Context {R : Type} {SR : Scalar R}.
Variable ctx : Context.
Local Abbreviation E := (LeveledEngine (R := R) ctx).
Local Abbreviation n := (ctx_slot_count ctx).

Hypothesis rmul_comm : forall x y : R, rmul x y = rmul y x.

(** X2. On the leveled engine, for a ciphertext at level [S l] (not above
    the top) whose slots repeat a vector [v] along the diagonals of a
    square N-by-N matrix [U] with a non-zero diagonal and [N] within the
    slots: [lin_trans] with relinearization keys returns a ciphertext one
    level down, at the squared scale divided by the dropped modulus,
    whose first [N] slots are [U.dot(v)] and whose other slots are
    zero. *)
Theorem lin_trans_leveled_matvec (ct : MCiphertext R) (U : ndarray R)
    (N l0 l : nat) (v : list R) (gk : GaloisKeys) (rk : RelinKeys)
    (t : list Event) :
  ct_level ct = S l -> S l <= ctx_top_level ctx ->
  shape U = (N, N) -> N <= n -> l0 < N ->
  is_zero_diagonal (cyclic_diagonal U N l0) = false ->
  (forall i l', i < N -> l' < N ->
     nth ((i + l') mod n) (ct_slots ct) r0 = nth ((i + l') mod N) v r0) ->
  exists out t',
    lin_trans E U ct gk (Some rk) t = (Ok out, t') /\
    ct_level out = l /\
    ct_scale out = Qdiv (Qmult (ct_scale ct) (ct_scale ct))
                        (ctx_modulus ctx (S l)) /\
    length (ct_slots out) = n /\
    (forall i, i < N -> nth i (ct_slots out) r0 = nth i (np_dot U v) r0) /\
    (forall i, N <= i -> i < n -> nth i (ct_slots out) r0 = r0).
Proof.
  intros Hlvl Htop HS HNn Hl0 Hnz Hper.
  assert (Hle : ct_level ct <= ctx_top_level ctx) by lia.
  destruct (lin_trans_leveled_value ctx ct Hle U N l0 l gk rk t HS Hl0 Hnz
              Hlvl) as [t' Hrun].
  eexists. exists t'. split; [exact Hrun|]. simpl.
  split; [reflexivity|]. split; [reflexivity|].
  split; [apply length_lin_trans_slots|]. split.
  - intros i Hi.
    apply (lin_trans_slots_dot n rmul_comm U N (ct_slots ct) v HS HNn Hper i Hi).
  - intros i Hi Hin. apply lin_trans_slots_beyond; [|exact Hin].
    unfold nrows. rewrite HS. exact Hi.
Qed.

Lemma encrypt_array_leveled (matrix : ndarray R) (M N : nat) (s : Q)
    (t : list Event) :
  shape matrix = (M, N) -> 1 <= M -> 1 <= N ->
  exists t',
    encrypt_array E matrix s t =
    (Ok {| ct_slots := slots_pad n (list_times (data matrix) (n / N / M));
           ct_scale := s; ct_level := ctx_top_level ctx; ct_size := 2 |},
     t').
Proof.
  intros HS HM HN. unfold encrypt_array. rewrite HS. unfold tile_count.
  destruct (Nat.eqb_spec N 0) as [?|_]; [lia|].
  destruct (Nat.eqb_spec M 0) as [?|_]; [lia|].
  unfold bind, lift, call. simpl. eexists. reflexivity.
Qed.

Lemma decrypt_array_leveled (c : MCiphertext R) (M N : nat)
    (t : list Event) :
  M * N <= n ->
  exists t',
    decrypt_array E c M N t =
    (Ok {| shape := (M, N);
           data := firstn (M * N) (slots_pad n (ct_slots c)) |}, t').
Proof.
  intros Hfit. unfold decrypt_array, bind, call, lift. simpl.
  unfold np_reshape. rewrite length_firstn, length_slots_pad.
  rewrite Nat.min_l by exact Hfit. rewrite Nat.eqb_refl.
  eexists. reflexivity.
Qed.

(** X3. The pipeline of the matrix-vector example on the leveled engine:
    for a square N-by-N matrix [U] with a non-zero diagonal and an N-by-1
    column [m], with [N] dividing the slot count or fitting it twice, and
    at least one level below the top of the chain, packing and encrypting
    [m], applying [U] and unpacking [N] rows returns exactly the column
    [U.dot(m)]. *)
Theorem example_matvec_correct (U m : ndarray R) (N l0 l : nat) (s : Q)
    (gk : GaloisKeys) (rk : RelinKeys) (t : list Event) :
  1 <= N -> N <= n -> n mod N = 0 \/ 2 * N <= n ->
  ctx_top_level ctx = S l ->
  shape U = (N, N) -> l0 < N ->
  is_zero_diagonal (cyclic_diagonal U N l0) = false ->
  shape m = (N, 1) -> wf_ndarray m ->
  exists t',
    example_matvec E U m s gk rk N t =
    (Ok {| shape := (N, 1); data := np_dot U (data m) |}, t').
Proof.
  intros HN HNn Hcase Htop HS Hl0 Hnz Hm Hwf.
  assert (Hlen : length (data m) = N).
  { unfold wf_ndarray, nrows, ncols in Hwf. rewrite Hm in Hwf. simpl in Hwf.
    lia. }
  destruct (encrypt_array_leveled m N 1 s t Hm HN (le_n 1)) as [t1 Henc].
  rewrite Nat.div_1_r in Henc.
  set (cm := {| ct_slots := slots_pad n (list_times (data m) (n / N));
                ct_scale := s; ct_level := ctx_top_level ctx;
                ct_size := 2 |}) in *.
  assert (Hle : ct_level cm <= ctx_top_level ctx) by (simpl; lia).
  destruct (lin_trans_leveled_value ctx cm Hle U N l0 l gk rk t1 HS Hl0 Hnz
              Htop) as [t2 Hrun].
  set (out := {| ct_slots := lin_trans_slots n U (ct_slots cm);
                 ct_scale := Qdiv (Qmult (ct_scale cm) (ct_scale cm))
                                  (ctx_modulus ctx (S l));
                 ct_level := l; ct_size := 2 |}) in *.
  assert (Hdot : forall i, i < N ->
            nth i (ct_slots out) r0 = nth i (np_dot U (data m)) r0).
  { intros i Hi.
    apply (lin_trans_slots_dot n rmul_comm U N (ct_slots cm) (data m) HS HNn);
      [|exact Hi].
    intros i' l' Hi' Hl'. simpl. rewrite <- Hlen.
    apply packed_diagonals; rewrite ?Hlen; assumption. }
  destruct (decrypt_array_leveled out N 1 t2) as [t3 Hdec]; [lia|].
  exists t3. unfold example_matvec.
  erewrite bind_ok; [|exact Henc]. erewrite bind_ok; [|exact Hrun].
  rewrite Hdec. f_equal. f_equal. f_equal.
  apply nth_ext with (d := r0) (d' := r0).
  - rewrite length_firstn, length_slots_pad. unfold np_dot, nrows.
    rewrite HS, length_map, length_seq. simpl. lia.
  - intros i Hi. rewrite length_firstn, length_slots_pad in Hi.
    rewrite nth_firstn.
    assert (HiN : i < N) by lia.
    replace (i <? N * 1) with true by (symmetry; apply Nat.ltb_lt; lia).
    rewrite nth_slots_pad by lia. apply Hdot. exact HiN.
Qed.

End MatvecLeveled.

Lemma Z_rmul_comm : forall x y : Z, rmul x y = rmul y x.
Proof. exact Z.mul_comm. Qed.

Lemma lin_trans_leveled_matvec_witness :
  (forall x y : Z, rmul x y = rmul y x) /\
  exists out t',
    lin_trans (LeveledEngine ctx_example) U3_example
      {| ct_slots := [10; 20; 30; 10; 20; 30; 0; 0]%Z;
         ct_scale := (1024 # 1)%Q; ct_level := 3; ct_size := 2 |}
      galois_keys (Some relin_keys) [] = (Ok out, t') /\
    ct_level out = 2 /\
    ct_scale out = Qdiv (Qmult (1024 # 1) (1024 # 1)) (1000 # 1) /\
    length (ct_slots out) = 8 /\
    (forall i, i < 3 ->
       nth i (ct_slots out) 0%Z = nth i [140; 320; 500]%Z 0%Z) /\
    (forall i, 3 <= i -> i < 8 -> nth i (ct_slots out) 0%Z = 0%Z).
Proof.
  split; [exact Z_rmul_comm|].
  apply (lin_trans_leveled_matvec ctx_example Z_rmul_comm
           {| ct_slots := [10; 20; 30; 10; 20; 30; 0; 0]%Z;
              ct_scale := (1024 # 1)%Q; ct_level := 3; ct_size := 2 |}
           U3_example 3 0 2 [10; 20; 30]%Z galois_keys relin_keys []);
    try reflexivity; try (simpl; lia).
  intros i l' Hi Hl'.
  destruct i as [|[|[|i]]]; [| | |lia];
    destruct l' as [|[|[|l']]]; try lia; reflexivity.
Defined.

Lemma example_matvec_correct_witness :
  (forall x y : Z, rmul x y = rmul y x) /\
  exists t',
    example_matvec (LeveledEngine ctx_example) U3_example m31_example
      (1024 # 1)%Q galois_keys relin_keys 3 [] =
    (Ok {| shape := (3, 1); data := [140; 320; 500]%Z |}, t').
Proof.
  split; [exact Z_rmul_comm|].
  apply (example_matvec_correct ctx_example Z_rmul_comm U3_example m31_example
           3 0 2 (1024 # 1)%Q galois_keys relin_keys []);
    try reflexivity; try (simpl; lia).
Defined.

(** ** The generator matrices as index maps *)

Section GeneratorMaps.
Context {R : Type} {SR : Scalar R}.

Lemma base_matrix_spec (d : nat) (target : nat -> nat -> nat) :
  (forall i j, i < d -> j < d -> target i j < d * d) ->
  permutation_base d target = Ok (base_matrix (R := R) d target) /\
  shape (base_matrix (R := R) d target) = (d * d, d * d) /\
  forall r c, r < d * d -> c < d * d ->
    get (base_matrix (R := R) d target) r c =
    if c =? flat_target d target r then r1 else r0.
Proof.
  intros Ht.
  destruct (@permutation_base_entries R SR d target Ht)
    as (P & HP & _ & HS & Hg).
  unfold base_matrix. rewrite HP. auto.
Qed.

Lemma flat_target_bound (d : nat) (target : nat -> nat -> nat) (r : nat) :
  (forall i j, i < d -> j < d -> target i j < d * d) ->
  r < d * d -> flat_target d target r < d * d.
Proof.
  intros Ht Hr. destruct (@block_index_split d r Hr) as (Hi & Hj & _).
  apply Ht; assumption.
Qed.

(** The duplicated matrix applies the same map inside each of its two
    blocks. *)
Lemma get_duplicated_flat (d nmax : nat) (target : nat -> nat -> nat)
    (r c : nat) :
  (forall i j, i < d -> j < d -> target i j < d * d) ->
  2 * (d * d) <= nmax -> r < 2 * (d * d) -> c < 2 * (d * d) ->
  get (duplicated_truncated (base_matrix (R := R) d target) nmax) r c =
  if c =? d * d * (r / (d * d)) + flat_target d target (r mod (d * d))
  then r1 else r0.
Proof.
  intros Ht Hn Hr Hc.
  destruct (base_matrix_spec d target Ht) as (_ & HS & Hg).
  assert (Hnn : 0 < d * d) by lia.
  rewrite (get_duplicated_truncated _ (d * d) nmax r c HS) by lia.
  assert (Hrm : r mod (d * d) < d * d) by (apply Nat.mod_upper_bound; lia).
  assert (Hcm : c mod (d * d) < d * d) by (apply Nat.mod_upper_bound; lia).
  pose proof (flat_target_bound d target _ Ht Hrm) as Hf.
  pose proof (Nat.div_mod_eq c (d * d)) as Hcdm.
  destruct (Nat.eqb_spec (r / (d * d)) (c / (d * d))) as [Hq|Hq].
  - rewrite (Hg _ _ Hrm Hcm), Hq.
    destruct (Nat.eqb_spec (c mod (d * d))
                (flat_target d target (r mod (d * d)))) as [He|He];
    destruct (Nat.eqb_spec c
                (d * d * (c / (d * d)) +
                 flat_target d target (r mod (d * d)))) as [He'|He'];
      try reflexivity; exfalso; lia.
  - destruct (Nat.eqb_spec c
                (d * d * (r / (d * d)) +
                 flat_target d target (r mod (d * d)))) as [He'|He'];
      [|reflexivity].
    exfalso. apply Hq. subst c.
    rewrite (Nat.mul_comm (d * d)), Nat.div_add_l by lia.
    rewrite (Nat.div_small _ _ Hf). lia.
Qed.

(** A 0/1 matrix given by an index map has a non-zero diagonal: the one
    through the one of its first row. *)
Lemma index_map_diagonal (U : ndarray R) (N : nat) (p : nat -> nat) :
  0 < N -> p 0 < N ->
  (forall i c, i < N -> c < N -> get U i c = if c =? p i then r1 else r0) ->
  is_zero_diagonal (cyclic_diagonal U N (p 0)) = false.
Proof.
  intros HN Hp HU.
  destruct (is_zero_diagonal _) eqn:Hz; [|reflexivity].
  exfalso. apply (@r1_neq_0 R SR).
  rewrite is_zero_diagonal_spec in Hz. apply Hz.
  unfold cyclic_diagonal. apply in_map_iff. exists 0. split.
  - simpl Nat.add. rewrite (Nat.mod_small _ _ Hp).
    rewrite (HU 0 (p 0) HN Hp), Nat.eqb_refl. reflexivity.
  - apply in_seq. lia.
Qed.

Hypothesis rmul_comm : forall x y : R, rmul x y = rmul y x.

(** First stage: slot [x] of the transform by a duplicated generator
    matrix holds the entry of the tiled vector that the generator's map
    names, in both blocks. *)
Lemma first_stage_slots (n d : nat) (target : nat -> nat -> nat)
    (a m : list R) (x : nat) :
  (forall i j, i < d -> j < d -> target i j < d * d) ->
  1 <= d -> 2 * (d * d) <= n -> length a = d * d -> tiled n a m ->
  x < 2 * (d * d) ->
  nth x (lin_trans_slots n
           (duplicated_truncated (base_matrix d target) n) m) r0 =
  nth (flat_target d target (x mod (d * d))) a r0.
Proof.
  intros Ht Hd Hn Ha Htile Hx. unfold tiled in Htile. rewrite Ha in Htile.
  assert (Hnn : 0 < d * d) by (destruct d; simpl; lia).
  destruct (base_matrix_spec d target Ht) as (_ & HS & _).
  pose proof (shape_duplicated_truncated _ (d * d) n HS) as HSd.
  rewrite Nat.min_r in HSd by lia.
  set (p := fun r => d * d * (r / (d * d)) +
                     flat_target d target (r mod (d * d))).
  assert (Hp : forall i, i < 2 * (d * d) -> p i < 2 * (d * d)).
  { intros i Hi. unfold p.
    assert (i / (d * d) < 2) by (apply Nat.Div0.div_lt_upper_bound; lia).
    assert (flat_target d target (i mod (d * d)) < d * d).
    { apply flat_target_bound; [exact Ht|].
      apply Nat.mod_upper_bound. lia. }
    nia. }
  rewrite (lin_trans_slots_permutation n rmul_comm _ (2 * (d * d)) p m HSd
             Hn Hp).
  - replace (nth (p x) m r0) with (nth (p x mod n) m r0)
      by (rewrite Nat.mod_small; [reflexivity|specialize (Hp x Hx); lia]).
    rewrite Htile by (specialize (Hp x Hx); lia). f_equal. unfold p.
    replace (d * d * (x / (d * d)) + flat_target d target (x mod (d * d)))
      with (flat_target d target (x mod (d * d)) + x / (d * d) * (d * d))
      by ring.
    rewrite Nat.Div0.mod_add.
    apply Nat.mod_small. apply flat_target_bound; [exact Ht|].
    apply Nat.mod_upper_bound. lia.
  - intros i c Hi Hc. apply get_duplicated_flat; assumption.
  - intros z Hz. rewrite Htile by lia.
    replace (nth z m r0) with (nth (z mod n) m r0)
      by (rewrite Nat.mod_small; [reflexivity|lia]).
    rewrite Htile by lia.
    f_equal. rewrite Nat.Div0.mod_add. reflexivity.
  - exact Hx.
Qed.

(** Second stage: on slots that carry the same values in their first two
    blocks, the transform by a generator's base matrix moves slot
    [flat_target x] to slot [x]. *)
Lemma second_stage_slots (n d : nat) (target : nat -> nat -> nat)
    (f : nat -> R) (m : list R) (x : nat) :
  (forall i j, i < d -> j < d -> target i j < d * d) ->
  1 <= d -> 2 * (d * d) <= n ->
  (forall z, z < 2 * (d * d) -> nth z m r0 = f (z mod (d * d))) ->
  x < d * d ->
  nth x (lin_trans_slots n (base_matrix d target) m) r0 =
  f (flat_target d target x).
Proof.
  intros Ht Hd Hn Hm Hx.
  assert (Hnn : 0 < d * d) by (destruct d; simpl; lia).
  destruct (base_matrix_spec d target Ht) as (_ & HS & Hg).
  pose proof (flat_target_bound d target x Ht Hx) as Hfx.
  rewrite (lin_trans_slots_permutation n rmul_comm _ (d * d)
             (flat_target d target) m HS).
  - rewrite Hm by lia. rewrite Nat.mod_small by exact Hfx. reflexivity.
  - lia.
  - intros i Hi. apply flat_target_bound; assumption.
  - exact Hg.
  - intros z Hz. rewrite (Nat.mod_small (z + d * d) n) by lia.
    rewrite !Hm by lia.
    f_equal. replace (z + d * d) with (z + 1 * (d * d)) by lia.
    rewrite Nat.Div0.mod_add. reflexivity.
  - exact Hx.
Qed.

End GeneratorMaps.

(** ** The matrix product on the leveled engine *)

Lemma fold_left_ext_in {A B} (f g : A -> B -> A) (l : list B) :
  (forall a b, In b l -> f a b = g a b) ->
  forall a0, fold_left f l a0 = fold_left g l a0.
Proof.
  induction l as [|b l IH]; intros H a0; simpl; [reflexivity|].
  rewrite (H a0 b (or_introl eq_refl)).
  apply IH. intros a b' Hb'. apply H. right. exact Hb'.
Qed.

Section MatmulLeveled.
Context {R : Type} {SR : Scalar R}.
Variable ctx : Context.
Local Abbreviation E := (LeveledEngine (R := R) ctx).
Local Abbreviation n := (ctx_slot_count ctx).

Lemma lin_trans_index_map_leveled (U : ndarray R) (N : nat) (p : nat -> nat)
    (ct : MCiphertext R) (l : nat) (gk : GaloisKeys) (rk : RelinKeys)
    (t : list Event) :
  shape U = (N, N) -> 0 < N -> p 0 < N ->
  (forall i c, i < N -> c < N -> get U i c = if c =? p i then r1 else r0) ->
  ct_level ct = S l -> S l <= ctx_top_level ctx ->
  exists t', lin_trans E U ct gk (Some rk) t = (Ok (transformed ctx U ct), t').
Proof.
  intros HS HN Hp HU Hlvl Htop.
  assert (Hle : ct_level ct <= ctx_top_level ctx) by lia.
  destruct (lin_trans_leveled_value ctx ct Hle U N (p 0) l gk rk t HS Hp
              (index_map_diagonal U N p HN Hp HU) Hlvl) as [t' Hrun].
  exists t'. rewrite Hrun. unfold transformed. rewrite Hlvl. reflexivity.
Qed.

(** A transform by a generator's base matrix. *)
Lemma lin_trans_base_leveled (d : nat) (target : nat -> nat -> nat)
    (ct : MCiphertext R) (l : nat) (gk : GaloisKeys) (rk : RelinKeys)
    (t : list Event) :
  (forall i j, i < d -> j < d -> target i j < d * d) -> 1 <= d ->
  ct_level ct = S l -> S l <= ctx_top_level ctx ->
  exists t',
    lin_trans E (base_matrix d target) ct gk (Some rk) t =
    (Ok (transformed ctx (base_matrix d target) ct), t').
Proof.
  intros Ht Hd Hlvl Htop.
  assert (Hnn : 0 < d * d) by (destruct d; simpl; lia).
  destruct (base_matrix_spec (R := R) d target Ht) as (_ & HS & Hg).
  apply (lin_trans_index_map_leveled _ (d * d) (flat_target d target) ct l
           gk rk t HS Hnn); try assumption.
  apply flat_target_bound; assumption.
Qed.

(** A transform by a duplicated generator matrix. *)
Lemma lin_trans_duplicated_leveled (d : nat) (target : nat -> nat -> nat)
    (ct : MCiphertext R) (l : nat) (gk : GaloisKeys) (rk : RelinKeys)
    (t : list Event) :
  (forall i j, i < d -> j < d -> target i j < d * d) -> 1 <= d ->
  2 * (d * d) <= n ->
  ct_level ct = S l -> S l <= ctx_top_level ctx ->
  exists t',
    lin_trans E (duplicated_truncated (base_matrix d target) n) ct gk
      (Some rk) t =
    (Ok (transformed ctx (duplicated_truncated (base_matrix d target) n) ct),
     t').
Proof.
  intros Ht Hd Hn Hlvl Htop.
  assert (Hnn : 0 < d * d) by (destruct d; simpl; lia).
  destruct (base_matrix_spec (R := R) d target Ht) as (_ & HS & Hg).
  pose proof (shape_duplicated_truncated _ (d * d) n HS) as HSd.
  rewrite Nat.min_r in HSd by lia.
  apply (lin_trans_index_map_leveled _ (2 * (d * d))
           (fun r => d * d * (r / (d * d)) +
                     flat_target d target (r mod (d * d)))
           ct l gk rk t HSd); try assumption; try lia.
  - rewrite Nat.Div0.div_0_l, Nat.Div0.mod_0_l.
    pose proof (flat_target_bound d target 0 Ht Hnn). lia.
  - intros i c Hi Hc. apply get_duplicated_flat; assumption.
Qed.

Lemma cA_x_cB_multiplied (a b : MCiphertext R) (rk : RelinKeys) (l : nat)
    (t : list Event) :
  ct_level a = ct_level b -> ct_level a = S l ->
  exists t', cA_x_cB E a b rk t = (Ok (multiplied ctx a b), t').
Proof.
  intros Hab Ha. eexists.
  rewrite (cA_x_cB_leveled ctx a b rk l t Hab Ha).
  unfold multiplied. rewrite Ha. reflexivity.
Qed.

(** One pass of the accumulation loop. *)
Lemma accumulate_leveled_value (rk : RelinKeys) (acc a b : MCiphertext R)
    (l : nat) (t : list Event) :
  ct_level a = ct_level b -> ct_level a = S l -> l <= ct_level acc ->
  ct_size acc = 2 ->
  exists t',
    cA_dot_cB_accumulate E rk acc a b t =
    (Ok {| ct_slots := slots_add n (ct_slots acc)
                         (slots_mul n (ct_slots a) (ct_slots b));
           ct_scale := ct_scale acc; ct_level := l; ct_size := 2 |}, t').
Proof.
  intros Hab Ha Hl Hsz. unfold cA_dot_cB_accumulate.
  eexists. erewrite bind_ok; [|apply (cA_x_cB_leveled ctx a b rk l t Hab Ha)].
  unfold bind, call. simpl. unfold m_mod_switch_to.
  apply Nat.leb_le in Hl. rewrite Hl. simpl.
  unfold m_add. simpl. rewrite Nat.eqb_refl, Qeq_bool_refl. simpl.
  rewrite Hsz. reflexivity.
Qed.

Variable dflt : MCiphertext R.

Lemma vector_getitem_nth (v : list (MCiphertext R)) (k : nat) :
  k < length v -> vector_getitem E v k = Ok (nth k v dflt).
Proof.
  intros Hk. unfold vector_getitem. simpl.
  rewrite (nth_error_nth' v dflt Hk). reflexivity.
Qed.

Lemma accumulate_step_leveled (rk : RelinKeys) (As Bs : list (MCiphertext R))
    (j : nat) (acc : MCiphertext R) (t : list Event) :
  j < length As -> j < length Bs ->
  cA_dot_cB_accumulate_step E rk As Bs j acc t =
  cA_dot_cB_accumulate E rk acc (nth j As dflt) (nth j Bs dflt) t.
Proof.
  intros HA HB. unfold cA_dot_cB_accumulate_step, bind, lift.
  rewrite (vector_getitem_nth As j HA), (vector_getitem_nth Bs j HB).
  reflexivity.
Qed.

(** The accumulation loop over the vectors [As] and [Bs] of shifted
    operands, all at level [S l]. *)
Lemma accumulate_loop_leveled (rk : RelinKeys) (As Bs : list (MCiphertext R))
    (l : nat) :
  length As = length Bs ->
  (forall c, In c As -> ct_level c = S l) ->
  (forall c, In c Bs -> ct_level c = S l) ->
  forall (cnt j0 : nat) (acc : MCiphertext R) (t : list Event),
  j0 + cnt = length As -> l <= ct_level acc -> ct_size acc = 2 ->
  exists t',
    efor (seq j0 cnt) (cA_dot_cB_accumulate_step E rk As Bs) acc t =
    (Ok {| ct_slots :=
             fold_left (fun s j =>
                          slots_add n s
                            (slots_mul n (ct_slots (nth j As dflt))
                                       (ct_slots (nth j Bs dflt))))
                       (seq j0 cnt) (ct_slots acc);
           ct_scale := ct_scale acc;
           ct_level := match cnt with O => ct_level acc | S _ => l end;
           ct_size := 2 |}, t').
Proof.
  intros Hlen HAs HBs. induction cnt as [|cnt IH]; intros j0 acc t Hj Hl Hsz.
  - exists t. simpl. unfold ret. destruct acc; simpl in *. subst. reflexivity.
  - simpl seq. simpl efor.
    assert (HjA : j0 < length As) by lia.
    assert (HjB : j0 < length Bs) by lia.
    destruct (accumulate_leveled_value rk acc (nth j0 As dflt)
                (nth j0 Bs dflt) l t) as [t1 Hstep]; try assumption.
    { rewrite (HAs _ (nth_In As dflt HjA)), (HBs _ (nth_In Bs dflt HjB)).
      reflexivity. }
    { apply HAs. apply nth_In. exact HjA. }
    erewrite bind_ok;
      [|rewrite (accumulate_step_leveled rk As Bs j0 acc t HjA HjB);
        exact Hstep].
    set (acc1 := {| ct_slots := slots_add n (ct_slots acc)
                                  (slots_mul n (ct_slots (nth j0 As dflt))
                                             (ct_slots (nth j0 Bs dflt)));
                    ct_scale := ct_scale acc; ct_level := l;
                    ct_size := 2 |}) in *.
    destruct (IH (S j0) acc1 t1 ltac:(lia) (le_n l) eq_refl) as [t2 Hrest].
    exists t2. etransitivity; [exact Hrest|].
    simpl. destruct cnt; reflexivity.
Qed.

End MatmulLeveled.

Section MatmulEvaluation.
Context {R : Type} {SR : Scalar R}.
Variable ctx : Context.
Local Abbreviation E := (LeveledEngine (R := R) ctx).
Local Abbreviation n := (ctx_slot_count ctx).

Variable d : nat.
Hypothesis d_pos : 1 <= d.

Local Abbreviation Usigma :=
  (duplicated_truncated (base_matrix (R := R) d (sigma_target d)) n).
Local Abbreviation Utau :=
  (duplicated_truncated (base_matrix (R := R) d (tau_target d)) n).
Local Abbreviation Vk := (fun k => base_matrix (R := R) d (phi_target k d)).
Local Abbreviation Wk := (fun k => base_matrix (R := R) d (psi_target k d)).

Lemma sigma_permutation_value (nmax : nat) :
  sigma_permutation (R := R) d nmax =
  Ok (duplicated_truncated (base_matrix d (sigma_target d)) nmax).
Proof.
  destruct (base_matrix_spec (R := R) d (sigma_target d)
              (@sigma_target_bound d)) as (HP & _).
  unfold sigma_permutation. rewrite HP. reflexivity.
Qed.

Lemma tau_permutation_value (nmax : nat) :
  tau_permutation (R := R) d nmax =
  Ok (duplicated_truncated (base_matrix d (tau_target d)) nmax).
Proof.
  destruct (base_matrix_spec (R := R) d (tau_target d)
              (@tau_target_bound d)) as (HP & _).
  unfold tau_permutation. rewrite HP. reflexivity.
Qed.

Lemma phi_permutation_k_value (k nmax : nat) :
  phi_permutation_k (R := R) k d nmax = Ok (base_matrix d (phi_target k d)).
Proof.
  destruct (base_matrix_spec (R := R) d (phi_target k d)
              (@phi_target_bound k d)) as (HP & _).
  unfold phi_permutation_k. rewrite HP. reflexivity.
Qed.

Lemma psi_permutation_k_value (k nmax : nat) :
  psi_permutation_k (R := R) k d nmax = Ok (base_matrix d (psi_target k d)).
Proof.
  destruct (base_matrix_spec (R := R) d (psi_target k d)
              (@psi_target_bound k d)) as (HP & _).
  unfold psi_permutation_k. rewrite HP. reflexivity.
Qed.

Lemma first_stage_leveled_value (ct_A ct_B : MCiphertext R)
    (gk : GaloisKeys) (rk : RelinKeys) (la lb : nat) (t : list Event) :
  2 * (d * d) <= n ->
  ct_level ct_A = S la -> S la <= ctx_top_level ctx ->
  ct_level ct_B = S lb -> S lb <= ctx_top_level ctx ->
  exists t',
    cA_dot_cB_first_stage E ct_A ct_B gk rk d n t =
    (Ok (transformed ctx Usigma ct_A, transformed ctx Utau ct_B), t').
Proof.
  intros Hn HA HAt HB HBt.
  destruct (lin_trans_duplicated_leveled ctx d (sigma_target d) ct_A la gk rk
              t (@sigma_target_bound d) d_pos Hn HA HAt) as [t1 H1].
  destruct (lin_trans_duplicated_leveled ctx d (tau_target d) ct_B lb gk rk
              t1 (@tau_target_bound d) d_pos Hn HB HBt) as [t2 H2].
  exists t2. unfold cA_dot_cB_first_stage.
  rewrite sigma_permutation_value, tau_permutation_value.
  unfold bind at 1, lift at 1. unfold bind at 1, lift at 1.
  erewrite bind_ok; [|exact H1]. erewrite bind_ok; [|exact H2].
  reflexivity.
Qed.

Variables ct_A0 ct_B0 : MCiphertext R.
Variable l1 : nat.
Hypothesis A0_level : ct_level ct_A0 = S l1.
Hypothesis B0_level : ct_level ct_B0 = S l1.
Hypothesis l1_top : S l1 <= ctx_top_level ctx.

Lemma shift_step_leveled (gk : GaloisKeys) (rk : RelinKeys) (nmax k : nat)
    (st : list (MCiphertext R) * list (MCiphertext R)) (t : list Event) :
  exists t',
    cA_dot_cB_shift_step E ct_A0 ct_B0 gk rk d nmax k st t =
    (Ok (fst st ++ [transformed ctx (Vk k) ct_A0],
         snd st ++ [transformed ctx (Wk k) ct_B0]), t').
Proof.
  destruct (base_matrix_spec (R := R) d (phi_target k d)
              (@phi_target_bound k d)) as (HPv & _).
  destruct (base_matrix_spec (R := R) d (psi_target k d)
              (@psi_target_bound k d)) as (HPw & _).
  destruct (lin_trans_base_leveled ctx d (phi_target k d) ct_A0 l1 gk rk t
              (@phi_target_bound k d) d_pos A0_level l1_top) as [t1 H1].
  destruct (lin_trans_base_leveled ctx d (psi_target k d) ct_B0 l1 gk rk t1
              (@psi_target_bound k d) d_pos B0_level l1_top) as [t2 H2].
  exists t2. unfold cA_dot_cB_shift_step.
  rewrite phi_permutation_k_value, psi_permutation_k_value.
  unfold bind at 1, lift at 1. unfold bind at 1, lift at 1.
  unfold is_empty_permutation.
  rewrite (permutation_base_sum d _ _ d_pos (@phi_target_bound k d) HPv).
  rewrite (permutation_base_sum d _ _ d_pos (@psi_target_bound k d) HPw).
  cbn [orb].
  erewrite bind_ok; [|exact H1]. erewrite bind_ok; [|exact H2].
  reflexivity.
Qed.

Lemma shift_loop_leveled (gk : GaloisKeys) (rk : RelinKeys) (nmax : nat) :
  forall (ks : list nat)
         (st : list (MCiphertext R) * list (MCiphertext R)) (t : list Event),
  exists t',
    efor ks (cA_dot_cB_shift_step E ct_A0 ct_B0 gk rk d nmax) st t =
    (Ok (fst st ++ map (fun k => transformed ctx (Vk k) ct_A0) ks,
         snd st ++ map (fun k => transformed ctx (Wk k) ct_B0) ks), t').
Proof.
  induction ks as [|k ks IH]; intros st t.
  - exists t. simpl. rewrite !app_nil_r. destruct st. reflexivity.
  - destruct (shift_step_leveled gk rk nmax k st t) as [t1 H1].
    destruct (IH (fst st ++ [transformed ctx (Vk k) ct_A0],
                  snd st ++ [transformed ctx (Wk k) ct_B0]) t1) as [t2 H2].
    exists t2. simpl efor. erewrite bind_ok; [|exact H1].
    etransitivity; [exact H2|]. simpl. rewrite <- !app_assoc. reflexivity.
Qed.

End MatmulEvaluation.

(** ** The encrypted matrix product *)

Lemma flat_target_block (d : nat) (target : nat -> nat -> nat) (i j : nat) :
  j < d -> flat_target d target (d * i + j) = target i j.
Proof.
  intros Hj. unfold flat_target.
  destruct (@block_index_unique d (d * i + j) i j Hj eq_refl) as [Ei Ej].
  rewrite <- Ei, <- Ej. reflexivity.
Qed.

Lemma sigma_phi_index (d i j k : nat) :
  i < d -> j < d ->
  flat_target d (sigma_target d) (flat_target d (phi_target k d) (d * i + j)) =
  d * i + (i + j + k) mod d.
Proof.
  intros Hi Hj. rewrite flat_target_block by exact Hj. unfold phi_target.
  rewrite flat_target_block by (apply Nat.mod_upper_bound; lia).
  unfold sigma_target. f_equal.
  rewrite Nat.Div0.add_mod_idemp_r. f_equal. lia.
Qed.

Lemma tau_psi_index (d i j k : nat) :
  i < d -> j < d ->
  flat_target d (tau_target d) (flat_target d (psi_target k d) (d * i + j)) =
  d * ((i + j + k) mod d) + j.
Proof.
  intros Hi Hj. rewrite flat_target_block by exact Hj. unfold psi_target.
  rewrite flat_target_block by exact Hj.
  unfold tau_target. f_equal. f_equal.
  rewrite Nat.Div0.add_mod_idemp_l. f_equal. lia.
Qed.

Section MatmulSlots.
Context {R : Type} {SR : Scalar R}.
Variable n : nat.

Lemma nth_fold_slots_add (G : nat -> list R) (x : nat) :
  x < n ->
  forall (js : list nat) (s0 : list R),
  nth x (fold_left (fun s j => slots_add n s (G j)) js s0) r0 =
  fold_left radd (map (fun j => nth x (G j) r0) js) (nth x s0 r0).
Proof.
  intros Hx. induction js as [|j js IH]; intros s0; simpl; [reflexivity|].
  rewrite IH, nth_slots_add by exact Hx. reflexivity.
Qed.

Lemma nth_data_get (A : ndarray R) (d i c : nat) :
  shape A = (d, d) -> nth (d * i + c) (data A) r0 = get A i c.
Proof.
  intros HS. unfold get, ncols. rewrite HS. simpl. f_equal. lia.
Qed.

End MatmulSlots.

Lemma fold_left_seq_succ {A} (g : A -> nat -> A) (c : nat) :
  forall (a : nat) (s : A),
  fold_left (fun s j => g s (S j)) (seq a c) s = fold_left g (seq (S a) c) s.
Proof.
  induction c as [|c IH]; intros a s; simpl; [reflexivity|]. apply IH.
Qed.

Section MatmulValue.
Context {R : Type} {SR : Scalar R}.
Variable ctx : Context.
Local Abbreviation E := (LeveledEngine (R := R) ctx).
Local Abbreviation n := (ctx_slot_count ctx).

Lemma cA_dot_cB_leveled_value (ct_A ct_B : MCiphertext R) (d l : nat)
    (gk : GaloisKeys) (rk : RelinKeys) (t : list Event) :
  1 <= d -> 2 * (d * d) <= n ->
  ct_level ct_A = S (S (S l)) -> ct_level ct_B = S (S (S l)) ->
  S (S (S l)) <= ctx_top_level ctx ->
  exists t',
    cA_dot_cB E ct_A ct_B gk rk d t = (Ok (accumulated ctx d ct_A ct_B), t').
Proof.
  intros Hd Hn HA HB Htop.
  set (A0 := transformed ctx
               (duplicated_truncated (base_matrix d (sigma_target d)) n) ct_A).
  set (B0 := transformed ctx
               (duplicated_truncated (base_matrix d (tau_target d)) n) ct_B).
  assert (HA0 : ct_level A0 = S (S l)) by (unfold A0; simpl; rewrite HA; reflexivity).
  assert (HB0 : ct_level B0 = S (S l)) by (unfold B0; simpl; rewrite HB; reflexivity).
  destruct (first_stage_leveled_value ctx d Hd ct_A ct_B gk rk (S (S l))
              (S (S l)) t Hn HA Htop HB Htop) as [t1 H1].
  destruct (shift_loop_leveled ctx d Hd A0 B0 (S l) HA0 HB0 ltac:(lia) gk rk n
              (seq 1 (d - 1)) ([], []) t1) as [t2 H2].
  destruct (cA_x_cB_multiplied ctx A0 B0 rk (S l) t2
              ltac:(congruence) HA0) as [t3 H3].
  set (As := map (fun k => transformed ctx (base_matrix d (phi_target k d)) A0)
                 (seq 1 (d - 1))) in *.
  set (Bs := map (fun k => transformed ctx (base_matrix d (psi_target k d)) B0)
                 (seq 1 (d - 1))) in *.
  assert (HlenA : length As = d - 1)
    by (unfold As; rewrite length_map, length_seq; reflexivity).
  assert (HlenB : length Bs = d - 1)
    by (unfold Bs; rewrite length_map, length_seq; reflexivity).
  destruct (accumulate_loop_leveled ctx A0 rk As Bs l
              ltac:(congruence)) with (cnt := d - 1) (j0 := 0)
              (acc := multiplied ctx A0 B0) (t := t3) as [t4 H4].
  { intros c Hc. unfold As in Hc. apply in_map_iff in Hc.
    destruct Hc as (k & <- & _). unfold transformed at 1. cbn [ct_level].
    rewrite HA0. reflexivity. }
  { intros c Hc. unfold Bs in Hc. apply in_map_iff in Hc.
    destruct Hc as (k & <- & _). unfold transformed at 1. cbn [ct_level].
    rewrite HB0. reflexivity. }
  { simpl. symmetry. exact HlenA. }
  { unfold multiplied. cbn [ct_level]. rewrite HA0. simpl. lia. }
  { reflexivity. }
  exists t4. unfold cA_dot_cB.
  rewrite (cA_dot_cB_within_capacity E d Hn).
  erewrite bind_ok; [|exact H1]. cbn [fst snd]. fold A0 B0.
  erewrite bind_ok; [|exact H2]. cbn [fst snd app]. fold As Bs.
  erewrite bind_ok; [|exact H3].
  match goal with
  | |- context [seq 0 ?x] =>
      replace x with (d - 1) by (symmetry; exact HlenA)
  end.
  etransitivity; [exact H4|].
  f_equal. f_equal. unfold accumulated. fold A0 B0.
  f_equal.
  - rewrite <- fold_left_seq_succ.
    apply fold_left_ext_in. intros s j Hj. apply in_seq in Hj.
    unfold As, Bs.
    rewrite (nth_indep _ A0 (transformed ctx (base_matrix d (phi_target 0 d)) A0))
      by (rewrite length_map, length_seq; lia).
    rewrite (nth_indep _ A0 (transformed ctx (base_matrix d (psi_target 0 d)) B0))
      by (rewrite length_map, length_seq; lia).
    rewrite (map_nth (fun k => transformed ctx (base_matrix d (phi_target k d)) A0)).
    rewrite (map_nth (fun k => transformed ctx (base_matrix d (psi_target k d)) B0)).
    rewrite !seq_nth by lia. reflexivity.
  - destruct (Nat.eqb_spec d 1) as [->|Hne]; [reflexivity|].
    destruct (d - 1) as [|c] eqn:Hc; [lia|].
    unfold multiplied. cbn [ct_level]. rewrite HA0. reflexivity.
Qed.

End MatmulValue.

Section MatmulCorrect.
Context {R : Type} {SR : Scalar R}.
Variable ctx : Context.
Hypothesis rmul_comm : forall x y : R, rmul x y = rmul y x.
Local Abbreviation E := (LeveledEngine (R := R) ctx).
Local Abbreviation n := (ctx_slot_count ctx).

Lemma get_np_matmul (A B : ndarray R) (d i j : nat) :
  shape A = (d, d) -> shape B = (d, d) -> i < d -> j < d ->
  get (np_matmul A B) i j =
  np_sum (map (fun t => rmul (get A i t) (get B t j)) (seq 0 d)).
Proof.
  intros HA HB Hi Hj. unfold np_matmul, nrows, ncols. rewrite HA, HB.
  cbn [fst snd]. rewrite get_tabulate by assumption. reflexivity.
Qed.

Lemma shifted_sum (g : nat -> R) (d s : nat) :
  1 <= d ->
  fold_left radd (map (fun k => g ((s + k) mod d)) (seq 1 (d - 1)))
    (g (s mod d)) =
  np_sum (map g (seq 0 d)).
Proof.
  intros Hd.
  transitivity (fold_left radd (map (fun k => g ((s + k) mod d)) (seq 0 d)) r0).
  - destruct d as [|d']; [lia|].
    replace (S d' - 1) with d' by lia. cbn [seq map fold_left].
    rewrite radd_0_l, Nat.add_0_r. reflexivity.
  - rewrite fold_left_radd_sum.
    rewrite (map_ext (fun k => g ((s + k) mod d))
               (fun k => g ((s mod d + k) mod d)))
      by (intros k; rewrite Nat.Div0.add_mod_idemp_l; reflexivity).
    rewrite <- (map_map (fun k => (s mod d + k) mod d) g).
    apply np_sum_perm. apply Permutation_map. apply cyclic_shift_perm.
    apply Nat.mod_upper_bound. lia.
Qed.

Lemma accumulated_slots (A B : ndarray R) (ct_A ct_B : MCiphertext R)
    (d i j : nat) :
  1 <= d -> 2 * (d * d) <= n ->
  shape A = (d, d) -> shape B = (d, d) ->
  length (data A) = d * d -> length (data B) = d * d ->
  tiled n (data A) (ct_slots ct_A) -> tiled n (data B) (ct_slots ct_B) ->
  i < d -> j < d ->
  nth (d * i + j) (ct_slots (accumulated ctx d ct_A ct_B)) r0 =
  get (np_matmul A B) i j.
Proof.
  intros Hd Hn HSA HSB HLA HLB HtA HtB Hi Hj.
  pose proof (@block_index_bound d i j Hi Hj) as Hx.
  assert (Hxn : d * i + j < n) by lia.
  set (A0s := lin_trans_slots n
                (duplicated_truncated (base_matrix d (sigma_target d)) n)
                (ct_slots ct_A)).
  set (B0s := lin_trans_slots n
                (duplicated_truncated (base_matrix d (tau_target d)) n)
                (ct_slots ct_B)).
  assert (HA0 : forall z, z < 2 * (d * d) ->
            nth z A0s r0 =
            nth (flat_target d (sigma_target d) (z mod (d * d))) (data A) r0).
  { intros z Hz. unfold A0s.
    apply (first_stage_slots rmul_comm n d (sigma_target d) (data A)
             (ct_slots ct_A) z (@sigma_target_bound d) Hd Hn HLA HtA Hz). }
  assert (HB0 : forall z, z < 2 * (d * d) ->
            nth z B0s r0 =
            nth (flat_target d (tau_target d) (z mod (d * d))) (data B) r0).
  { intros z Hz. unfold B0s.
    apply (first_stage_slots rmul_comm n d (tau_target d) (data B)
             (ct_slots ct_B) z (@tau_target_bound d) Hd Hn HLB HtB Hz). }
  unfold accumulated. cbn [ct_slots transformed multiplied]. fold A0s B0s.
  rewrite (nth_fold_slots_add n
             (fun k => slots_mul n
                         (lin_trans_slots n (base_matrix d (phi_target k d)) A0s)
                         (lin_trans_slots n (base_matrix d (psi_target k d)) B0s))
             (d * i + j) Hxn).
  rewrite (get_np_matmul A B d i j HSA HSB Hi Hj).
  rewrite <- (shifted_sum (fun t => rmul (get A i t) (get B t j)) d (i + j) Hd).
  f_equal.
  - apply map_ext. intros k. rewrite nth_slots_mul by exact Hxn.
    rewrite (second_stage_slots rmul_comm n d (phi_target k d)
               (fun z => nth (flat_target d (sigma_target d) z) (data A) r0)
               A0s (d * i + j) (@phi_target_bound k d) Hd Hn HA0 Hx).
    rewrite (second_stage_slots rmul_comm n d (psi_target k d)
               (fun z => nth (flat_target d (tau_target d) z) (data B) r0)
               B0s (d * i + j) (@psi_target_bound k d) Hd Hn HB0 Hx).
    rewrite sigma_phi_index, tau_psi_index by assumption.
    rewrite (nth_data_get A d i _ HSA), (nth_data_get B d _ j HSB).
    reflexivity.
  - rewrite nth_slots_mul by exact Hxn.
    rewrite HA0, HB0 by lia. rewrite Nat.mod_small by exact Hx.
    rewrite !flat_target_block by exact Hj.
    unfold sigma_target, tau_target.
    rewrite (nth_data_get A d i _ HSA), (nth_data_get B d _ j HSB).
    reflexivity.
Qed.

End MatmulCorrect.

Section MatmulLeveledCorrect.
Context {R : Type} {SR : Scalar R}.
Variable ctx : Context.
Hypothesis rmul_comm : forall x y : R, rmul x y = rmul y x.
Local Abbreviation E := (LeveledEngine (R := R) ctx).
Local Abbreviation n := (ctx_slot_count ctx).

(** X4. On the leveled engine [cA_dot_cB] computes the matrix product: for
    [d]-by-[d] matrices [A] and [B] with [2*d*d <= slot_count], whose
    flattened entries repeat along the slots of [ct_A] and [ct_B], both
    ciphertexts three levels above some level [l], the call returns a
    ciphertext of size 2 whose slot [d*i+j] holds entry [(i, j)] of
    [A.dot(B)].  Its level is two below the inputs' for [d = 1] (the loops
    have no iteration) and three below otherwise; its scale is the one of
    the first product [ct_A0 * ct_B0]. *)
Theorem cA_dot_cB_leveled_matmul (A B : ndarray R)
    (ct_A ct_B : MCiphertext R) (d l : nat) (gk : GaloisKeys)
    (rk : RelinKeys) (t : list Event) :
  1 <= d -> 2 * (d * d) <= n ->
  shape A = (d, d) -> wf_ndarray A -> shape B = (d, d) -> wf_ndarray B ->
  tiled n (data A) (ct_slots ct_A) -> tiled n (data B) (ct_slots ct_B) ->
  ct_level ct_A = S (S (S l)) -> ct_level ct_B = S (S (S l)) ->
  S (S (S l)) <= ctx_top_level ctx ->
  exists out t',
    cA_dot_cB E ct_A ct_B gk rk d t = (Ok out, t') /\
    ct_level out = (if d =? 1 then S l else l) /\
    ct_scale out =
      Qdiv (Qmult (Qdiv (Qmult (ct_scale ct_A) (ct_scale ct_A))
                        (ctx_modulus ctx (S (S (S l)))))
                  (Qdiv (Qmult (ct_scale ct_B) (ct_scale ct_B))
                        (ctx_modulus ctx (S (S (S l))))))
           (ctx_modulus ctx (S (S l))) /\
    ct_size out = 2 /\
    forall i j, i < d -> j < d ->
      nth (d * i + j) (ct_slots out) r0 = get (np_matmul A B) i j.
Proof.
  intros Hd Hn HSA HwA HSB HwB HtA HtB HlA HlB Htop.
  assert (HLA : length (data A) = d * d).
  { unfold wf_ndarray, nrows, ncols in HwA. rewrite HSA in HwA. exact HwA. }
  assert (HLB : length (data B) = d * d).
  { unfold wf_ndarray, nrows, ncols in HwB. rewrite HSB in HwB. exact HwB. }
  destruct (cA_dot_cB_leveled_value ctx ct_A ct_B d l gk rk t Hd Hn HlA HlB
              Htop) as [t' Hrun].
  exists (accumulated ctx d ct_A ct_B), t'.
  split; [exact Hrun|]. split; [|split; [|split]].
  - unfold accumulated, multiplied, transformed. cbn [ct_level].
    rewrite HlA. reflexivity.
  - unfold accumulated, multiplied, transformed. cbn [ct_level ct_scale].
    rewrite HlA, HlB. reflexivity.
  - reflexivity.
  - intros i j Hi Hj.
    apply (accumulated_slots ctx rmul_comm A B ct_A ct_B d i j); assumption.
Qed.

(** X5. The pipeline of [example_cipher_square_matrices_multiplication]
    (lines 261-264) is exact on the leveled engine: for [N]-by-[N] matrices
    [A] and [B] with [2*N*N <= slot_count], [N*N] dividing the slot count
    or fitting it four times, and at least three levels below the top one,
    encrypting both, calling [cA_dot_cB] and decrypting returns exactly
    [A.dot(B)]. *)
Theorem example_matmul_correct (A B : ndarray R) (N l : nat) (s : Q)
    (gk : GaloisKeys) (rk : RelinKeys) (t : list Event) :
  1 <= N -> 2 * (N * N) <= n ->
  n mod (N * N) = 0 \/ 4 * (N * N) <= n ->
  ctx_top_level ctx = S (S (S l)) ->
  shape A = (N, N) -> wf_ndarray A -> shape B = (N, N) -> wf_ndarray B ->
  exists t',
    example_matmul E A B s gk rk N t = (Ok (np_matmul A B), t').
Proof.
  intros HN Hn Hdiv Htop HSA HwA HSB HwB.
  assert (HLA : length (data A) = N * N).
  { unfold wf_ndarray, nrows, ncols in HwA. rewrite HSA in HwA. exact HwA. }
  assert (HLB : length (data B) = N * N).
  { unfold wf_ndarray, nrows, ncols in HwB. rewrite HSB in HwB. exact HwB. }
  assert (HNN : 1 <= N * N) by nia.
  destruct (encrypt_array_leveled ctx A N N s t HSA HN HN) as [t1 HencA].
  destruct (encrypt_array_leveled ctx B N N s t1 HSB HN HN) as [t2 HencB].
  rewrite Nat.Div0.div_div in HencA, HencB.
  set (cA := {| ct_slots := slots_pad n (list_times (data A) (n / (N * N)));
                ct_scale := s; ct_level := ctx_top_level ctx;
                ct_size := 2 |}) in *.
  set (cB := {| ct_slots := slots_pad n (list_times (data B) (n / (N * N)));
                ct_scale := s; ct_level := ctx_top_level ctx;
                ct_size := 2 |}) in *.
  assert (HtA : tiled n (data A) (ct_slots cA)).
  { unfold cA. cbn [ct_slots]. rewrite <- HLA.
    apply packed_tiled; rewrite HLA; [assumption | lia | assumption]. }
  assert (HtB : tiled n (data B) (ct_slots cB)).
  { unfold cB. cbn [ct_slots]. rewrite <- HLB.
    apply packed_tiled; rewrite HLB; [assumption | lia | assumption]. }
  destruct (cA_dot_cB_leveled_value ctx cA cB N l gk rk t2 HN Hn Htop Htop
              ltac:(lia)) as [t3 Hrun].
  destruct (decrypt_array_leveled ctx (accumulated ctx N cA cB) N N t3
              ltac:(lia)) as [t4 Hdec].
  exists t4. unfold example_matmul.
  erewrite bind_ok; [|exact HencA]. erewrite bind_ok; [|exact HencB].
  erewrite bind_ok; [|exact Hrun].
  rewrite Hdec. f_equal. f_equal.
  unfold np_matmul, tabulate, nrows, ncols. rewrite HSA, HSB. cbn [fst snd].
  f_equal.
  apply nth_ext with (d := r0) (d' := r0).
  - rewrite length_firstn, length_slots_pad, length_rows. lia.
  - intros x Hx. rewrite length_firstn, length_slots_pad in Hx.
    assert (HxN : x < N * N) by lia.
    rewrite nth_firstn.
    replace (x <? N * N) with true by (symmetry; apply Nat.ltb_lt; exact HxN).
    rewrite nth_slots_pad by lia.
    destruct (@block_index_split N x HxN) as (Hi & Hj & Hsplit).
    set (i := x / N) in *. set (j := x mod N) in *. clearbody i j. subst x.
    rewrite (accumulated_slots ctx rmul_comm A B cA cB N i j) by assumption.
    rewrite (get_np_matmul A B N i j HSA HSB Hi Hj).
    replace (N * i + j) with (i * N + j) by lia.
    rewrite nth_rows by assumption. reflexivity.
Qed.

End MatmulLeveledCorrect.

Lemma cA_dot_cB_leveled_matmul_witness :
  (forall x y : Z, rmul x y = rmul y x) /\
  exists out t',
    cA_dot_cB (LeveledEngine ctx_example) ctA_example ctB_example
      galois_keys relin_keys 2 [] = (Ok out, t') /\
    ct_level out = 0 /\
    ct_scale out =
      Qdiv (Qmult (Qdiv (Qmult (1024 # 1) (1024 # 1)) (1000 # 1))
                  (Qdiv (Qmult (1024 # 1) (1024 # 1)) (1000 # 1)))
           (1000 # 1) /\
    ct_size out = 2 /\
    forall i j, i < 2 -> j < 2 ->
      nth (2 * i + j) (ct_slots out) 0%Z =
      get (np_matmul A22_example B22_example) i j.
Proof.
  split; [exact Z_rmul_comm|].
  apply (cA_dot_cB_leveled_matmul ctx_example Z_rmul_comm A22_example
           B22_example ctA_example ctB_example 2 0 galois_keys relin_keys []);
    try reflexivity; try (simpl; lia).
  - intros y Hy.
    do 16 (destruct y as [|y]; [reflexivity|]). simpl in Hy. lia.
  - intros y Hy.
    do 16 (destruct y as [|y]; [reflexivity|]). simpl in Hy. lia.
Defined.

Lemma example_matmul_correct_witness :
  (forall x y : Z, rmul x y = rmul y x) /\
  exists t',
    example_matmul (LeveledEngine ctx_example) A22_example B22_example
      (1024 # 1)%Q galois_keys relin_keys 2 [] =
    (Ok {| shape := (2, 2); data := [19; 22; 43; 50]%Z |}, t').
Proof.
  split; [exact Z_rmul_comm|].
  apply (example_matmul_correct ctx_example Z_rmul_comm A22_example
           B22_example 2 0 (1024 # 1)%Q galois_keys relin_keys []);
    try reflexivity; try (simpl; lia).
Defined.

(** ** Packing beyond the capacity *)

Section PackingBounds.
Context {R : Type} {SR : Scalar R}.
Variable E : Engine R.

(** X6. A matrix with more entries than the engine has slots is not
    rejected: [int(Nmax/N/M)] is 0, the list handed to the encoder is
    empty, and [encrypt_array] encodes and encrypts the empty vector,
    whatever the entries of the matrix are. *)
Theorem encrypt_array_over_capacity (matrix : ndarray R) (M N : nat) (s : Q)
    (t : list Event) :
  shape matrix = (M, N) -> 1 <= M -> 1 <= N -> slot_count E < M * N ->
  encrypt_array E matrix s t =
  (plain <- call (EvEncode 0) (encode E [] s) ;;
   call EvEncrypt (encrypt E plain))%eng t.
Proof.
  intros HS HM HN Hcap. unfold encrypt_array, tile_count. rewrite HS.
  destruct (Nat.eqb_spec N 0) as [->|_]; [lia|].
  destruct (Nat.eqb_spec M 0) as [->|_]; [lia|].
  rewrite Nat.Div0.div_div, Nat.div_small by lia.
  reflexivity.
Qed.

(** X7. [decrypt_array] returns the first [M*N] decoded values as an
    [M]-by-[N] array when the decoded vector has at least that many, and
    raises numpy's [ValueError] of [reshape] when it has fewer: the slice
    [vec[0:M*N]] is then shorter than [M*N].  Both engine calls have been
    made by then. *)
Theorem decrypt_array_bounds (cipher : Ciphertext E) (p : Plaintext E)
    (vec : list R) (M N : nat) (t : list Event) :
  decrypt E cipher = Ok p -> decode E p = Ok vec ->
  decrypt_array E cipher M N t =
  (if M * N <=? length vec
   then Ok {| shape := (M, N); data := firstn (M * N) vec |}
   else Raise (ValueError "cannot reshape array"),
   t ++ [EvDecrypt] ++ [EvDecode]).
Proof.
  intros Hd He. unfold decrypt_array, bind, call, lift, np_reshape.
  rewrite Hd, He, length_firstn, app_assoc.
  destruct (Nat.leb_spec (M * N) (length vec)) as [Hle|Hlt].
  - rewrite Nat.min_l by exact Hle. rewrite Nat.eqb_refl. reflexivity.
  - rewrite Nat.min_r by lia.
    destruct (Nat.eqb_spec (length vec) (M * N)) as [Heq|_]; [lia|].
    reflexivity.
Qed.

End PackingBounds.

Lemma encrypt_array_over_capacity_witness :
  slot_count (LeveledEngine ctx_example) < 3 * 3 /\
  encrypt_array (LeveledEngine ctx_example) U3_example (1024 # 1)%Q [] =
  (plain <- call (EvEncode 0)
              (encode (LeveledEngine ctx_example) [] (1024 # 1)%Q) ;;
   call EvEncrypt (encrypt (LeveledEngine ctx_example) plain))%eng [].
Proof.
  split; [simpl; lia|].
  apply (encrypt_array_over_capacity (LeveledEngine ctx_example) U3_example
           3 3 (1024 # 1)%Q []); try reflexivity; simpl; lia.
Defined.

Lemma decrypt_array_bounds_witness :
  decrypt_array (LeveledEngine ctx_example) ctA_example 3 3 [] =
  (Raise (ValueError "cannot reshape array"), [EvDecrypt; EvDecode]).
Proof.
  apply (decrypt_array_bounds (LeveledEngine ctx_example) ctA_example
           {| pt_slots := ct_slots ctA_example;
              pt_scale := ct_scale ctA_example;
              pt_level := ct_level ctA_example |}
           (slots_pad 8 (ct_slots ctA_example)) 3 3 []); reflexivity.
Defined.

(** ** The generators are permutation matrices *)

Lemma row_shift_bijective (d : nat) (s : nat -> nat) :
  bijective_below (d * d)
    (fun r => d * (r / d) + (r mod d + s (r / d)) mod d).
Proof.
  repeat split.
  - intros r Hr. destruct (@block_index_split d r Hr) as (Hi & Hj & _).
    apply block_index_bound; [exact Hi|]. apply Nat.mod_upper_bound. lia.
  - intros r r' Hr Hr' He.
    destruct (@block_index_split d r Hr) as (Hi & Hj & Hs).
    destruct (@block_index_split d r' Hr') as (Hi' & Hj' & Hs').
    assert (Hm : (r mod d + s (r / d)) mod d < d)
      by (apply Nat.mod_upper_bound; lia).
    destruct (@block_index_unique d _ (r / d) _ Hm eq_refl) as [E1 E2].
    rewrite He in E1, E2.
    assert (Hm' : (r' mod d + s (r' / d)) mod d < d)
      by (apply Nat.mod_upper_bound; lia).
    destruct (@block_index_unique d _ (r' / d) _ Hm' eq_refl) as [E1' E2'].
    assert (Hq : r / d = r' / d) by congruence.
    assert (Hx : r mod d = r' mod d).
    { apply (shift_mod_inj d (s (r / d))); [exact Hj|exact Hj'|].
      rewrite E2. rewrite Hq. symmetry. exact E2'. }
    rewrite Hs, Hs'. congruence.
  - intros c Hc. destruct (@block_index_split d c Hc) as (Hi & Hj & Hs).
    set (j := (c mod d + (d - s (c / d) mod d)) mod d).
    assert (Hjd : j < d) by (apply Nat.mod_upper_bound; lia).
    destruct (@block_index_unique d (d * (c / d) + j) (c / d) j Hjd eq_refl)
      as [E1 E2].
    exists (d * (c / d) + j). split.
    + apply block_index_bound; assumption.
    + rewrite <- E1, <- E2. unfold j.
      rewrite (shift_mod_forth d (s (c / d)) (c mod d) Hj). symmetry. exact Hs.
Qed.

Lemma col_shift_bijective (d : nat) (s : nat -> nat) :
  bijective_below (d * d)
    (fun r => d * ((r / d + s (r mod d)) mod d) + r mod d).
Proof.
  repeat split.
  - intros r Hr. destruct (@block_index_split d r Hr) as (Hi & Hj & _).
    apply block_index_bound; [|exact Hj]. apply Nat.mod_upper_bound. lia.
  - intros r r' Hr Hr' He.
    destruct (@block_index_split d r Hr) as (Hi & Hj & Hs).
    destruct (@block_index_split d r' Hr') as (Hi' & Hj' & Hs').
    destruct (@block_index_unique d _ ((r / d + s (r mod d)) mod d) _ Hj
                eq_refl) as [E1 E2].
    rewrite He in E1, E2.
    destruct (@block_index_unique d _ ((r' / d + s (r' mod d)) mod d) _ Hj'
                eq_refl) as [E1' E2'].
    assert (Hx : r mod d = r' mod d) by congruence.
    assert (Hq : r / d = r' / d).
    { apply (shift_mod_inj d (s (r mod d))); [exact Hi|exact Hi'|].
      rewrite E1. rewrite Hx. symmetry. exact E1'. }
    rewrite Hs, Hs'. congruence.
  - intros c Hc. destruct (@block_index_split d c Hc) as (Hi & Hj & Hs).
    set (i := (c / d + (d - s (c mod d) mod d)) mod d).
    assert (Hid : i < d) by (apply Nat.mod_upper_bound; lia).
    destruct (@block_index_unique d (d * i + c mod d) i (c mod d) Hj eq_refl)
      as [E1 E2].
    exists (d * i + c mod d). split.
    + apply block_index_bound; assumption.
    + rewrite <- E1, <- E2. unfold i.
      rewrite (shift_mod_forth d (s (c mod d)) (c / d) Hi). symmetry. exact Hs.
Qed.

Lemma bijective_below_ext (N : nat) (p q : nat -> nat) :
  (forall r, r < N -> p r = q r) -> bijective_below N p -> bijective_below N q.
Proof.
  intros He (Hb & Hi & Hs). repeat split.
  - intros r Hr. rewrite <- He by exact Hr. apply Hb. exact Hr.
  - intros r r' Hr Hr' Hq. apply Hi; try assumption.
    rewrite !He by assumption. exact Hq.
  - intros c Hc. destruct (Hs c Hc) as (r & Hr & Hp).
    exists r. split; [exact Hr|]. rewrite <- He by exact Hr. exact Hp.
Qed.

Lemma sigma_bijective (d : nat) :
  bijective_below (d * d) (flat_target d (sigma_target d)).
Proof.
  apply (bijective_below_ext (d * d) _ _) with (2 := row_shift_bijective d (fun i => i)).
  intros r _. unfold flat_target, sigma_target. f_equal. f_equal. lia.
Qed.

Lemma tau_bijective (d : nat) :
  bijective_below (d * d) (flat_target d (tau_target d)).
Proof.
  apply (bijective_below_ext (d * d) _ _) with (2 := col_shift_bijective d (fun j => j)).
  intros r _. reflexivity.
Qed.

Lemma phi_bijective (k d : nat) :
  bijective_below (d * d) (flat_target d (phi_target k d)).
Proof.
  apply (bijective_below_ext (d * d) _ _) with (2 := row_shift_bijective d (fun _ => k)).
  intros r _. reflexivity.
Qed.

Lemma psi_bijective (k d : nat) :
  bijective_below (d * d) (flat_target d (psi_target k d)).
Proof.
  apply (bijective_below_ext (d * d) _ _) with (2 := col_shift_bijective d (fun _ => k)).
  intros r _. reflexivity.
Qed.

Lemma block_lift_bijective (m : nat) (p : nat -> nat) :
  bijective_below m p ->
  bijective_below (2 * m) (fun r => m * (r / m) + p (r mod m)).
Proof.
  intros (Hb & Hi & Hs).
  assert (Hdm : forall r, r < 2 * m -> r / m < 2 /\ r mod m < m).
  { intros r Hr. split.
    - apply Nat.Div0.div_lt_upper_bound. lia.
    - apply Nat.mod_upper_bound. lia. }
  repeat split.
  - intros r Hr. destruct (Hdm r Hr) as [Hq Hx].
    pose proof (Hb _ Hx). nia.
  - intros r r' Hr Hr' He.
    destruct (Hdm r Hr) as [Hq Hx]. destruct (Hdm r' Hr') as [Hq' Hx'].
    destruct (@block_index_unique m _ (r / m) _ (Hb _ Hx) eq_refl)
      as [E1 E2].
    rewrite He in E1, E2.
    destruct (@block_index_unique m _ (r' / m) _ (Hb _ Hx') eq_refl)
      as [E1' E2'].
    assert (Ex : r mod m = r' mod m) by (apply Hi; congruence).
    rewrite (Nat.div_mod_eq r m), (Nat.div_mod_eq r' m). congruence.
  - intros c Hc. destruct (Hdm c Hc) as [Hq Hx].
    destruct (Hs _ Hx) as (r & Hr & Hp).
    destruct (@block_index_unique m (m * (c / m) + r) (c / m) r Hr eq_refl)
      as [E1 E2].
    exists (m * (c / m) + r). split; [nia|].
    rewrite <- E1, <- E2, Hp. symmetry. apply Nat.div_mod_eq.
Qed.

Section PermutationMatrices.
Context {R : Type} {SR : Scalar R}.

Lemma index_map_permutation (U : ndarray R) (N : nat) (p : nat -> nat) :
  shape U = (N, N) -> bijective_below N p ->
  (forall r c, r < N -> c < N ->
     get U r c = if c =? p r then r1 else r0) ->
  permutation_matrix U N.
Proof.
  intros HS (Hb & Hi & Hs) Hg.
  assert (Hone : forall r c, r < N -> c < N -> get U r c = r1 -> c = p r).
  { intros r c Hr Hc H1. rewrite (Hg r c Hr Hc) in H1.
    destruct (Nat.eqb_spec c (p r)) as [E|_]; [exact E|].
    exfalso. apply (r1_neq_0 (R := R)). symmetry. exact H1. }
  split; [exact HS|]. split; [|split].
  - intros r c Hr Hc. rewrite (Hg r c Hr Hc).
    destruct (c =? p r); [right|left]; reflexivity.
  - intros r Hr. exists (p r). split; [apply Hb; exact Hr|]. split.
    + rewrite (Hg r (p r) Hr (Hb r Hr)), Nat.eqb_refl. reflexivity.
    + intros c' Hc' H1. apply (Hone r c' Hr Hc' H1).
  - intros c Hc. destruct (Hs c Hc) as (r & Hr & Hp).
    exists r. split; [exact Hr|]. split.
    + rewrite (Hg r c Hr Hc), Hp, Nat.eqb_refl. reflexivity.
    + intros r' Hr' H1. apply Hi; try assumption.
      rewrite Hp. symmetry. apply (Hone r' c Hr' Hc H1).
Qed.

Lemma base_matrix_permutation (d : nat) (target : nat -> nat -> nat) :
  (forall i j, i < d -> j < d -> target i j < d * d) ->
  bijective_below (d * d) (flat_target d target) ->
  permutation_matrix (base_matrix (R := R) d target) (d * d).
Proof.
  intros Ht Hbij.
  destruct (base_matrix_spec (R := R) d target Ht) as (_ & HS & Hg).
  apply (index_map_permutation _ (d * d) (flat_target d target) HS Hbij Hg).
Qed.

Lemma duplicated_permutation (d nmax : nat) (target : nat -> nat -> nat) :
  (forall i j, i < d -> j < d -> target i j < d * d) ->
  bijective_below (d * d) (flat_target d target) ->
  2 * (d * d) <= nmax ->
  permutation_matrix
    (duplicated_truncated (base_matrix (R := R) d target) nmax)
    (2 * (d * d)).
Proof.
  intros Ht Hbij Hn.
  destruct (base_matrix_spec (R := R) d target Ht) as (_ & HS & _).
  apply (index_map_permutation _ (2 * (d * d))
           (fun r => d * d * (r / (d * d)) +
                     flat_target d target (r mod (d * d)))).
  - rewrite (@shape_duplicated_truncated _ _ _ _ nmax HS).
    rewrite Nat.min_r by exact Hn. reflexivity.
  - apply block_lift_bijective. exact Hbij.
  - intros r c Hr Hc. apply get_duplicated_flat; assumption.
Qed.

(** X8. Every generator returns a permutation matrix: entries 0 or 1 with
    exactly one 1 in each row and each column.  [phi_permutation_k] and
    [psi_permutation_k] return one of size [d*d] whatever [nmax] is;
    [sigma_permutation] and [tau_permutation] return one of size [2*d*d]
    when [nmax] leaves the duplicated matrix uncut. *)
Theorem generators_are_permutations (d nmax k nmax' : nat) :
  2 * (d * d) <= nmax ->
  exists Usigma Utau Vk Wk : ndarray R,
    sigma_permutation d nmax = Ok Usigma /\
    tau_permutation d nmax = Ok Utau /\
    phi_permutation_k k d nmax' = Ok Vk /\
    psi_permutation_k k d nmax' = Ok Wk /\
    permutation_matrix Usigma (2 * (d * d)) /\
    permutation_matrix Utau (2 * (d * d)) /\
    permutation_matrix Vk (d * d) /\
    permutation_matrix Wk (d * d).
Proof.
  intros Hn.
  exists (duplicated_truncated (base_matrix d (sigma_target d)) nmax),
         (duplicated_truncated (base_matrix d (tau_target d)) nmax),
         (base_matrix d (phi_target k d)), (base_matrix d (psi_target k d)).
  split; [apply sigma_permutation_value|].
  split; [apply tau_permutation_value|].
  split; [apply phi_permutation_k_value|].
  split; [apply psi_permutation_k_value|].
  split; [|split; [|split]].
  - apply duplicated_permutation;
      [apply sigma_target_bound | apply sigma_bijective | exact Hn].
  - apply duplicated_permutation;
      [apply tau_target_bound | apply tau_bijective | exact Hn].
  - apply base_matrix_permutation;
      [apply phi_target_bound | apply phi_bijective].
  - apply base_matrix_permutation;
      [apply psi_target_bound | apply psi_bijective].
Qed.

End PermutationMatrices.

Lemma generators_are_permutations_witness :
  2 * (2 * 2) <= 8 /\
  exists Usigma Utau Vk Wk : ndarray Z,
    sigma_permutation 2 8 = Ok Usigma /\
    tau_permutation 2 8 = Ok Utau /\
    phi_permutation_k 1 2 8 = Ok Vk /\
    psi_permutation_k 1 2 8 = Ok Wk /\
    permutation_matrix Usigma (2 * (2 * 2)) /\
    permutation_matrix Utau (2 * (2 * 2)) /\
    permutation_matrix Vk (2 * 2) /\
    permutation_matrix Wk (2 * 2).
Proof.
  split; [simpl; lia|].
  apply (generators_are_permutations 2 8 1 8). simpl. lia.
Defined.
